(** * tagged-keyv-wrapper: a tag index layered over a key-value cache

    The development embeds [KeyvTagManager] (the default tag index, which
    keeps its records in the same store as the payloads) and [TaggedKeyv]
    (the cache facade) as programs over the store operations of Keyv, gives
    them a sequential semantics with injectable store failures and a
    cooperative scheduling semantics for calls in flight at the same time,
    and proves the properties the specification states about them. *)

From Stdlib Require Import ZArith String List Lia.
From stdpp Require Import base option list gmap strings fin_maps.


(** ** Values held by the store *)

(** A JavaScript value that survives Keyv's serialisation.  [undefined] is
    not among them: reading an absent key is [None]. *)
#[local] Unset Elimination Schemes.
Inductive value : Type :=
| VNull
| VBool (b : bool)
| VNum (n : Z)
| VStr (s : string)
| VArr (items : list value)
| VObj (fields : list (string * value)).
#[local] Set Elimination Schemes.

(** [items.every((item) => typeof item === 'string')], returning the items
    as strings when it holds. *)
Fixpoint everyString (items : list value) : option (list string) :=
  match items with
  | [] => Some []
  | VStr s :: rest =>
      match everyString rest with
      | Some l => Some (s :: l)
      | None => None
      end
  | _ :: _ => None
  end.

(** The type guard [isStringArray]: [Some l] when the value read is an array
    of strings (the narrowed value), [None] for anything else, [undefined]
    included. *)
Definition isStringArray (v : option value) : option (list string) :=
  match v with
  | Some (VArr items) => everyString items
  | _ => None
  end.

(** A [string[]] as a stored value. *)
Definition ofStrings (l : list string) : value := VArr (VStr <$> l).

(** ** Programs over the store *)

(** Settlement of a promise. *)
Inductive outcome (A : Type) : Type :=
| Fulfilled (a : A)
| Rejected (e : string).
Arguments Fulfilled {A} a.
Arguments Rejected {A} e.

(** The operations of the primary store. *)
Inductive storeOp : Type -> Type :=
| OpGet (key : string) : storeOp (option value)
| OpSet (key : string) (v : value) (ttl : option Z) : storeOp unit
| OpDelete (key : string) : storeOp bool
| OpClear : storeOp unit.

(** Modelled from the spec: the primary store (the Keyv instance) is an
    external collaborator; this is its contract of section 6 on an in-memory
    map.  The model has no clock: an entry stays until it is deleted, which
    is what the contract says of an entry set without a time-to-live. *)
Definition perform {X : Type} (o : storeOp X) (s : gmap string value)
  : X * gmap string value :=
  match o in storeOp T return T * gmap string value with
  | OpGet key => (s !! key, s)
  | OpSet key v _ => (tt, <[key := v]> s)
  | OpDelete key => (bool_decide (is_Some (s !! key)), delete key s)
  | OpClear => (tt, ∅)
  end.

(** An asynchronous function body: it returns, throws, writes to
    [console.error], or awaits a store operation and goes on with its
    settlement.  Awaiting is the only suspension point. *)
Inductive prog (A : Type) : Type :=
| Ret (a : A)
| Throw (e : string)
| Log (msg : string) (k : prog A)
| Await {X : Type} (o : storeOp X) (k : outcome X -> prog A).
Arguments Ret {A} a.
Arguments Throw {A} e.
Arguments Log {A} msg k.
Arguments Await {A X} o k.

Fixpoint bind {A B : Type} (p : prog A) (f : A -> prog B) : prog B :=
  match p with
  | Ret a => f a
  | Throw e => Throw e
  | Log msg k => Log msg (bind k f)
  | Await o k => Await o (fun r => bind (k r) f)
  end.

(** [try { p } catch (error) { h error }] *)
Fixpoint tryCatch {A : Type} (p : prog A) (h : string -> prog A) : prog A :=
  match p with
  | Ret a => Ret a
  | Throw e => h e
  | Log msg k => Log msg (tryCatch k h)
  | Await o k => Await o (fun r => tryCatch (k r) h)
  end.

Notation "'let*' x ':=' p 'in' q" := (bind p (fun x => q))
  (at level 10, x name, p at level 100, q at level 200).
Notation "p ';;;' q" := (bind p (fun _ => q))
  (at level 100, q at level 200, right associativity).

(** [await o]: a rejected operation throws at the await. *)
Definition await {X : Type} (o : storeOp X) : prog X :=
  Await o (fun r => match r with Fulfilled x => Ret x | Rejected e => Throw e end).

(** [for (const x of l) { await body(x) }] *)
Fixpoint forEach {A : Type} (l : list A) (body : A -> prog unit) : prog unit :=
  match l with
  | [] => Ret tt
  | x :: rest => body x ;;; forEach rest body
  end.

(** [console.error(label, error)] *)
Definition consoleError (label e : string) : prog unit :=
  Log (label +:+ " " +:+ e) (Ret tt).

(** ** Sequential semantics *)

(** The store, the failures the store is going to report (one entry per
    operation to come: [Some e] makes it reject with [e]; past the end of
    the list every operation succeeds) and what was written to
    [console.error]. *)
Record World : Type := mkWorld {
  store : gmap string value;
  faults : list (option string);
  console : list string
}.

Fixpoint run {A : Type} (p : prog A) (w : World) : outcome A * World :=
  match p with
  | Ret a => (Fulfilled a, w)
  | Throw e => (Rejected e, w)
  | Log msg k => run k (mkWorld (store w) (faults w) (console w ++ [msg]))
  | Await o k =>
      match faults w with
      | Some e :: fs => run (k (Rejected e)) (mkWorld (store w) fs (console w))
      | None :: fs =>
          let '(x, s) := perform o (store w) in
          run (k (Fulfilled x)) (mkWorld s fs (console w))
      | [] =>
          let '(x, s) := perform o (store w) in
          run (k (Fulfilled x)) (mkWorld s [] (console w))
      end
  end.

(** The run over a store that reports no failure, console left out. *)
Fixpoint exec {A : Type} (p : prog A) (s : gmap string value)
  : outcome A * gmap string value :=
  match p with
  | Ret a => (Fulfilled a, s)
  | Throw e => (Rejected e, s)
  | Log _ k => exec k s
  | Await o k => let '(x, s') := perform o s in exec (k (Fulfilled x)) s'
  end.

(** The keys an operation writes to: the key of a [set] or a [delete], and
    every key of the store for a [clear]. *)
Definition target {X : Type} (o : storeOp X) (s : gmap string value)
  : list string :=
  match o with
  | OpSet key _ _ => [key]
  | OpDelete key => [key]
  | OpClear => (map_to_list s).*1
  | OpGet _ => []
  end.

(** The keys a run writes to, in order: the target of every operation it
    issues, whether the store then reports a failure or not. *)
Fixpoint writes {A : Type} (p : prog A) (w : World) : list string :=
  match p with
  | Ret _ => []
  | Throw _ => []
  | Log msg k => writes k (mkWorld (store w) (faults w) (console w ++ [msg]))
  | Await o k =>
      target o (store w) ++
      match faults w with
      | Some e :: fs => writes (k (Rejected e)) (mkWorld (store w) fs (console w))
      | None :: fs =>
          let '(x, s) := perform o (store w) in
          writes (k (Fulfilled x)) (mkWorld s fs (console w))
      | [] =>
          let '(x, s) := perform o (store w) in
          writes (k (Fulfilled x)) (mkWorld s [] (console w))
      end
  end.

(** ** Calls through the slot of a key *)

(** A call that goes through [withLock]: the key of the slot and the
    operation to run once the slot is taken. *)
Record call (A : Type) : Type := mkCall {
  lockKey : string;
  operation : prog A
}.
Arguments mkCall {A} lockKey operation.
Arguments lockKey {A} c.
Arguments operation {A} c.

(** A call made while no other call holds or awaits the slot of its key:
    the slot is free on entry and released on exit, and the call is its
    operation. *)
Definition alone {A : Type} (c : call A) : prog A := operation c.

(** ** Scheduling semantics

    The stages of [withLock] for calls in flight at the same time.  Tasks
    take turns; a turn runs a task up to its next suspension point. *)

(** A call that went through [withLock], at one of its stages: issued and
    not yet started; suspended at [await existingLock], waiting for the
    promise found in the slot (the promise of task [holder]); past the
    wait, with what is left of its operation; settled. *)
Inductive task : Type :=
| Issued (c : call unit)
| Waiting (holder : nat) (c : call unit)
| Running (slot : string) (rest : prog unit)
| Done (r : outcome unit).

(** The instance and its store: the map [locks], from the key of a slot to
    the task whose promise sits there, and the tasks in the order they were
    issued.  The store reports no failure here. *)
Record system : Type := mkSystem {
  entries : gmap string value;
  locks : gmap string nat;
  tasks : list task;
  errors : list string
}.

(** "Create a new lock": the operation starts, and its promise is put in the
    slot, over whatever was there. *)
Definition enter (i : nat) (c : call unit) (σ : system) : system :=
  mkSystem (entries σ)
    (<[lockKey c := i]> (locks σ))
    (<[i := Running (lockKey c) (operation c)]> (tasks σ))
    (errors σ).

(** A running task runs up to its next suspension point: it settles, the
    [finally] removing the entry of the slot, or it performs the store
    operation it was awaiting. *)
Fixpoint advance (i : nat) (slot : string) (rest : prog unit) (σ : system)
  : system :=
  match rest with
  | Ret _ =>
      mkSystem (entries σ) (delete slot (locks σ))
        (<[i := Done (Fulfilled tt)]> (tasks σ)) (errors σ)
  | Throw e =>
      mkSystem (entries σ) (delete slot (locks σ))
        (<[i := Done (Rejected e)]> (tasks σ)) (errors σ)
  | Log msg k =>
      advance i slot k
        (mkSystem (entries σ) (locks σ) (tasks σ) (errors σ ++ [msg]))
  | Await o k =>
      let '(x, s) := perform o (entries σ) in
      mkSystem s (locks σ) (<[i := Running slot (k (Fulfilled x))]> (tasks σ))
        (errors σ)
  end.

(** One turn of task [i].  A waiting task goes on once the promise it
    awaits is settled: fulfilled, the task goes past the wait without a second
    look at the slot; rejected, the [await] throws and the task is rejected
    with the same error. *)
Definition step (i : nat) (σ : system) : system :=
  match tasks σ !! i with
  | Some (Issued c) =>
      match locks σ !! lockKey c with
      | Some holder =>
          mkSystem (entries σ) (locks σ) (<[i := Waiting holder c]> (tasks σ))
            (errors σ)
      | None => enter i c σ
      end
  | Some (Waiting holder c) =>
      match tasks σ !! holder with
      | Some (Done (Fulfilled _)) => enter i c σ
      | Some (Done (Rejected e)) =>
          mkSystem (entries σ) (locks σ) (<[i := Done (Rejected e)]> (tasks σ))
            (errors σ)
      | _ => σ
      end
  | Some (Running slot rest) => advance i slot rest σ
  | _ => σ
  end.

(** The tasks take turns in the order of the schedule. *)
Definition schedule (turns : list nat) (σ : system) : system :=
  foldl (fun σ' i => step i σ') σ turns.

Definition issue (s : gmap string value) (calls : list (call unit))
  : system :=
  mkSystem s ∅ (Issued <$> calls) [].

(** ** The store handle *)

Module Keyv.
Definition get (key : string) : prog (option value) := await (OpGet key).
Definition set (key : string) (v : value) (ttl : option Z) : prog unit :=
  await (OpSet key v ttl).
Definition delete (key : string) : prog bool := await (OpDelete key).
Definition clear : prog unit := await OpClear.
End Keyv.

(** ** The TagManager interface *)

Module TagManager.
Record t : Type := {
  addKeyToTag : string -> string -> prog unit;
  removeKeyFromTag : string -> string -> prog unit;
  getKeysForTag : string -> prog (list string);
  getTagsForKey : string -> prog (list string);
  setTagsForKey : string -> list string -> prog unit;
  deleteTag : string -> prog unit;
  deleteKeyFromAllTags : string -> prog unit;
  clear : prog unit;
  compact : option (list string) -> prog unit;
  getAllTags : prog (list string)
}.
End TagManager.

(** ** KeyvTagManager *)

Definition TAG_PREFIX : string := "__tag__:".
Definition KEY_TAGS_PREFIX : string := "__tags__:".

(** [s.startsWith(p) ? s.substring(p.length) : undefined] *)
Fixpoint stripPrefix (p s : string) : option string :=
  match p, s with
  | EmptyString, _ => Some s
  | String a p', String b s' =>
      if Ascii.eqb a b then stripPrefix p' s' else None
  | String _ _, EmptyString => None
  end.

Module KeyvTagManager.

Definition getTagKey (tag : string) : string := TAG_PREFIX +:+ tag.
Definition getKeyTagMapKey (key : string) : string := KEY_TAGS_PREFIX +:+ key.

Definition addKeyToTag (key tag : string) : prog unit :=
  let tagKey := getTagKey tag in
  let* existing := Keyv.get tagKey in
  let existingArray := default [] (isStringArray existing) in
  if bool_decide (key ∈ existingArray) then Ret tt
  else
    let updated := existingArray ++ [key] in
    Keyv.set tagKey (ofStrings updated) None.

Definition removeKeyFromTag (key tag : string) : prog unit :=
  let tagKey := getTagKey tag in
  let* existing := Keyv.get tagKey in
  match isStringArray existing with
  | Some arr =>
      let updated := filter (fun k => k ≠ key) arr in
      if bool_decide (0 < length updated)
      then Keyv.set tagKey (ofStrings updated) None
      else Keyv.delete tagKey ;;; Ret tt
  | None => Ret tt
  end.

Definition getKeysForTag (tag : string) : prog (list string) :=
  let tagKey := getTagKey tag in
  let* keys := Keyv.get tagKey in
  match isStringArray keys with
  | Some l => Ret l
  | None => Ret []
  end.

Definition getTagsForKey (key : string) : prog (list string) :=
  let tagMapKey := getKeyTagMapKey key in
  let* tags := Keyv.get tagMapKey in
  match isStringArray tags with
  | Some l => Ret l
  | None => Ret []
  end.

Definition deleteKeyFromAllTags (key : string) : prog unit :=
  let tagMapKey := getKeyTagMapKey key in
  let* tags := Keyv.get tagMapKey in
  match isStringArray tags with
  | Some l =>
      forEach l (fun tag => removeKeyFromTag key tag) ;;;
      Keyv.delete tagMapKey ;;;
      Ret tt
  | None => Ret tt
  end.

Definition setTagsForKey (key : string) (tags : list string) : prog unit :=
  let tagMapKey := getKeyTagMapKey key in
  deleteKeyFromAllTags key ;;;
  if bool_decide (0 < length tags)
  then
    Keyv.set tagMapKey (ofStrings tags) None ;;;
    forEach tags (fun tag => addKeyToTag key tag)
  else Keyv.delete tagMapKey ;;; Ret tt.

Definition deleteTag (tag : string) : prog unit :=
  let tagKey := getTagKey tag in
  let* keys := Keyv.get tagKey in
  match isStringArray keys with
  | Some l =>
      forEach l (fun key =>
        let* keyTags := getTagsForKey key in
        let updatedTags := filter (fun t => t ≠ tag) keyTags in
        if bool_decide (0 < length updatedTags)
        then Keyv.set (getKeyTagMapKey key) (ofStrings updatedTags) None
        else Keyv.delete (getKeyTagMapKey key) ;;; Ret tt)
  | None => Ret tt
  end ;;;
  Keyv.delete tagKey ;;;
  Ret tt.

Definition clear : prog unit := Keyv.clear.

(** The loop of [compactTag]: [seen] is the [Set] of keys met so far,
    [validKeys] the keys kept so far. *)
Fixpoint compactLoop (existing : list string) (seen : gset string)
    (validKeys : list string) : prog (list string) :=
  match existing with
  | [] => Ret validKeys
  | key :: rest =>
      if bool_decide (key ∈ seen) then compactLoop rest seen validKeys
      else
        let seen' := {[key]} ∪ seen in
        let* v := Keyv.get key in
        match v with
        | Some _ => compactLoop rest seen' (validKeys ++ [key])
        | None => compactLoop rest seen' validKeys
        end
  end.

Definition compactTag (tag : string) : prog unit :=
  let tagKey := getTagKey tag in
  let* existing := Keyv.get tagKey in
  match isStringArray existing with
  | Some l =>
      let* validKeys := compactLoop l ∅ [] in
      if bool_decide (length validKeys ≠ length l)
      then
        if bool_decide (0 < length validKeys)
        then Keyv.set tagKey (ofStrings validKeys) None
        else Keyv.delete tagKey ;;; Ret tt
      else Ret tt
  | None => Ret tt
  end.

(** [tags] is [None] when the argument is left out ([undefined]). *)
Definition compact (tags : option (list string)) : prog unit :=
  match tags with
  | None =>
      Throw "Global tag compaction not implemented. Please specify tags to compact."
  | Some l => forEach l compactTag
  end.

(** [this.tagManager.getAllTags()] on a [KeyvTagManager].  The interface
    [TagManager] declares [getAllTags], but the class, which ends with
    [compactTag], defines no such method: the property is [undefined] on
    the object, and calling it throws the TypeError of the engine before
    anything reaches the store. *)
Definition getAllTags : prog (list string) :=
  Throw "this.tagManager.getAllTags is not a function".

(** [new KeyvTagManager(cache)] *)
Definition new : TagManager.t := {|
  TagManager.addKeyToTag := addKeyToTag;
  TagManager.removeKeyFromTag := removeKeyFromTag;
  TagManager.getKeysForTag := getKeysForTag;
  TagManager.getTagsForKey := getTagsForKey;
  TagManager.setTagsForKey := setTagsForKey;
  TagManager.deleteTag := deleteTag;
  TagManager.deleteKeyFromAllTags := deleteKeyFromAllTags;
  TagManager.clear := clear;
  TagManager.compact := compact;
  TagManager.getAllTags := getAllTags
|}.

End KeyvTagManager.

(** ** TaggedKeyv *)

(** The double-quote character of the error messages. *)
Definition quote : string := String (Ascii.ascii_of_nat 34) EmptyString.

(** [Array.prototype.slice] on integer bounds: a negative bound counts from
    the end of the array, a bound past the end stops there. *)
Definition relativeIndex (len i : Z) : Z :=
  if (i <? 0)%Z then Z.max (len + i) 0 else Z.min i len.

Definition slice {A : Type} (l : list A) (start end_ : Z) : list A :=
  let len := Z.of_nat (length l) in
  let k := relativeIndex len start in
  let final := relativeIndex len end_ in
  take (Z.to_nat (final - k)) (drop (Z.to_nat k) l).

(** [errors.map((e) => e.message).join(', ')] *)
Fixpoint join (sep : string) (l : list string) : string :=
  match l with
  | [] => EmptyString
  | [x] => x
  | x :: rest => x +:+ sep +:+ join sep rest
  end.

Module TaggedKeyv.

(** [withLock(key, operation)]: the call through the slot of [key].  What
    the method does with the slot is in [step]. *)
Definition withLock {A : Type} (key : string) (operation : prog A) : call A :=
  mkCall ("lock:" +:+ key) operation.

(** The third argument of [set]: a number (legacy form) or an options
    object. *)
Inductive ttlOrOptions : Type :=
| Ttl (n : Z)
| Options (ttl : option Z) (tags : option (list string)).

Definition cleanupFailedSet (tm : TagManager.t) (key : string) : prog unit :=
  tryCatch
    (Keyv.delete key ;;;
     TagManager.deleteKeyFromAllTags tm key)
    (fun cleanupError =>
       consoleError "Failed to cleanup after set operation failure:" cleanupError).

(** "Parse parameters to handle both API forms": the time-to-live and the
    final tags. *)
Definition parseArgs (arg3 : option ttlOrOptions) (tags : option (list string))
  : option Z * list string :=
  match arg3 with
  | Some (Options ttl otags) => (ttl, default [] otags)
  | Some (Ttl n) => (Some n, default [] tags)
  | None => (None, default [] tags)
  end.

Definition set (tm : TagManager.t) (key : string) (v : value)
    (arg3 : option ttlOrOptions) (tags : option (list string)) : call unit :=
  withLock key
    (let '(ttl, finalTags) := parseArgs arg3 tags in
     tryCatch (Keyv.set key v ttl)
       (fun error =>
          Throw ("Failed to set key " +:+ quote +:+ key +:+ quote +:+ ": " +:+ error)) ;;;
     if bool_decide (0 < length finalTags)
     then
       tryCatch (TagManager.setTagsForKey tm key finalTags)
         (fun error =>
            cleanupFailedSet tm key ;;;
            Throw ("Failed to set tags for key " +:+ quote +:+ key +:+ quote
                   +:+ ": " +:+ error))
     else Ret tt).

Definition get (key : string) : prog (option value) :=
  tryCatch (Keyv.get key)
    (fun error =>
       Throw ("Failed to get key " +:+ quote +:+ key +:+ quote +:+ ": " +:+ error)).

(** The loop of [getByTag] over the keys of the page. *)
Fixpoint fetchLoop (tag : string) (keysToFetch : list string)
    (results : list (string * value)) (errors : list string) (deadKeys : nat)
  : prog (list (string * value) * list string * nat) :=
  match keysToFetch with
  | [] => Ret (results, errors, deadKeys)
  | key :: rest =>
      let* got :=
        tryCatch (let* val := Keyv.get key in Ret (inr val))
          (fun error =>
             Ret (inl ("Failed to get key " +:+ quote +:+ key +:+ quote
                       +:+ " for tag " +:+ quote +:+ tag +:+ quote +:+ ": "
                       +:+ error))) in
      match got with
      | inr (Some val) => fetchLoop tag rest (results ++ [(key, val)]) errors deadKeys
      | inr None => fetchLoop tag rest results errors (S deadKeys)
      | inl err => fetchLoop tag rest results (errors ++ [err]) deadKeys
      end
  end.

(** The [options] of [getByTag]. *)
Record pageOptions : Type := mkPageOptions {
  page : option Z;
  limit : option Z
}.

Definition getByTag (tm : TagManager.t) (tag : string)
    (options : option pageOptions) : prog (list (string * value)) :=
  tryCatch
    (let* allKeys := TagManager.getKeysForTag tm tag in
     if bool_decide (length allKeys = 0) then Ret []
     else
       let o := default (mkPageOptions None None) options in
       let page := default 1%Z (page o) in
       let limit := default 50%Z (limit o) in
       let currentPage := Z.max 1 page in
       let offset := ((currentPage - 1) * limit)%Z in
       let end_ := (offset + limit)%Z in
       let keysToFetch := slice allKeys offset end_ in
       if bool_decide (length keysToFetch = 0) then Ret []
       else
         let* fetched := fetchLoop tag keysToFetch [] [] 0 in
         let '(results, errors, deadKeys) := fetched in
         (if bool_decide (0 < deadKeys)
          then
            tryCatch (TagManager.compact tm (Some [tag]))
              (fun compactError =>
                 consoleError ("Failed to compact tag array for " +:+ quote
                               +:+ tag +:+ quote +:+ ":") compactError)
          else Ret tt) ;;;
         (if bool_decide (0 < length errors)
          then consoleError ("Errors during getByTag for tag " +:+ quote +:+ tag
                             +:+ quote +:+ ":") (join "," errors)
          else Ret tt) ;;;
         Ret results)
    (fun error =>
       Throw ("Failed to get entries for tag " +:+ quote +:+ tag +:+ quote
              +:+ ": " +:+ error)).

Definition compactTags (tm : TagManager.t) (tags : option (list string))
  : prog unit :=
  tryCatch (TagManager.compact tm tags)
    (fun error => Throw ("Failed to compact tags: " +:+ error)).

Definition getAllTags (tm : TagManager.t) : prog (list string) :=
  tryCatch (TagManager.getAllTags tm)
    (fun error => Throw ("Failed to get all tags: " +:+ error)).

Definition getTagsForKey (tm : TagManager.t) (key : string) : prog (list string) :=
  tryCatch (TagManager.getTagsForKey tm key)
    (fun error =>
       Throw ("Failed to get tags for key " +:+ quote +:+ key +:+ quote
              +:+ ": " +:+ error)).

Definition delete (tm : TagManager.t) (key : string) : call bool :=
  withLock key
    (tryCatch
       (tryCatch (TagManager.deleteKeyFromAllTags tm key)
          (fun error =>
             consoleError "Error during tag cleanup for key deletion:" error) ;;;
        let* deleted := Keyv.delete key in
        Ret deleted)
       (fun error =>
          Throw ("Failed to delete key " +:+ quote +:+ key +:+ quote +:+ ": "
                 +:+ error))).

(** The loop of [invalidateTag] over the keys of the tag: the payloads are
    deleted from the store directly, and a failure is collected. *)
Fixpoint deleteLoop (tag : string) (keys : list string) (errors : list string)
  : prog (list string) :=
  match keys with
  | [] => Ret errors
  | key :: rest =>
      let* errors' :=
        tryCatch (Keyv.delete key ;;; Ret errors)
          (fun error =>
             Ret (errors ++ ["Failed to delete key " +:+ quote +:+ key +:+ quote
                             +:+ " for tag " +:+ quote +:+ tag +:+ quote +:+ ": "
                             +:+ error])) in
      deleteLoop tag rest errors'
  end.

Definition invalidateTag (tm : TagManager.t) (tag : string) : prog unit :=
  tryCatch
    (let* keys := TagManager.getKeysForTag tm tag in
     if bool_decide (length keys = 0) then Ret tt
     else
       let* errors := deleteLoop tag keys [] in
       let* errors' :=
         tryCatch (TagManager.deleteTag tm tag ;;; Ret errors)
           (fun error =>
              Ret (errors ++ ["Failed to delete tag metadata for " +:+ quote
                              +:+ tag +:+ quote +:+ ": " +:+ error])) in
       if bool_decide (0 < length errors')
       then consoleError ("Errors during invalidation of tag " +:+ quote +:+ tag
                          +:+ quote +:+ ":") (join "," errors')
       else Ret tt)
    (fun error =>
       Throw ("Failed to invalidate tag " +:+ quote +:+ tag +:+ quote +:+ ": "
              +:+ error)).

Definition clear (tm : TagManager.t) : prog unit :=
  tryCatch (Keyv.clear ;;; TagManager.clear tm)
    (fun error => Throw ("Failed to clear cache: " +:+ error)).

(** The loop of [invalidateTags]: every tag is tried, the messages of the
    failures are collected. *)
Fixpoint invalidateLoop (tm : TagManager.t) (tags : list string)
    (errors : list string) : prog (list string) :=
  match tags with
  | [] => Ret errors
  | tag :: rest =>
      let* errors' :=
        tryCatch (invalidateTag tm tag ;;; Ret errors)
          (fun error => Ret (errors ++ [error])) in
      invalidateLoop tm rest errors'
  end.

Definition invalidateTags (tm : TagManager.t) (tags : list string) : prog unit :=
  let* errors := invalidateLoop tm tags [] in
  if bool_decide (0 < length errors)
  then Throw ("Failed to invalidate some tags: " +:+ join ", " errors)
  else Ret tt.

(** The loop of [setMany]: each entry is set through [set], awaited before
    the next, so each call finds the slot of its key free. *)
Fixpoint setLoop (tm : TagManager.t)
    (entries : list (string * value * option (list string)))
    (errors : list string) : prog (list string) :=
  match entries with
  | [] => Ret errors
  | (key, v, tags) :: rest =>
      let* errors' :=
        tryCatch (alone (set tm key v None tags) ;;; Ret errors)
          (fun error => Ret (errors ++ [error])) in
      setLoop tm rest errors'
  end.

Definition setMany (tm : TagManager.t)
    (entries : list (string * value * option (list string))) : prog unit :=
  let* errors := setLoop tm entries [] in
  if bool_decide (0 < length errors)
  then Throw ("Failed to set some entries: " +:+ join ", " errors)
  else Ret tt.

Definition has (key : string) : prog bool :=
  tryCatch
    (let* v := Keyv.get key in
     Ret (bool_decide (is_Some v)))
    (fun error =>
       Throw ("Failed to check if key " +:+ quote +:+ key +:+ quote
              +:+ " exists: " +:+ error)).

End TaggedKeyv.

(** * Vocabulary of the statements

    The index records as read from a store, the stores the operations leave
    when nothing fails, the worlds and calls the statements are about, and
    the scheduling of calls in flight at the same time. *)

Section Vocabulary.

Import KeyvTagManager.

(** A program is regular when a run that is fulfilled, whatever failures the
    store had in stock, went exactly as the run without failures: no
    failure was swallowed on the way. *)
Definition regular {A : Type} (p : prog A) : Prop :=
  forall w a w', run p w = (Fulfilled a, w') ->
    exec p (store w) = (Fulfilled a, store w').

(** Hoare triples over the store, for every schedule of failures: from a
    store satisfying [P], the run ends with an outcome and a store
    satisfying [Q]. *)
Definition hoare {A : Type} (P : gmap string value -> Prop) (p : prog A)
    (Q : outcome A -> gmap string value -> Prop) : Prop :=
  forall w, P (store w) -> Q (run p w).1 (store (run p w).2).

(** The TagKeysRecord of a tag and the KeyTagsRecord of a key: what
    [getKeysForTag] and [getTagsForKey] return on a store. *)
Definition keysOf (s : gmap string value) (tag : string) : list string :=
  default [] (isStringArray (s !! KeyvTagManager.getTagKey tag)).

Definition tagsOf (s : gmap string value) (key : string) : list string :=
  default [] (isStringArray (s !! KeyvTagManager.getKeyTagMapKey key)).

(** The store after the operations of the tag manager, when the store
    reports no failure. *)
Definition addedTo (key tag : string) (s : gmap string value) : gmap string value :=
  if decide (key ∈ keysOf s tag) then s
  else <[KeyvTagManager.getTagKey tag := ofStrings (keysOf s tag ++ [key])]> s.

Definition removedFrom (key tag : string) (s : gmap string value)
  : gmap string value :=
  match isStringArray (s !! KeyvTagManager.getTagKey tag) with
  | Some arr =>
      match filter (fun k => k ≠ key) arr with
      | [] => delete (KeyvTagManager.getTagKey tag) s
      | updated => <[KeyvTagManager.getTagKey tag := ofStrings updated]> s
      end
  | None => s
  end.

Definition untagged (key : string) (s : gmap string value) : gmap string value :=
  match isStringArray (s !! KeyvTagManager.getKeyTagMapKey key) with
  | Some l =>
      delete (KeyvTagManager.getKeyTagMapKey key)
        (foldl (fun s' tag => removedFrom key tag s') s l)
  | None => s
  end.

Definition retagged (key : string) (tags : list string) (s : gmap string value)
  : gmap string value :=
  match tags with
  | [] => delete (KeyvTagManager.getKeyTagMapKey key) (untagged key s)
  | _ =>
      foldl (fun s' tag => addedTo key tag s')
        (<[KeyvTagManager.getKeyTagMapKey key := ofStrings tags]> (untagged key s))
        tags
  end.

(** The world once the failures in stock are over, and what a call answers
    there. *)
Definition settled (w : World) : World := mkWorld (store w) [] (console w).

Definition answer {A : Type} (p : prog A) (w : World) : outcome A :=
  (run p (settled w)).1.

(** The store after [set], when the store reports no failure. *)
Definition afterSet (key : string) (v : value) (finalTags : list string)
    (s : gmap string value) : gmap string value :=
  match finalTags with
  | [] => <[key := v]> s
  | _ => retagged key finalTags (<[key := v]> s)
  end.

Definition emptyWorld : World := mkWorld ∅ [] [].

(** The world after a call made alone. *)
Definition after {A : Type} (p : prog A) (w : World) : World := (run p w).2.


(** A key tagged [users], then set again without tags. *)
Definition taggedOnceWorld : World :=
  after (alone (TaggedKeyv.set new "user:1" (VNum 1) None
           (Some ["users"]))) emptyWorld.

(** The (key, value) pairs of the keys that hold a value, in the order of
    the keys. *)
Definition entriesOf (s : gmap string value) (keys : list string)
  : list (string * value) :=
  omap (fun key => (fun v => (key, v)) <$> s !! key) keys.

(** The page after clamping, the limit, and the zero-based offset of the
    page. *)
Definition pageOf (options : option TaggedKeyv.pageOptions) : Z :=
  Z.max 1 (default 1%Z (options ≫= TaggedKeyv.page)).

Definition limitOf (options : option TaggedKeyv.pageOptions) : Z :=
  default 50%Z (options ≫= TaggedKeyv.limit).

Definition offsetOf (options : option TaggedKeyv.pageOptions) : Z :=
  ((pageOf options - 1) * limitOf options)%Z.

(** Fifty-five keys would do; three keys and pages of two show the same. *)
Definition pagedWorld : World :=
  mkWorld (<[getTagKey "users" := ofStrings ["u1"; "u2"; "u3"]]>
             (<["u1" := VNum 1]> (<["u3" := VNum 3]> ∅))) [] [].

(** Deduplication that keeps the first occurrence of each key. *)
Fixpoint dedupFirst (l : list string) : list string :=
  match l with
  | [] => []
  | x :: rest => x :: filter (fun y => y ≠ x) (dedupFirst rest)
  end.

(** The keys of a list, deduplicated, that still hold a value. *)
Definition liveKeys (s : gmap string value) (l : list string) : list string :=
  filter (fun key => is_Some (s !! key)) (dedupFirst l).

(** The store after compacting a tag: left as it is when the filtered list
    is the stored one; otherwise the record is deleted when the filtered
    list is empty, and replaced by the filtered list when it is not. *)
Definition compacted (tag : string) (s : gmap string value) : gmap string value :=
  match isStringArray (s !! KeyvTagManager.getTagKey tag) with
  | Some l =>
      let filtered := liveKeys s l in
      if decide (filtered = l) then s
      else if decide (filtered = []) then delete (KeyvTagManager.getTagKey tag) s
      else <[KeyvTagManager.getTagKey tag := ofStrings filtered]> s
  | None => s
  end.

Definition unimplemented : string :=
  "Global tag compaction not implemented. Please specify tags to compact.".

(** The same call made [n] times, each awaited before the next. *)
Fixpoint times (n : nat) (p : prog unit) : prog unit :=
  match n with
  | 0 => Ret tt
  | S m => p ;;; times m p
  end.

(** The number of times a key stands in a list. *)
Definition occurrences (key : string) (l : list string) : nat :=
  length (filter (fun k => k = key) l).

Definition keysDuplicateFree (s : gmap string value) : Prop :=
  forall tag, NoDup (keysOf s tag).

Definition tagsDuplicateFree (s : gmap string value) : Prop :=
  forall key, NoDup (tagsOf s key).

Definition duplicateFree (s : gmap string value) : Prop :=
  keysDuplicateFree s /\ tagsDuplicateFree s.

(** A call of an operation of the tag index. *)
Inductive indexCall : Type :=
| CallAddKeyToTag (key tag : string)
| CallRemoveKeyFromTag (key tag : string)
| CallGetKeysForTag (tag : string)
| CallGetTagsForKey (key : string)
| CallSetTagsForKey (key : string) (tags : list string)
| CallDeleteTag (tag : string)
| CallDeleteKeyFromAllTags (key : string)
| CallClear
| CallCompact (tags : option (list string))
| CallGetAllTags.

Definition indexProg (c : indexCall) : prog unit :=
  match c with
  | CallAddKeyToTag key tag => KeyvTagManager.addKeyToTag key tag
  | CallRemoveKeyFromTag key tag => KeyvTagManager.removeKeyFromTag key tag
  | CallGetKeysForTag tag => KeyvTagManager.getKeysForTag tag ;;; Ret tt
  | CallGetTagsForKey key => KeyvTagManager.getTagsForKey key ;;; Ret tt
  | CallSetTagsForKey key tags => KeyvTagManager.setTagsForKey key tags
  | CallDeleteTag tag => KeyvTagManager.deleteTag tag
  | CallDeleteKeyFromAllTags key => KeyvTagManager.deleteKeyFromAllTags key
  | CallClear => KeyvTagManager.clear
  | CallCompact tags => KeyvTagManager.compact tags
  | CallGetAllTags => KeyvTagManager.getAllTags ;;; Ret tt
  end.

(** The tag list a call hands to [setTagsForKey] has no duplicates. *)
Definition distinctTags (c : indexCall) : Prop :=
  match c with
  | CallSetTagsForKey _ tags => NoDup tags
  | _ => True
  end.



(** The message of the error [set] throws when the tag update failed. *)
Definition tagFailure (key error : string) : string :=
  "Failed to set tags for key " +:+ quote +:+ key +:+ quote +:+ ": " +:+ error.

(** A tag index whose update always fails, as a test double: every other
    operation does nothing. *)
Definition faultyTagManager : TagManager.t := {|
  TagManager.addKeyToTag := fun _ _ => Ret tt;
  TagManager.removeKeyFromTag := fun _ _ => Ret tt;
  TagManager.getKeysForTag := fun _ => Ret [];
  TagManager.getTagsForKey := fun _ => Ret [];
  TagManager.setTagsForKey := fun _ _ => Throw "Tag manager error";
  TagManager.deleteTag := fun _ => Ret tt;
  TagManager.deleteKeyFromAllTags := fun _ => Ret tt;
  TagManager.clear := Ret tt;
  TagManager.compact := fun _ => Ret tt;
  TagManager.getAllTags := Ret []
|}.

(** The call forgets its result: the scheduler only looks at effects. *)
Definition forget {A : Type} (c : call A) : call unit :=
  mkCall (lockKey c) (operation c ;;; Ret tt).

(** The tasks that are past the wait for a slot and not yet settled. *)
Definition holders (slot : string) (σ : system) : list nat :=
  omap (fun it => match it.2 with
                  | Running k _ => if decide (k = slot) then Some it.1 else None
                  | _ => None
                  end) (imap pair (tasks σ)).

Definition outcomes (σ : system) : list (option (outcome unit)) :=
  (fun t => match t with Done r => Some r | _ => None end) <$> tasks σ.

(** Three calls on one key: a [set], a [set] with a tag, a [delete]. *)
Definition plainSet : call unit :=
  forget (TaggedKeyv.set new "k" (VNum 1) None None).

Definition taggedSet : call unit :=
  forget (TaggedKeyv.set new "k" (VNum 2) None (Some ["a"])).

Definition deletion : call unit :=
  forget (TaggedKeyv.delete new "k").

(** Calls made one after the other, each awaited before the next (the
    first that fails ends the sequence). *)
Definition inTurn (calls : list (call unit)) (s : gmap string value)
  : gmap string value :=
  (exec (forEach calls alone) s).2.

(** A [set] whose tag update fails, and a plain [set] of the same key. *)
Definition failingSet : call unit :=
  forget (TaggedKeyv.set faultyTagManager "k" (VNum 1) None (Some ["a"])).

(** Two calls on the slot [k]: where each of them stands, and what the
    slot holds then.  At most one is running, and the slot names it. *)
Definition takingTurns (k : string) (σ : system) : Prop :=
  match tasks σ with
  | [a; b] =>
      match a, b with
      | Issued ca, Issued cb =>
          lockKey ca = k /\ lockKey cb = k /\ locks σ !! k = None
      | Running ka _, Issued cb =>
          ka = k /\ lockKey cb = k /\ locks σ !! k = Some 0
      | Issued ca, Running kb _ =>
          lockKey ca = k /\ kb = k /\ locks σ !! k = Some 1
      | Running ka _, Waiting h cb =>
          ka = k /\ h = 0 /\ lockKey cb = k /\ locks σ !! k = Some 0
      | Waiting h ca, Running kb _ =>
          h = 1 /\ lockKey ca = k /\ kb = k /\ locks σ !! k = Some 1
      | Done _, Issued cb => lockKey cb = k /\ locks σ !! k = None
      | Issued ca, Done _ => lockKey ca = k /\ locks σ !! k = None
      | Done _, Waiting h cb =>
          h = 0 /\ lockKey cb = k /\ locks σ !! k = None
      | Waiting h ca, Done _ =>
          h = 1 /\ lockKey ca = k /\ locks σ !! k = None
      | Done _, Running kb _ => kb = k /\ locks σ !! k = Some 1
      | Running ka _, Done _ => ka = k /\ locks σ !! k = Some 0
      | Done _, Done _ => locks σ !! k = None
      | _, _ => False
      end
  | _ => False
  end.

(** The store after [deleteTag] took the tag off the KeyTagsRecord of a
    key. *)
Definition detagged (tag key : string) (s : gmap string value)
  : gmap string value :=
  match filter (fun t => t ≠ tag) (tagsOf s key) with
  | [] => delete (getKeyTagMapKey key) s
  | updated => <[getKeyTagMapKey key := ofStrings updated]> s
  end.

(** The store after [deleteTag], when the store reports no failure. *)
Definition tagDeleted (tag : string) (s : gmap string value) : gmap string value :=
  delete (getTagKey tag)
    (foldl (fun s' key => detagged tag key s') s (keysOf s tag)).

(** The store after [invalidateTag], when the store reports no failure. *)
Definition invalidated (tag : string) (s : gmap string value) : gmap string value :=
  match keysOf s tag with
  | [] => s
  | keys => tagDeleted tag (foldl (fun s' key => delete key s') s keys)
  end.

(** A key outside the two namespaces of the index. *)
Definition plain (key : string) : Prop :=
  stripPrefix TAG_PREFIX key = None /\ stripPrefix KEY_TAGS_PREFIX key = None.

(** The world after a line is written to the console. *)
Definition logged (line : string) (w : World) : World :=
  mkWorld (store w) (faults w) (console w ++ [line]).

(** The messages [invalidateTag] collects: for a key whose payload could not
    be deleted, and for the records of the tag. *)
Definition deleteFailure (key tag error : string) : string :=
  "Failed to delete key " +:+ quote +:+ key +:+ quote +:+ " for tag " +:+ quote
  +:+ tag +:+ quote +:+ ": " +:+ error.

Definition metadataFailure (tag error : string) : string :=
  "Failed to delete tag metadata for " +:+ quote +:+ tag +:+ quote +:+ ": "
  +:+ error.

(** The payloads of the keys deleted in turn, each from the world the one
    before left, whether it failed or not: the messages of the failures, in
    order, and the world at the end. *)
Fixpoint deletions (tag : string) (keys : list string) (w : World)
  : list string * World :=
  match keys with
  | [] => ([], w)
  | key :: rest =>
      let '(r, w1) := run (Keyv.delete key) w in
      let '(errors, w2) := deletions tag rest w1 in
      (match r with
       | Fulfilled _ => errors
       | Rejected e => deleteFailure key tag e :: errors
       end, w2)
  end.

(** The message [getByTag] collects for a key that could not be read. *)
Definition fetchFailure (key tag error : string) : string :=
  "Failed to get key " +:+ quote +:+ key +:+ quote +:+ " for tag " +:+ quote
  +:+ tag +:+ quote +:+ ": " +:+ error.

(** The keys read in turn, each from the world the one before left: the
    pairs of the keys that hold a value, the messages of the reads that
    failed, the number of keys that hold nothing, and the world at the
    end. *)
Fixpoint fetches (tag : string) (keys : list string) (w : World)
  : list (string * value) * list string * nat * World :=
  match keys with
  | [] => ([], [], 0, w)
  | key :: rest =>
      let '(r, w1) := run (Keyv.get key) w in
      let '(results, errors, deadKeys, w2) := fetches tag rest w1 in
      match r with
      | Fulfilled (Some val) => ((key, val) :: results, errors, deadKeys, w2)
      | Fulfilled None => (results, errors, S deadKeys, w2)
      | Rejected e => (results, fetchFailure key tag e :: errors, deadKeys, w2)
      end
  end.

(** Programs run in turn, each from the world the one before left, whether
    it was fulfilled or not: the messages of the failures, in order, and the
    world at the end. *)
Fixpoint attempts (ps : list (prog unit)) (w : World) : list string * World :=
  match ps with
  | [] => ([], w)
  | p :: rest =>
      let '(r, w1) := run p w in
      let '(errs, w2) := attempts rest w1 in
      (match r with Fulfilled _ => errs | Rejected e => e :: errs end, w2)
  end.

(** The call [setMany] makes for an entry. *)
Definition setCall (tm : TagManager.t)
    (entry : string * value * option (list string)) : prog unit :=
  alone (TaggedKeyv.set tm entry.1.1 entry.1.2 None entry.2).

(** The message of the error [invalidateTag] throws. *)
Definition invalidateFailure (tag error : string) : string :=
  "Failed to invalidate tag " +:+ quote +:+ tag +:+ quote +:+ ": " +:+ error.

(** Every key listed under a tag has the tag among its own, and is outside
    the namespaces of the index. *)
Definition listedAreRecorded (s : gmap string value) : Prop :=
  forall key tag, key ∈ keysOf s tag -> tag ∈ tagsOf s key /\ plain key.

(** Every tag of a key lists the key. *)
Definition recordedAreListed (s : gmap string value) : Prop :=
  forall key tag, tag ∈ tagsOf s key -> key ∈ keysOf s tag.

(** The store after [setMany], when the store reports no failure. *)
Definition afterSetMany (entries : list (string * value * option (list string)))
    (s : gmap string value) : gmap string value :=
  foldl (fun s' entry => afterSet entry.1.1 entry.1.2 (default [] entry.2) s')
    s entries.

(** A call of the cache that may write to the store. *)
Inductive cacheCall : Type :=
| CacheSet (key : string) (v : value) (arg3 : option TaggedKeyv.ttlOrOptions)
    (tags : option (list string))
| CacheSetMany (entries : list (string * value * option (list string)))
| CacheDelete (key : string)
| CacheInvalidateTag (tag : string)
| CacheInvalidateTags (tags : list string)
| CacheClear
| CacheGetByTag (tag : string) (options : option TaggedKeyv.pageOptions)
| CacheCompactTags (tags : option (list string)).

Definition cacheProg (c : cacheCall) : prog unit :=
  match c with
  | CacheSet key v arg3 tags => alone (TaggedKeyv.set new key v arg3 tags)
  | CacheSetMany entries => TaggedKeyv.setMany new entries
  | CacheDelete key => alone (TaggedKeyv.delete new key) ;;; Ret tt
  | CacheInvalidateTag tag => TaggedKeyv.invalidateTag new tag
  | CacheInvalidateTags tags => TaggedKeyv.invalidateTags new tags
  | CacheClear => TaggedKeyv.clear new
  | CacheGetByTag tag options => TaggedKeyv.getByTag new tag options ;;; Ret tt
  | CacheCompactTags tags => TaggedKeyv.compactTags new tags
  end.

(** The keys a call sets or deletes are outside the namespaces of the
    index. *)
Definition plainCall (c : cacheCall) : Prop :=
  match c with
  | CacheSet key _ _ _ => plain key
  | CacheSetMany entries => Forall (fun entry => plain entry.1.1) entries
  | CacheDelete key => plain key
  | _ => True
  end.

(** The calls that compact: they drop keys without a value from a
    TagKeysRecord, and leave the KeyTagsRecords as they are. *)
Definition compacts (c : cacheCall) : Prop :=
  match c with
  | CacheGetByTag _ _ => True
  | CacheCompactTags _ => True
  | _ => False
  end.

(** The value of the last entry of a key in the entries of [setMany]. *)
Definition lastValue (key : string)
    (entries : list (string * value * option (list string))) : option value :=
  last (omap (fun entry : string * value * option (list string) =>
                if decide (entry.1.1 = key) then Some entry.1.2 else None)
          entries).

(** Every key a program writes to, whatever the store reports, satisfies
    [P]. *)
Definition writesOnly {A : Type} (P : string -> Prop) (p : prog A) : Prop :=
  forall w, Forall P (writes p w).

(** The calls of the tag index that delete or replace records one by one:
    all but [clear], which empties the store, and [getAllTags], which the
    class does not define. *)
Definition recordwise (c : indexCall) : Prop :=
  match c with
  | CallClear => False
  | CallGetAllTags => False
  | _ => True
  end.

(** Two keys tagged [users], the second tagged [admins] too. *)
Definition twoUsersWorld : World :=
  after (alone (TaggedKeyv.set new "u2" (VNum 2) None (Some ["users"; "admins"])))
    (after (alone (TaggedKeyv.set new "u1" (VNum 1) None (Some ["users"])))
       emptyWorld).

(** A tagged key, and a store that fails at its next operation. *)
Definition failingOnceWorld : World :=
  mkWorld (store taggedOnceWorld) [Some "store down"] [].

(** Two calls settled as if made one after the other: the first ran from
    the store [s]; the second ran from the store the first left, or, when
    the first was rejected while the second was waiting for it, was rejected
    with the same error without running. *)
Definition inOrder (first second : call unit) (s : gmap string value)
    (rf rs : outcome unit) (final : gmap string value) : Prop :=
  exists s1,
    exec (operation first) s = (rf, s1) /\
    (exec (operation second) s1 = (rs, final) \/
     exists e, rf = Rejected e /\ rs = Rejected e /\ final = s1).

(** Two calls on one slot, issued on the store [s]: as far as they have
    got, the store is the one of a run of their operations one after the
    other. *)
Definition serial (c0 c1 : call unit) (s : gmap string value) (σ : system) : Prop :=
  match tasks σ with
  | [a; b] =>
      match a, b with
      | Issued ca, Issued cb => ca = c0 /\ cb = c1 /\ entries σ = s
      | Running _ p, Issued cb =>
          cb = c1 /\ exec p (entries σ) = exec (operation c0) s
      | Running _ p, Waiting _ cb =>
          cb = c1 /\ exec p (entries σ) = exec (operation c0) s
      | Issued ca, Running _ p =>
          ca = c0 /\ exec p (entries σ) = exec (operation c1) s
      | Waiting _ ca, Running _ p =>
          ca = c0 /\ exec p (entries σ) = exec (operation c1) s
      | Done r, Issued cb =>
          cb = c1 /\ exec (operation c0) s = (r, entries σ)
      | Done r, Waiting _ cb =>
          cb = c1 /\ exec (operation c0) s = (r, entries σ)
      | Issued ca, Done r =>
          ca = c0 /\ exec (operation c1) s = (r, entries σ)
      | Waiting _ ca, Done r =>
          ca = c0 /\ exec (operation c1) s = (r, entries σ)
      | Done r0, Running _ p =>
          exists s1, exec (operation c0) s = (r0, s1) /\
                     exec p (entries σ) = exec (operation c1) s1
      | Running _ p, Done r1 =>
          exists s1, exec (operation c1) s = (r1, s1) /\
                     exec p (entries σ) = exec (operation c0) s1
      | Done r0, Done r1 =>
          inOrder c0 c1 s r0 r1 (entries σ) \/ inOrder c1 c0 s r1 r0 (entries σ)
      | _, _ => False
      end
  | _ => False
  end.

End Vocabulary.


(** * Reasoning about programs *)

Section Semantics.

Context {A B : Type}.

Lemma run_bind (p : prog A) (f : A -> prog B) (w : World) :
  run (bind p f) w =
  match run p w with
  | (Fulfilled a, w') => run (f a) w'
  | (Rejected e, w') => (Rejected e, w')
  end.
Proof.
  revert w. induction p as [a|e|msg k IH|X o k IH]; intros w; simpl; auto.
  destruct (faults w) as [|[e|] fs]; simpl; auto;
    destruct (perform o (store w)); auto.
Qed.

Lemma run_tryCatch (p : prog A) (h : string -> prog A) (w : World) :
  run (tryCatch p h) w =
  match run p w with
  | (Fulfilled a, w') => (Fulfilled a, w')
  | (Rejected e, w') => run (h e) w'
  end.
Proof.
  revert w. induction p as [a|e|msg k IH|X o k IH]; intros w; simpl; auto.
  destruct (faults w) as [|[e|] fs]; simpl; auto;
    destruct (perform o (store w)); auto.
Qed.

Lemma exec_bind (p : prog A) (f : A -> prog B) (s : gmap string value) :
  exec (bind p f) s =
  match exec p s with
  | (Fulfilled a, s') => exec (f a) s'
  | (Rejected e, s') => (Rejected e, s')
  end.
Proof.
  revert s. induction p as [a|e|msg k IH|X o k IH]; intros s; simpl; auto.
  destruct (perform o s); auto.
Qed.

Lemma exec_tryCatch (p : prog A) (h : string -> prog A) (s : gmap string value) :
  exec (tryCatch p h) s =
  match exec p s with
  | (Fulfilled a, s') => (Fulfilled a, s')
  | (Rejected e, s') => exec (h e) s'
  end.
Proof.
  revert s. induction p as [a|e|msg k IH|X o k IH]; intros s; simpl; auto.
  destruct (perform o s); auto.
Qed.

End Semantics.

(** On a store that reports no failure, [run] is [exec]. *)
Lemma run_calm {A : Type} (p : prog A) (w : World) :
  faults w = [] ->
  exists c, run p w = ((exec p (store w)).1, mkWorld (exec p (store w)).2 [] c).
Proof.
  revert w. induction p as [a|e|msg k IH|X o k IH]; intros [s fs c] Hf;
    simpl in *; subst fs.
  - eauto.
  - eauto.
  - apply (IH (mkWorld s [] (c ++ [msg]))). reflexivity.
  - destruct (perform o s) as [x s']. apply (IH _ (mkWorld s' [] c)). reflexivity.
Qed.

(** The writes of a sequence are those of its first part, then those of
    the rest from where the first part left off. *)
Lemma writes_bind {A B : Type} (p : prog A) (f : A -> prog B) (w : World) :
  writes (bind p f) w =
  writes p w ++ match run p w with
                | (Fulfilled a, w') => writes (f a) w'
                | (Rejected _, _) => []
                end.
Proof.
  revert w. induction p as [a|e|msg k IH|X o k IH]; intros w; simpl.
  - done.
  - done.
  - apply IH.
  - rewrite <- app_assoc. f_equal.
    destruct (faults w) as [|[e|] fs]; [|apply IH|];
      destruct (perform o (store w)); apply IH.
Qed.

Lemma writes_get (key : string) (w : World) : writes (Keyv.get key) w = [].
Proof. unfold Keyv.get, await. simpl. by destruct (faults w) as [|[e|] fs]. Qed.

Lemma regular_Ret {A : Type} (a : A) : regular (Ret a).
Proof. intros w a' w' H. simpl in *. congruence. Qed.

Lemma regular_Throw {A : Type} (e : string) : regular (@Throw A e).
Proof. intros w a' w' H. simpl in *. congruence. Qed.

Lemma regular_await {X : Type} (o : storeOp X) : regular (await o).
Proof.
  intros [s fs c] a w' H. unfold await in *. simpl in *.
  destruct fs as [|[e|] fs]; simpl in *;
    try destruct (perform o s) as [x s']; simpl in *;
    inversion H; subst; reflexivity.
Qed.

Lemma regular_bind {A B : Type} (p : prog A) (f : A -> prog B) :
  regular p -> (forall a, regular (f a)) -> regular (bind p f).
Proof.
  intros Hp Hf w b w' H. rewrite run_bind in H. rewrite exec_bind.
  destruct (run p w) as [[a|e] w1] eqn:E; [|congruence].
  rewrite (Hp _ _ _ E). exact (Hf a _ _ _ H).
Qed.

(** A handler that only rethrows swallows nothing. *)
Lemma regular_rethrow {A : Type} (p : prog A) (msg : string -> string) :
  regular p -> regular (tryCatch p (fun e => Throw (msg e))).
Proof.
  intros Hp w a w' H. rewrite run_tryCatch in H. rewrite exec_tryCatch.
  destruct (run p w) as [[a'|e] w1] eqn:E; simpl in H; [|congruence].
  inversion H; subst. rewrite (Hp _ _ _ E). reflexivity.
Qed.

Lemma regular_forEach {A : Type} (l : list A) (body : A -> prog unit) :
  (forall x, regular (body x)) -> regular (forEach l body).
Proof.
  intros Hb. induction l as [|x l IH]; simpl.
  - apply regular_Ret.
  - apply regular_bind; auto.
Qed.

Lemma hoare_Ret {A : Type} (P : gmap string value -> Prop) (a : A)
    (Q : outcome A -> gmap string value -> Prop) :
  (forall s, P s -> Q (Fulfilled a) s) -> hoare P (Ret a) Q.
Proof. intros H w Hw. simpl. auto. Qed.

Lemma hoare_await {X : Type} (P : gmap string value -> Prop) (o : storeOp X)
    (Q : outcome X -> gmap string value -> Prop) :
  (forall s, P s ->
     (forall e, Q (Rejected e) s) /\ Q (Fulfilled (perform o s).1) (perform o s).2) ->
  hoare P (await o) Q.
Proof.
  intros H [s fs c] Hw. simpl in *. destruct (H s Hw) as [Hr Hf].
  destruct fs as [|[e|] fs]; simpl; auto;
    destruct (perform o s) as [x s']; simpl in *; auto.
Qed.

Lemma hoare_bind {A B : Type} (P : gmap string value -> Prop) (p : prog A)
    (f : A -> prog B) (R : A -> gmap string value -> Prop)
    (Q : outcome B -> gmap string value -> Prop) :
  hoare P p (fun r s => match r with
                        | Fulfilled a => R a s
                        | Rejected e => Q (Rejected e) s
                        end) ->
  (forall a, hoare (R a) (f a) Q) ->
  hoare P (bind p f) Q.
Proof.
  intros Hp Hf w Hw. rewrite run_bind. specialize (Hp w Hw).
  destruct (run p w) as [[a|e] w1]; simpl in *; auto.
  apply (Hf a w1 Hp).
Qed.

Lemma hoare_weaken {A : Type} (P P' : gmap string value -> Prop) (p : prog A)
    (Q Q' : outcome A -> gmap string value -> Prop) :
  hoare P p Q -> (forall s, P' s -> P s) -> (forall r s, Q r s -> Q' r s) ->
  hoare P' p Q'.
Proof. intros H HP HQ w Hw. apply HQ, H, HP, Hw. Qed.

Lemma hoare_forEach {A : Type} (I : gmap string value -> Prop) (l : list A)
    (body : A -> prog unit) :
  (forall x, x ∈ l -> hoare I (body x) (fun _ s => I s)) ->
  hoare I (forEach l body) (fun _ s => I s).
Proof.
  induction l as [|x l IH]; intros Hb.
  - apply hoare_Ret. auto.
  - simpl. apply hoare_bind with (R := fun _ s => I s).
    + eapply hoare_weaken; [apply (Hb x); left | auto |].
      intros [a|e] s; auto.
    + intros _. apply IH. intros y Hy. apply Hb. right. exact Hy.
Qed.

(** * The index records as read from a store *)

Section Records.

Import KeyvTagManager.

Lemma everyString_ofStrings (l : list string) : everyString (VStr <$> l) = Some l.
Proof.
  induction l as [|x l IH]; [done|].
  rewrite fmap_cons. cbn [everyString]. by rewrite IH.
Qed.

Lemma isStringArray_ofStrings (l : list string) :
  isStringArray (Some (ofStrings l)) = Some l.
Proof. apply everyString_ofStrings. Qed.

Lemma string_length_app (a b : string) :
  String.length (a +:+ b) = String.length a + String.length b.
Proof. induction a as [|c a IH]; simpl; [done|]. by rewrite IH. Qed.

Lemma getTagKey_inj (t1 t2 : string) : getTagKey t1 = getTagKey t2 -> t1 = t2.
Proof. unfold getTagKey. apply String.app_inj. Qed.

Lemma getKeyTagMapKey_inj (k1 k2 : string) :
  getKeyTagMapKey k1 = getKeyTagMapKey k2 -> k1 = k2.
Proof. unfold getKeyTagMapKey. apply String.app_inj. Qed.

(** The two families of records live under different keys. *)
Lemma getTagKey_getKeyTagMapKey (tag key : string) :
  getTagKey tag ≠ getKeyTagMapKey key.
Proof.
  cbv [getTagKey getKeyTagMapKey TAG_PREFIX KEY_TAGS_PREFIX String.append].
  congruence.
Qed.

(** The KeyTagsRecord of a key is never stored under the key itself. *)
Lemma getKeyTagMapKey_fresh (key : string) : getKeyTagMapKey key ≠ key.
Proof.
  intros H. apply (f_equal String.length) in H.
  unfold getKeyTagMapKey in H. rewrite string_length_app in H.
  simpl in H. lia.
Qed.

Lemma keysOf_insert_tagKey (s : gmap string value) (tag tag' : string)
    (l : list string) :
  keysOf (<[getTagKey tag := ofStrings l]> s) tag' =
  if decide (tag = tag') then l else keysOf s tag'.
Proof.
  unfold keysOf. destruct (decide (tag = tag')) as [->|Hne].
  - by rewrite lookup_insert_eq, isStringArray_ofStrings.
  - rewrite lookup_insert_ne; [done|]. intros H. by apply getTagKey_inj in H.
Qed.

Lemma keysOf_delete_tagKey (s : gmap string value) (tag tag' : string) :
  keysOf (delete (getTagKey tag) s) tag' =
  if decide (tag = tag') then [] else keysOf s tag'.
Proof.
  unfold keysOf. destruct (decide (tag = tag')) as [->|Hne].
  - by rewrite lookup_delete_eq.
  - rewrite lookup_delete_ne; [done|]. intros H. by apply getTagKey_inj in H.
Qed.

Lemma tagsOf_insert_tagMapKey (s : gmap string value) (key key' : string)
    (l : list string) :
  tagsOf (<[getKeyTagMapKey key := ofStrings l]> s) key' =
  if decide (key = key') then l else tagsOf s key'.
Proof.
  unfold tagsOf. destruct (decide (key = key')) as [->|Hne].
  - by rewrite lookup_insert_eq, isStringArray_ofStrings.
  - rewrite lookup_insert_ne; [done|]. intros H. by apply getKeyTagMapKey_inj in H.
Qed.

Lemma tagsOf_delete_tagMapKey (s : gmap string value) (key key' : string) :
  tagsOf (delete (getKeyTagMapKey key) s) key' =
  if decide (key = key') then [] else tagsOf s key'.
Proof.
  unfold tagsOf. destruct (decide (key = key')) as [->|Hne].
  - by rewrite lookup_delete_eq.
  - rewrite lookup_delete_ne; [done|]. intros H. by apply getKeyTagMapKey_inj in H.
Qed.

(** What the operations leave alone. *)
Lemma addedTo_other (key tag k : string) (s : gmap string value) :
  k ≠ getTagKey tag -> addedTo key tag s !! k = s !! k.
Proof.
  intros Hk. unfold addedTo. case_decide; [done|]. by rewrite lookup_insert_ne.
Qed.

Lemma removedFrom_other (key tag k : string) (s : gmap string value) :
  k ≠ getTagKey tag -> removedFrom key tag s !! k = s !! k.
Proof.
  intros Hk. unfold removedFrom.
  destruct (isStringArray (s !! getTagKey tag)) as [arr|]; [|done].
  destruct (filter _ arr); [by rewrite lookup_delete_ne|by rewrite lookup_insert_ne].
Qed.

Lemma foldl_addedTo_other (key k : string) (tags : list string)
    (s : gmap string value) :
  (forall tag, k ≠ getTagKey tag) ->
  foldl (fun s' tag => addedTo key tag s') s tags !! k = s !! k.
Proof.
  intros Hk. revert s. induction tags as [|t tags IH]; intros s; simpl; [done|].
  rewrite IH. by apply addedTo_other.
Qed.

Lemma foldl_removedFrom_other (key k : string) (tags : list string)
    (s : gmap string value) :
  (forall tag, k ≠ getTagKey tag) ->
  foldl (fun s' tag => removedFrom key tag s') s tags !! k = s !! k.
Proof.
  intros Hk. revert s. induction tags as [|t tags IH]; intros s; simpl; [done|].
  rewrite IH. by apply removedFrom_other.
Qed.

Lemma untagged_other (key k : string) (s : gmap string value) :
  (forall tag, k ≠ getTagKey tag) -> k ≠ getKeyTagMapKey key ->
  untagged key s !! k = s !! k.
Proof.
  intros Hk Hk'. unfold untagged.
  destruct (isStringArray (s !! getKeyTagMapKey key)) as [l|]; [|done].
  rewrite lookup_delete_ne by done. by apply foldl_removedFrom_other.
Qed.

Lemma retagged_other (key k : string) (tags : list string)
    (s : gmap string value) :
  (forall tag, k ≠ getTagKey tag) -> k ≠ getKeyTagMapKey key ->
  retagged key tags s !! k = s !! k.
Proof.
  intros Hk Hk'. unfold retagged. destruct tags as [|t tags].
  - rewrite lookup_delete_ne by done. by apply untagged_other.
  - rewrite foldl_addedTo_other by done. rewrite lookup_insert_ne by done.
    by apply untagged_other.
Qed.



Lemma tagsOf_removedFrom (key tag k : string) (s : gmap string value) :
  tagsOf (removedFrom key tag s) k = tagsOf s k.
Proof.
  unfold tagsOf. rewrite removedFrom_other; [done|].
  intros H. symmetry in H. by apply getTagKey_getKeyTagMapKey in H.
Qed.

Lemma tagsOf_addedTo (key tag k : string) (s : gmap string value) :
  tagsOf (addedTo key tag s) k = tagsOf s k.
Proof.
  unfold tagsOf. rewrite addedTo_other; [done|].
  intros H. symmetry in H. by apply getTagKey_getKeyTagMapKey in H.
Qed.

Lemma tagsOf_untagged (key : string) (s : gmap string value) :
  tagsOf (untagged key s) key = [].
Proof.
  unfold untagged.
  destruct (isStringArray (s !! getKeyTagMapKey key)) as [l|] eqn:E.
  - rewrite tagsOf_delete_tagMapKey. by rewrite decide_True.
  - unfold tagsOf. by rewrite E.
Qed.

Lemma tagsOf_foldl_addedTo (key k : string) (tags : list string)
    (s : gmap string value) :
  tagsOf (foldl (fun s' tag => addedTo key tag s') s tags) k = tagsOf s k.
Proof.
  revert s. induction tags as [|t tags IH]; intros s; simpl; [done|].
  rewrite IH. apply tagsOf_addedTo.
Qed.

Lemma tagsOf_retagged (key : string) (tags : list string) (s : gmap string value) :
  tagsOf (retagged key tags s) key = tags.
Proof.
  unfold retagged. destruct tags as [|t tags].
  - rewrite tagsOf_delete_tagMapKey. by rewrite decide_True.
  - rewrite tagsOf_foldl_addedTo, tagsOf_insert_tagMapKey. by rewrite decide_True.
Qed.

End Records.

(** * The operations on a store that reports no failure *)

Section Exec.

Import KeyvTagManager.

Lemma exec_get (key : string) (s : gmap string value) :
  exec (Keyv.get key) s = (Fulfilled (s !! key), s).
Proof. reflexivity. Qed.

Lemma exec_set (key : string) (v : value) (ttl : option Z) (s : gmap string value) :
  exec (Keyv.set key v ttl) s = (Fulfilled tt, <[key := v]> s).
Proof. reflexivity. Qed.

Lemma exec_delete (key : string) (s : gmap string value) :
  exec (Keyv.delete key) s = (Fulfilled (bool_decide (is_Some (s !! key))), delete key s).
Proof. reflexivity. Qed.

Lemma exec_forEach {A : Type} (l : list A) (body : A -> prog unit)
    (step : A -> gmap string value -> gmap string value) (s : gmap string value) :
  (forall x s', exec (body x) s' = (Fulfilled tt, step x s')) ->
  exec (forEach l body) s = (Fulfilled tt, foldl (fun s' x => step x s') s l).
Proof.
  intros Hb. revert s. induction l as [|x l IH]; intros s; simpl; [done|].
  rewrite exec_bind, Hb. apply IH.
Qed.

Lemma exec_addKeyToTag (key tag : string) (s : gmap string value) :
  exec (addKeyToTag key tag) s = (Fulfilled tt, addedTo key tag s).
Proof.
  unfold addKeyToTag, addedTo. rewrite exec_bind, exec_get. fold (keysOf s tag).
  by case_bool_decide; case_decide.
Qed.

Lemma exec_removeKeyFromTag (key tag : string) (s : gmap string value) :
  exec (removeKeyFromTag key tag) s = (Fulfilled tt, removedFrom key tag s).
Proof.
  unfold removeKeyFromTag, removedFrom. rewrite exec_bind, exec_get.
  destruct (isStringArray (s !! getTagKey tag)) as [arr|]; [|done].
  by destruct (filter _ arr) as [|x l].
Qed.

Lemma exec_getKeysForTag (tag : string) (s : gmap string value) :
  exec (getKeysForTag tag) s = (Fulfilled (keysOf s tag), s).
Proof.
  unfold getKeysForTag, keysOf. rewrite exec_bind, exec_get.
  by destruct (isStringArray _).
Qed.

Lemma exec_getTagsForKey (key : string) (s : gmap string value) :
  exec (getTagsForKey key) s = (Fulfilled (tagsOf s key), s).
Proof.
  unfold getTagsForKey, tagsOf. rewrite exec_bind, exec_get.
  by destruct (isStringArray _).
Qed.

Lemma exec_deleteKeyFromAllTags (key : string) (s : gmap string value) :
  exec (deleteKeyFromAllTags key) s = (Fulfilled tt, untagged key s).
Proof.
  unfold deleteKeyFromAllTags, untagged. rewrite exec_bind, exec_get.
  destruct (isStringArray (s !! getKeyTagMapKey key)) as [l|]; [|done].
  rewrite exec_bind.
  rewrite (exec_forEach l _ (fun tag s' => removedFrom key tag s'))
    by (intros; apply exec_removeKeyFromTag).
  by rewrite exec_bind, exec_delete.
Qed.

Lemma exec_setTagsForKey (key : string) (tags : list string) (s : gmap string value) :
  exec (setTagsForKey key tags) s = (Fulfilled tt, retagged key tags s).
Proof.
  unfold setTagsForKey, retagged. rewrite exec_bind, exec_deleteKeyFromAllTags.
  destruct tags as [|t tags]; [done|].
  cbn [length bool_decide decide_rel]. rewrite bool_decide_true by (simpl; lia).
  rewrite exec_bind, exec_set.
  apply (exec_forEach _ _ (fun tag s' => addedTo key tag s')).
  intros; apply exec_addKeyToTag.
Qed.

(** A handler that cannot be fulfilled swallows nothing. *)
Lemma regular_tryCatch_failing {A : Type} (p : prog A) (h : string -> prog A) :
  regular p ->
  (forall e w a w', run (h e) w ≠ (Fulfilled a, w')) ->
  regular (tryCatch p h).
Proof.
  intros Hp Hh w a w' H. rewrite run_tryCatch in H. rewrite exec_tryCatch.
  destruct (run p w) as [[a'|e] w1] eqn:E.
  - inversion H; subst. by rewrite (Hp _ _ _ E).
  - by apply Hh in H.
Qed.

Ltac regular_with leaf :=
  repeat first
    [ leaf
    | apply regular_Ret | apply regular_Throw | apply regular_await
    | apply regular_rethrow
    | apply regular_forEach; intros ?
    | apply regular_bind; [|intros ?]
    | case_bool_decide
    | match goal with
      | |- regular (match ?x with _ => _ end) => destruct x
      end ].

Lemma regular_addKeyToTag (key tag : string) : regular (addKeyToTag key tag).
Proof. unfold addKeyToTag, Keyv.get, Keyv.set. regular_with ltac:(fail). Qed.

Lemma regular_removeKeyFromTag (key tag : string) :
  regular (removeKeyFromTag key tag).
Proof.
  unfold removeKeyFromTag, Keyv.get, Keyv.set, Keyv.delete. regular_with ltac:(fail).
Qed.

Lemma regular_getKeysForTag (tag : string) : regular (getKeysForTag tag).
Proof. unfold getKeysForTag, Keyv.get. regular_with ltac:(fail). Qed.

Lemma regular_getTagsForKey (key : string) : regular (getTagsForKey key).
Proof. unfold getTagsForKey, Keyv.get. regular_with ltac:(fail). Qed.

Lemma regular_deleteKeyFromAllTags (key : string) :
  regular (deleteKeyFromAllTags key).
Proof.
  unfold deleteKeyFromAllTags, Keyv.get, Keyv.delete.
  regular_with ltac:(idtac; lazymatch goal with
                     | |- regular (removeKeyFromTag _ _) =>
                         apply regular_removeKeyFromTag
                     end).
Qed.

Lemma regular_setTagsForKey (key : string) (tags : list string) :
  regular (setTagsForKey key tags).
Proof.
  unfold setTagsForKey, Keyv.set, Keyv.delete.
  regular_with ltac:(idtac; lazymatch goal with
                     | |- regular (deleteKeyFromAllTags _) =>
                         apply regular_deleteKeyFromAllTags
                     | |- regular (addKeyToTag _ _) => apply regular_addKeyToTag
                     end).
Qed.

End Exec.

(** * TaggedKeyv over the default tag manager *)

(** Projections of the default tag manager. *)
Ltac default_manager :=
  cbn [KeyvTagManager.new TagManager.addKeyToTag TagManager.removeKeyFromTag
       TagManager.getKeysForTag TagManager.getTagsForKey
       TagManager.setTagsForKey TagManager.deleteTag
       TagManager.deleteKeyFromAllTags TagManager.clear TagManager.compact
       TagManager.getAllTags].

Ltac set_operation :=
  unfold alone, TaggedKeyv.set, TaggedKeyv.withLock;
  cbn [operation];
  match goal with
  | |- context [TaggedKeyv.parseArgs ?a ?t] =>
      destruct (TaggedKeyv.parseArgs a t) as [ttl finalTags]
  end;
  cbv beta iota zeta.

Section SetCall.

Import KeyvTagManager.

Lemma answer_exec {A : Type} (p : prog A) (w : World) :
  answer p w = (exec p (store w)).1.
Proof.
  unfold answer. destruct (run_calm p (settled w) eq_refl) as [c ->]. done.
Qed.

Lemma answer_get (key : string) (w : World) :
  answer (TaggedKeyv.get key) w = Fulfilled (store w !! key).
Proof. reflexivity. Qed.

Lemma answer_getTagsForKey (key : string) (w : World) :
  answer (TaggedKeyv.getTagsForKey new key) w = Fulfilled (tagsOf (store w) key).
Proof.
  rewrite answer_exec. unfold TaggedKeyv.getTagsForKey. default_manager.
  by rewrite exec_tryCatch, exec_getTagsForKey.
Qed.

Lemma answer_getKeysForTag (tag : string) (w : World) :
  answer (TagManager.getKeysForTag new tag) w = Fulfilled (keysOf (store w) tag).
Proof. rewrite answer_exec. default_manager. by rewrite exec_getKeysForTag. Qed.

Lemma exec_set_operation (key : string) (v : value)
    (arg3 : option TaggedKeyv.ttlOrOptions) (tags : option (list string))
    (s : gmap string value) :
  exec (alone (TaggedKeyv.set new key v arg3 tags)) s =
  (Fulfilled tt, afterSet key v (TaggedKeyv.parseArgs arg3 tags).2 s).
Proof.
  set_operation. rewrite exec_bind, exec_tryCatch, exec_set. simpl snd.
  destruct finalTags as [|t l]; [done|].
  cbn [length]. rewrite bool_decide_true by lia.
  default_manager. by rewrite exec_tryCatch, exec_setTagsForKey.
Qed.

Lemma cleanup_then_throw_fails (tm : TagManager.t) (key msg : string) (w : World)
    (a : unit) (w' : World) :
  run (TaggedKeyv.cleanupFailedSet tm key ;;; Throw msg) w ≠ (Fulfilled a, w').
Proof.
  rewrite run_bind. destruct (run _ w) as [[[]|e] w1]; simpl; congruence.
Qed.

Lemma regular_set_operation (key : string) (v : value)
    (arg3 : option TaggedKeyv.ttlOrOptions) (tags : option (list string)) :
  regular (alone (TaggedKeyv.set new key v arg3 tags)).
Proof.
  set_operation. apply regular_bind.
  - apply regular_rethrow, regular_await.
  - intros _. case_bool_decide; [|apply regular_Ret].
    apply regular_tryCatch_failing; [apply regular_setTagsForKey|].
    intros e w a w'. apply cleanup_then_throw_fails.
Qed.

(** A fulfilled [set] leaves the store of the run without failures. *)
Lemma set_fulfilled_store (key : string) (v : value)
    (arg3 : option TaggedKeyv.ttlOrOptions) (tags : option (list string))
    (w w' : World) :
  run (alone (TaggedKeyv.set new key v arg3 tags)) w = (Fulfilled tt, w') ->
  store w' = afterSet key v (TaggedKeyv.parseArgs arg3 tags).2 (store w).
Proof.
  intros H. apply regular_set_operation in H.
  rewrite exec_set_operation in H. congruence.
Qed.

End SetCall.

(** * Round trip and frame of [set] *)

Section SetTheorems.

Import KeyvTagManager.




(** A [set] without tags issues one write, to its key, whatever the store
    reports. *)
Lemma writes_untagged_set (key : string) (v : value)
    (arg3 : option TaggedKeyv.ttlOrOptions) (tagsArg : option (list string))
    (ttl : option Z) (w : World) :
  TaggedKeyv.parseArgs arg3 tagsArg = (ttl, []) ->
  writes (alone (TaggedKeyv.set new key v arg3 tagsArg)) w = [key].
Proof.
  intros Hargs. unfold alone, TaggedKeyv.set, TaggedKeyv.withLock.
  cbn [operation]. rewrite Hargs. unfold Keyv.set, await.
  cbn [tryCatch bind writes target perform app length].
  destruct (faults w) as [|[e|] fs]; reflexivity.
Qed.

(** C10, as stated, fails for a key that lies in one of the two index
    namespaces.  An untagged [set] of the key [__tag__:a], tagged [a]
    before, overwrites the TagKeysRecord of [a]: the key is no longer listed
    under its tag.  An untagged [set] of the key [__tags__:x] overwrites the
    KeyTagsRecord of [x]: the index is touched, and [x], tagged [a] before,
    has lost its tags. *)
Lemma untagged_set_touches_index :
  (let w1 := after (alone (TaggedKeyv.set new "__tag__:a" (VNum 1) None
                       (Some ["a"]))) emptyWorld in
   let r := run (alone (TaggedKeyv.set new "__tag__:a" (VNum 2) None None)) w1 in
   answer (TaggedKeyv.getTagsForKey new "__tag__:a") w1 = Fulfilled ["a"] /\
   answer (TagManager.getKeysForTag new "a") w1 = Fulfilled ["__tag__:a"] /\
   r.1 = Fulfilled tt /\
   answer (TaggedKeyv.getTagsForKey new "__tag__:a") r.2 = Fulfilled ["a"] /\
   answer (TagManager.getKeysForTag new "a") r.2 = Fulfilled []) /\
  (let w1 := after (alone (TaggedKeyv.set new "x" (VNum 1) None
                       (Some ["a"]))) emptyWorld in
   let r := run (alone (TaggedKeyv.set new "__tags__:x" (VNum 2) None None)) w1 in
   answer (TaggedKeyv.getTagsForKey new "x") w1 = Fulfilled ["a"] /\
   store w1 !! getKeyTagMapKey "x" = Some (ofStrings ["a"]) /\
   r.1 = Fulfilled tt /\
   store r.2 !! getKeyTagMapKey "x" = Some (VNum 2) /\
   answer (TaggedKeyv.getTagsForKey new "x") r.2 = Fulfilled [] /\
   answer (TagManager.getKeysForTag new "a") r.2 = Fulfilled ["x"]).
Proof. vm_compute. repeat split. Qed.

(** C10, amended.  For a key K outside the two index namespaces (K is
    neither [__tag__:] followed by a tag nor [__tags__:] followed by a key),
    a fulfilled [set(K, V)] whose tags are absent or empty (no
    time-to-live) overwrites the payload and never touches the tag index:
    the only key the call writes to is K, every other entry of the store,
    so every TagKeysRecord and every KeyTagsRecord, is as it was,
    [getTagsForKey] answers as before for every key, K among them, and
    [getKeysForTag] answers as before for every tag. *)
Theorem untagged_set_keeps_index (key : string) (v : value)
    (arg3 : option TaggedKeyv.ttlOrOptions) (tagsArg : option (list string))
    (w w' : World) :
  TaggedKeyv.parseArgs arg3 tagsArg = (None, []) ->
  (forall tag, key ≠ getTagKey tag) ->
  (forall k, key ≠ getKeyTagMapKey k) ->
  run (alone (TaggedKeyv.set new key v arg3 tagsArg)) w = (Fulfilled tt, w') ->
  answer (TaggedKeyv.get key) w' = Fulfilled (Some v) /\
  writes (alone (TaggedKeyv.set new key v arg3 tagsArg)) w = [key] /\
  (forall k, k ≠ key -> store w' !! k = store w !! k) /\
  (forall tag, store w' !! getTagKey tag = store w !! getTagKey tag) /\
  (forall k, store w' !! getKeyTagMapKey k = store w !! getKeyTagMapKey k) /\
  (forall k, answer (TaggedKeyv.getTagsForKey new k) w'
             = answer (TaggedKeyv.getTagsForKey new k) w) /\
  (forall tag, answer (TagManager.getKeysForTag new tag) w'
               = answer (TagManager.getKeysForTag new tag) w).
Proof.
  intros Hargs Htag Hkey Hrun.
  assert (writes (alone (TaggedKeyv.set new key v arg3 tagsArg)) w = [key])
    as Hwrites by (by apply (writes_untagged_set _ _ _ _ None)).
  apply set_fulfilled_store in Hrun.
  rewrite Hargs in Hrun. simpl in Hrun.
  repeat split.
  - by rewrite answer_get, Hrun, lookup_insert_eq.
  - exact Hwrites.
  - intros k Hk. by rewrite Hrun, lookup_insert_ne.
  - intros tag. by rewrite Hrun, lookup_insert_ne.
  - intros k. by rewrite Hrun, lookup_insert_ne.
  - intros k. rewrite !answer_getTagsForKey, Hrun. unfold tagsOf.
    by rewrite lookup_insert_ne.
  - intros tag. rewrite !answer_getKeysForTag, Hrun. unfold keysOf.
    by rewrite lookup_insert_ne.
Qed.

Lemma untagged_set_keeps_index_witness :
  answer (TaggedKeyv.get "user:1")
    (after (alone (TaggedKeyv.set new "user:1" (VNum 2) None None))
       taggedOnceWorld) = Fulfilled (Some (VNum 2)) /\
  answer (TaggedKeyv.getTagsForKey new "user:1")
    (after (alone (TaggedKeyv.set new "user:1" (VNum 2) None None))
       taggedOnceWorld) = Fulfilled ["users"] /\
  answer (TagManager.getKeysForTag new "users")
    (after (alone (TaggedKeyv.set new "user:1" (VNum 2) None None))
       taggedOnceWorld) = Fulfilled ["user:1"].
Proof.
  destruct (untagged_set_keeps_index "user:1" (VNum 2) None None taggedOnceWorld
              (after (alone (TaggedKeyv.set new "user:1" (VNum 2) None None))
                 taggedOnceWorld)) as (Hget & _ & _ & _ & _ & Htags & Hkeys).
  - reflexivity.
  - intros tag H. cbv [getTagKey TAG_PREFIX String.append] in H. discriminate H.
  - intros k H. cbv [getKeyTagMapKey KEY_TAGS_PREFIX String.append] in H.
    discriminate H.
  - vm_compute. reflexivity.
  - split; [exact Hget|]. rewrite Htags, Hkeys. vm_compute. split; reflexivity.
Defined.

End SetTheorems.

(** * Pages of [getByTag] *)

Section GetByTag.

Import KeyvTagManager.

Lemma slice_nil {A : Type} (a b : Z) : slice (@nil A) a b = [].
Proof. unfold slice. by rewrite drop_nil, take_nil. Qed.

(** From a non-negative start over a non-negative length, [slice] is the
    window of that length at that offset. *)
Lemma slice_window {A : Type} (l : list A) (offset limit : Z) :
  (0 ≤ offset)%Z -> (0 ≤ limit)%Z ->
  slice l offset (offset + limit) = take (Z.to_nat limit) (drop (Z.to_nat offset) l).
Proof.
  intros Ho Hl. unfold slice, relativeIndex.
  destruct (Z.ltb_spec offset 0); [lia|].
  destruct (Z.ltb_spec (offset + limit) 0); [lia|].
  destruct (decide (Z.of_nat (length l) ≤ offset)%Z) as [Hge|Hlt].
  - rewrite (Z.min_r offset) by lia.
    rewrite !drop_ge by lia. by rewrite !take_nil.
  - rewrite (Z.min_l offset) by lia.
    destruct (decide (offset + limit ≤ Z.of_nat (length l))%Z).
    + rewrite Z.min_l by lia. f_equal. lia.
    + rewrite Z.min_r by lia.
      rewrite (take_ge _ (Z.to_nat limit)) by (rewrite length_drop; lia).
      apply take_ge. rewrite length_drop. lia.
Qed.

Lemma exec_fetchLoop (tag : string) (keys : list string)
    (results : list (string * value)) (errors : list string) (deadKeys : nat)
    (s : gmap string value) :
  exec (TaggedKeyv.fetchLoop tag keys results errors deadKeys) s =
  (Fulfilled (results ++ entriesOf s keys, errors,
              deadKeys + length (filter (fun key => s !! key = None) keys)), s).
Proof.
  revert results deadKeys.
  induction keys as [|key keys IH]; intros results deadKeys.
  - simpl. by rewrite app_nil_r, Nat.add_0_r.
  - cbn [TaggedKeyv.fetchLoop].
    rewrite exec_bind, exec_tryCatch, exec_bind, exec_get. cbn [exec].
    unfold entriesOf. rewrite filter_cons. cbn [omap list_omap].
    destruct (s !! key) as [v|] eqn:E.
    + rewrite IH. rewrite decide_False by done. simpl. by rewrite <- app_assoc.
    + rewrite IH. rewrite decide_True by done. simpl.
      do 3 f_equal. lia.
Qed.

Lemma exec_reported (p : prog unit) (label : string) (s : gmap string value) :
  exists s', exec (tryCatch p (fun e => consoleError label e)) s = (Fulfilled tt, s').
Proof.
  rewrite exec_tryCatch. destruct (exec p s) as [[[]|e] s']; simpl; eauto.
Qed.

Lemma getByTag_slice (tag : string) (options : option TaggedKeyv.pageOptions)
    (w : World) :
  answer (TaggedKeyv.getByTag new tag options) w =
  Fulfilled (entriesOf (store w)
               (slice (keysOf (store w) tag) (offsetOf options)
                  (offsetOf options + limitOf options))).
Proof.
  rewrite answer_exec. unfold TaggedKeyv.getByTag. default_manager.
  rewrite exec_tryCatch, exec_bind, exec_getKeysForTag.
  assert (default 1%Z (TaggedKeyv.page (default (TaggedKeyv.mkPageOptions None None) options))
          = default 1%Z (options ≫= TaggedKeyv.page)) as -> by by destruct options.
  assert (default 50%Z (TaggedKeyv.limit (default (TaggedKeyv.mkPageOptions None None) options))
          = default 50%Z (options ≫= TaggedKeyv.limit)) as -> by by destruct options.
  fold (pageOf options). fold (limitOf options). fold (offsetOf options).
  set (keys := keysOf (store w) tag).
  case_bool_decide as Hk.
  { apply nil_length_inv in Hk. rewrite Hk. by rewrite slice_nil. }
  cbv zeta. set (page := slice keys _ _).
  case_bool_decide as Hp.
  { apply nil_length_inv in Hp. by rewrite Hp. }
  rewrite exec_bind, exec_fetchLoop. cbv beta iota. rewrite exec_bind.
  match goal with
  | |- context [exec (if ?b then tryCatch ?p ?h else Ret tt) ?s] =>
      assert (exists s', exec (if b then tryCatch p h else Ret tt) s = (Fulfilled tt, s'))
        as [s' ->] by (destruct b; [apply exec_reported|eauto])
  end.
  by rewrite exec_bind.
Qed.

(** C3, as stated, fails for a negative limit: [slice] counts a negative end
    from the end of the list, so page 1 with limit -1 returns the pairs of
    all keys but the last, where the claimed window, from offset 0 to
    offset -1, is empty. *)
Lemma getByTag_negative_limit :
  let s : gmap string value :=
    <[getTagKey "a" := ofStrings ["x"; "y"; "z"]]>
      (<["x" := VNum 1]> (<["y" := VNum 2]> (<["z" := VNum 3]> ∅))) in
  let options := Some (TaggedKeyv.mkPageOptions (Some 1%Z) (Some (-1)%Z)) in
  answer (TaggedKeyv.getByTag new "a" options) (mkWorld s [] [])
  = Fulfilled [("x", VNum 1); ("y", VNum 2)] /\
  entriesOf s (take (Z.to_nat (limitOf options))
                 (drop (Z.to_nat (offsetOf options)) (keysOf s "a"))) = [].
Proof. vm_compute. split; reflexivity. Qed.

(** C3, amended.  For every tag and integer options with a limit that is
    not negative (page 1 and limit 50 when left out), [getByTag], on a store
    that reports no failure, clamps the page to at least 1, takes the
    zero-based offset (page - 1) * limit, and returns the (key, value) pairs
    of the keys at positions offset to offset + limit (excluded) of the
    tag's key list that hold a value, in the order of the list; a tag with
    no keys and a page beyond the range give the empty list, fulfilled. *)
Theorem getByTag_page (tag : string) (options : option TaggedKeyv.pageOptions)
    (keys : list string) (w : World) :
  answer (TagManager.getKeysForTag new tag) w = Fulfilled keys ->
  (0 ≤ limitOf options)%Z ->
  (1 ≤ pageOf options)%Z /\
  answer (TaggedKeyv.getByTag new tag options) w
  = Fulfilled (entriesOf (store w)
                 (take (Z.to_nat (limitOf options))
                    (drop (Z.to_nat (offsetOf options)) keys))) /\
  (keys = [] -> answer (TaggedKeyv.getByTag new tag options) w = Fulfilled []) /\
  ((Z.of_nat (length keys) ≤ offsetOf options)%Z ->
   answer (TaggedKeyv.getByTag new tag options) w = Fulfilled []).
Proof.
  intros Hkeys Hlimit. rewrite answer_getKeysForTag in Hkeys.
  injection Hkeys as Hkeys.
  assert (1 ≤ pageOf options)%Z as Hpage by (unfold pageOf; lia).
  assert (0 ≤ offsetOf options)%Z as Hoffset by (unfold offsetOf; nia).
  rewrite getByTag_slice, Hkeys, slice_window by done.
  repeat split; [done|..].
  - intros ->. by rewrite drop_nil, take_nil.
  - intros Hbeyond. rewrite drop_ge by lia. by rewrite take_nil.
Qed.

Lemma getByTag_page_witness :
  answer (TaggedKeyv.getByTag new "users"
            (Some (TaggedKeyv.mkPageOptions (Some 2%Z) (Some 2%Z)))) pagedWorld
  = Fulfilled [("u3", VNum 3)].
Proof.
  destruct (getByTag_page "users"
              (Some (TaggedKeyv.mkPageOptions (Some 2%Z) (Some 2%Z)))
              ["u1"; "u2"; "u3"] pagedWorld) as (_ & H & _).
  - vm_compute. reflexivity.
  - vm_compute. discriminate.
  - rewrite H. vm_compute. reflexivity.
Defined.

End GetByTag.

(** * Compaction *)

Section Compact.

Import KeyvTagManager.

(** C4, as stated, fails for an explicit empty list: [compact([])] is
    fulfilled and does nothing; no list that is not empty is required. *)
Lemma compact_empty_list_fulfilled :
  run (compact (Some [])) emptyWorld = (Fulfilled tt, emptyWorld) /\
  run (TaggedKeyv.compactTags new (Some [])) emptyWorld = (Fulfilled tt, emptyWorld).
Proof. split; reflexivity. Qed.

(** C4, amended.  [compact] requires an explicit list of tags: called with
    the argument left out it throws the "not implemented" error, touching
    nothing, and [compactTags] rethrows it behind its own prefix; it never
    compacts all tags.  An explicit list may be empty: the call is then
    fulfilled and does nothing. *)
Theorem compact_requires_list (w : World) :
  run (compact None) w = (Rejected unimplemented, w) /\
  run (TaggedKeyv.compactTags new None) w
  = (Rejected ("Failed to compact tags: " +:+ unimplemented), w) /\
  run (compact (Some [])) w = (Fulfilled tt, w) /\
  run (TaggedKeyv.compactTags new (Some [])) w = (Fulfilled tt, w).
Proof. repeat split. Qed.

Lemma filter_length_eq {A : Type} (P : A -> Prop) `{!forall x, Decision (P x)}
    (l : list A) :
  length (filter P l) = length l -> filter P l = l.
Proof.
  induction l as [|x l IH]; [done|]. rewrite filter_cons.
  case_decide; simpl; intros Hlen.
  - f_equal. apply IH. lia.
  - pose proof (length_filter P l). lia.
Qed.

Lemma filter_all {A : Type} (P : A -> Prop) `{!forall x, Decision (P x)}
    (l : list A) :
  (forall x, P x) -> filter P l = l.
Proof.
  intros HP. induction l as [|x l IH]; [done|].
  rewrite filter_cons_True by done. by rewrite IH.
Qed.

Lemma dedupFirst_length (l : list string) : length (dedupFirst l) ≤ length l.
Proof.
  induction l as [|x l IH]; simpl; [done|].
  pose proof (length_filter (fun y => y ≠ x) (dedupFirst l)). lia.
Qed.

Lemma dedupFirst_length_eq (l : list string) :
  length (dedupFirst l) = length l -> dedupFirst l = l.
Proof.
  induction l as [|x l IH]; simpl; [done|]. intros H.
  pose proof (length_filter (fun y => y ≠ x) (dedupFirst l)).
  pose proof (dedupFirst_length l).
  rewrite filter_length_eq by lia. f_equal. apply IH. lia.
Qed.

Lemma dedupFirst_filter (P : string -> Prop) `{!forall x, Decision (P x)}
    (l : list string) :
  filter P (dedupFirst l) = dedupFirst (filter P l).
Proof.
  induction l as [|x l IH]; [done|]. simpl. rewrite !filter_cons.
  case_decide as HP; simpl.
  - f_equal. rewrite <- IH, !list_filter_filter.
    apply list_filter_iff. tauto.
  - rewrite <- IH. apply list_filter_filter_l. intros y Hy ->. done.
Qed.

Lemma dedupFirst_elem_of (x : string) (l : list string) :
  x ∈ dedupFirst l <-> x ∈ l.
Proof.
  induction l as [|y l IH]; simpl; [done|].
  rewrite !elem_of_cons, list_elem_of_filter, IH.
  destruct (decide (x = y)); tauto.
Qed.

Lemma dedupFirst_NoDup (l : list string) : NoDup (dedupFirst l).
Proof.
  induction l as [|x l IH]; simpl; [constructor|].
  apply NoDup_cons. split; [|by apply NoDup_filter].
  rewrite list_elem_of_filter. tauto.
Qed.

Lemma liveKeys_length_eq (s : gmap string value) (l : list string) :
  length (liveKeys s l) = length l <-> liveKeys s l = l.
Proof.
  split; [|by intros ->]. unfold liveKeys. intros H.
  pose proof (length_filter (fun key => is_Some (s !! key)) (dedupFirst l)).
  pose proof (dedupFirst_length l).
  rewrite filter_length_eq by lia. apply dedupFirst_length_eq. lia.
Qed.

Lemma exec_compactLoop (l : list string) (seen : gset string)
    (validKeys : list string) (s : gmap string value) :
  exec (compactLoop l seen validKeys) s =
  (Fulfilled (validKeys ++ liveKeys s (filter (fun key => key ∉ seen) l)), s).
Proof.
  revert seen validKeys.
  induction l as [|key l IH]; intros seen validKeys.
  - simpl. by rewrite app_nil_r.
  - cbn [compactLoop]. rewrite filter_cons. case_bool_decide as Hseen.
    + rewrite decide_False by (intros H; by apply H). apply IH.
    + rewrite decide_True by done. rewrite exec_bind, exec_get.
      unfold liveKeys. cbn [dedupFirst]. rewrite filter_cons.
      assert (filter (fun y => y ≠ key) (dedupFirst (filter (fun k => k ∉ seen) l))
              = dedupFirst (filter (fun k => k ∉ {[key]} ∪ seen) l)) as ->.
      { rewrite dedupFirst_filter, list_filter_filter. f_equal.
        apply list_filter_iff. intros x.
        rewrite not_elem_of_union, not_elem_of_singleton. tauto. }
      destruct (s !! key) as [v|] eqn:E.
      * rewrite IH. rewrite decide_True by (by eexists).
        unfold liveKeys. by rewrite <- app_assoc.
      * rewrite IH. rewrite decide_False by (by intros [? ?]). done.
Qed.

Lemma exec_compactTag (tag : string) (s : gmap string value) :
  exec (compactTag tag) s = (Fulfilled tt, compacted tag s).
Proof.
  unfold compactTag, compacted. rewrite exec_bind, exec_get.
  destruct (isStringArray (s !! getTagKey tag)) as [l|]; [|done].
  rewrite exec_bind, exec_compactLoop. cbn [app].
  rewrite (filter_all (fun key => key ∉ (∅ : gset string)))
    by (intros x; apply not_elem_of_empty).
  cbv zeta. case_bool_decide as Hlen; case_decide as Heq.
  - by rewrite Heq in Hlen.
  - case_bool_decide as Hne; case_decide as Hnil; try done.
    + rewrite Hnil in Hne. simpl in Hne. lia.
    + destruct (liveKeys s l); [done|simpl in Hne; lia].
  - done.
  - exfalso. apply Heq, liveKeys_length_eq.
    destruct (decide (length (liveKeys s l) = length l)); [done|].
    by destruct Hlen.
Qed.

Lemma exec_compact (tags : list string) (s : gmap string value) :
  exec (compact (Some tags)) s
  = (Fulfilled tt, foldl (fun s' tag => compacted tag s') s tags).
Proof.
  unfold compact. apply (exec_forEach _ _ (fun tag s' => compacted tag s')).
  intros; apply exec_compactTag.
Qed.

Lemma writes_compactLoop (l : list string) (seen : gset string)
    (validKeys : list string) (w : World) :
  writes (compactLoop l seen validKeys) w = [].
Proof.
  revert seen validKeys w.
  induction l as [|key l IH]; intros seen validKeys w; [done|].
  cbn [compactLoop]. case_bool_decide; [apply IH|].
  rewrite writes_bind, writes_get. cbn [app].
  destruct (run (Keyv.get key) w) as [[[v|]|e] w']; [apply IH..|done].
Qed.

(** Nothing is written for a tag whose filtered list is the stored one. *)
Lemma writes_compactTag_unchanged (tag : string) (w : World) :
  faults w = [] ->
  liveKeys (store w) (keysOf (store w) tag) = keysOf (store w) tag ->
  writes (compactTag tag) w = [].
Proof.
  intros Hcalm Hsame. unfold compactTag. rewrite writes_bind, writes_get. cbn [app].
  destruct (run_calm (Keyv.get (getTagKey tag)) w Hcalm) as [c ->].
  rewrite exec_get. cbn [fst snd]. unfold keysOf in Hsame.
  destruct (isStringArray (store w !! getTagKey tag)) as [l|]; [|done].
  simpl in Hsame.
  rewrite writes_bind, writes_compactLoop. cbn [app].
  destruct (run_calm (compactLoop l ∅ []) (mkWorld (store w) [] c) eq_refl) as [c' ->].
  cbn [store]. rewrite exec_compactLoop. cbn [fst snd app].
  rewrite (filter_all (fun key => key ∉ (∅ : gset string)))
    by (intros x; apply not_elem_of_empty).
  rewrite Hsame. by rewrite bool_decide_false by (intros H; by apply H).
Qed.

(** C5, as stated, fails for a record that holds an empty list: the
    filtered list is empty, yet nothing changed, so the record is not
    deleted. *)
Lemma compact_keeps_empty_record :
  let s : gmap string value := {[getTagKey "x" := ofStrings []]} in
  liveKeys s [] = [] /\
  run (compact (Some ["x"])) (mkWorld s [] []) = (Fulfilled tt, mkWorld s [] []) /\
  s !! getTagKey "x" = Some (VArr []).
Proof. vm_compute. repeat split. Qed.

(** C5, amended.  On a store that reports no failure, [compact] takes the
    tags of its list in turn; for each, the key list of the tag is
    deduplicated keeping the first occurrence of each key, and the keys that
    hold no value in the store are dropped; the filtered list is persisted
    only if it differs from the stored one (no write is issued for a tag
    whose filtered list is the stored one), and in that case the record is
    deleted when the filtered list is empty.  (A stored list that is already
    empty is left as it is.)  The filtered list has no duplicates and holds
    the keys of the stored list that hold a value. *)
Theorem compact_filters_each_tag (tags : list string) (s : gmap string value)
    (c : list string) :
  (run (compact (Some tags)) (mkWorld s [] c)).1 = Fulfilled tt /\
  store (run (compact (Some tags)) (mkWorld s [] c)).2
  = foldl (fun s' tag => compacted tag s') s tags /\
  (forall tag, liveKeys s (keysOf s tag) = keysOf s tag ->
               writes (compactTag tag) (mkWorld s [] c) = []) /\
  (forall l, NoDup (liveKeys s l) /\
             forall key, key ∈ liveKeys s l <-> key ∈ l /\ is_Some (s !! key)).
Proof.
  destruct (run_calm (compact (Some tags)) (mkWorld s [] c) eq_refl) as [c' ->].
  cbn [fst snd store]. rewrite exec_compact.
  split; [done|]. split; [done|]. split.
  - intros tag Hsame. by apply writes_compactTag_unchanged.
  - intros l. split.
    + apply NoDup_filter, dedupFirst_NoDup.
    + intros key. unfold liveKeys.
      rewrite list_elem_of_filter, dedupFirst_elem_of. tauto.
Qed.

End Compact.

(** * Idempotence of [addKeyToTag] *)

Section AddKeyToTag.

Import KeyvTagManager.

Lemma keysOf_addedTo (key tag : string) (s : gmap string value) :
  keysOf (addedTo key tag s) tag =
  if decide (key ∈ keysOf s tag) then keysOf s tag else keysOf s tag ++ [key].
Proof.
  unfold addedTo. case_decide; [done|].
  rewrite keysOf_insert_tagKey. by rewrite decide_True.
Qed.

Lemma addedTo_elem_of (key tag : string) (s : gmap string value) :
  key ∈ keysOf (addedTo key tag s) tag.
Proof.
  rewrite keysOf_addedTo. case_decide; [done|].
  apply elem_of_app. right. by apply list_elem_of_singleton.
Qed.

Lemma addedTo_present (key tag : string) (s : gmap string value) :
  key ∈ keysOf s tag -> addedTo key tag s = s.
Proof. intros H. unfold addedTo. by rewrite decide_True. Qed.

Lemma addedTo_idempotent (key tag : string) (s : gmap string value) :
  addedTo key tag (addedTo key tag s) = addedTo key tag s.
Proof. apply addedTo_present, addedTo_elem_of. Qed.

Lemma occurrences_absent (key : string) (l : list string) :
  key ∉ l -> occurrences key l = 0.
Proof.
  intros H. unfold occurrences. induction l as [|x l IH]; [done|].
  apply not_elem_of_cons in H as [Hx Hl].
  rewrite filter_cons_False by congruence. by apply IH.
Qed.

Lemma occurrences_addedTo (key tag : string) (s : gmap string value) :
  occurrences key (keysOf (addedTo key tag s) tag)
  = Nat.max 1 (occurrences key (keysOf s tag)).
Proof.
  rewrite keysOf_addedTo. case_decide as Hin.
  - assert (0 < occurrences key (keysOf s tag)); [|lia].
    unfold occurrences. destruct (filter _ _) eqn:E; [|simpl; lia].
    by apply (filter_nil_not_elem_of _ _ key) in E.
  - unfold occurrences. rewrite filter_app, length_app.
    fold (occurrences key (keysOf s tag)). rewrite occurrences_absent by done.
    by rewrite filter_cons_True.
Qed.

Lemma exec_times_addKeyToTag (key tag : string) (n : nat) (s : gmap string value) :
  exec (times (S n) (addKeyToTag key tag)) s = (Fulfilled tt, addedTo key tag s).
Proof.
  revert s. induction n as [|n IH]; intros s.
  - cbn [times]. by rewrite exec_bind, exec_addKeyToTag.
  - change (times (S (S n)) (addKeyToTag key tag))
      with (addKeyToTag key tag ;;; times (S n) (addKeyToTag key tag)).
    by rewrite exec_bind, exec_addKeyToTag, IH, addedTo_idempotent.
Qed.

(** A call made when the key is in the record issues no write, whatever
    the store reports. *)
Lemma writes_addKeyToTag_present (key tag : string) (w : World) :
  key ∈ keysOf (store w) tag -> writes (addKeyToTag key tag) w = [].
Proof.
  intros Hin. unfold addKeyToTag, Keyv.get, await, keysOf in *.
  cbn [bind writes target perform app].
  destruct (faults w) as [|[e|] fs]; [|done|].
  - cbn [bind]. by rewrite bool_decide_true.
  - cbn [bind]. by rewrite bool_decide_true.
Qed.

(** C6, as stated, fails when the record already holds the key twice (a
    record written past the index): the calls append nothing, and the key
    still stands twice. *)
Lemma addKeyToTag_keeps_duplicates :
  let w := mkWorld {[getTagKey "t" := ofStrings ["k"; "k"]]} [] [] in
  let r := run (times 2 (addKeyToTag "k" "t")) w in
  r.1 = Fulfilled tt /\
  answer (TagManager.getKeysForTag new "t") r.2 = Fulfilled ["k"; "k"].
Proof. vm_compute. split; reflexivity. Qed.

(** C6, amended.  [addKeyToTag] is idempotent: for every key K and tag T
    whose record holds K at most once (as every record written by the index
    does), calling [addKeyToTag(K, T)] once or more, on a store that reports
    no failure, leaves [getKeysForTag(T)] containing K exactly once; the
    store is the same after any number of calls as after the first, and a
    call made when K is already present writes nothing. *)
Theorem addKeyToTag_idempotent (key tag : string) (n : nat)
    (s : gmap string value) (c : list string) :
  occurrences key (keysOf s tag) ≤ 1 ->
  (run (times (S n) (addKeyToTag key tag)) (mkWorld s [] c)).1 = Fulfilled tt /\
  (exists l,
     answer (TagManager.getKeysForTag new tag)
       (after (times (S n) (addKeyToTag key tag)) (mkWorld s [] c)) = Fulfilled l /\
     occurrences key l = 1) /\
  store (after (times (S n) (addKeyToTag key tag)) (mkWorld s [] c))
  = store (after (addKeyToTag key tag) (mkWorld s [] c)) /\
  (key ∈ keysOf s tag ->
   writes (addKeyToTag key tag) (mkWorld s [] c) = [] /\
   store (after (addKeyToTag key tag) (mkWorld s [] c)) = s).
Proof.
  intros Hocc. unfold after.
  destruct (run_calm (times (S n) (addKeyToTag key tag)) (mkWorld s [] c) eq_refl)
    as [c1 ->].
  destruct (run_calm (addKeyToTag key tag) (mkWorld s [] c) eq_refl) as [c2 ->].
  cbn [fst snd store]. rewrite exec_times_addKeyToTag, exec_addKeyToTag.
  cbn [fst snd]. split; [done|]. split; [|split; [done|]].
  - exists (keysOf (addedTo key tag s) tag). split.
    + by rewrite answer_getKeysForTag.
    + rewrite occurrences_addedTo. lia.
  - intros Hin. split; [|by apply addedTo_present].
    by apply writes_addKeyToTag_present.
Qed.

Lemma addKeyToTag_idempotent_witness :
  (run (times 3 (addKeyToTag "user:1" "users"))
     (mkWorld {[getTagKey "users" := ofStrings ["user:0"]]} [] [])).1 = Fulfilled tt /\
  (exists l,
     answer (TagManager.getKeysForTag new "users")
       (after (times 3 (addKeyToTag "user:1" "users"))
          (mkWorld {[getTagKey "users" := ofStrings ["user:0"]]} [] [])) = Fulfilled l /\
     occurrences "user:1" l = 1).
Proof.
  destruct (addKeyToTag_idempotent "user:1" "users" 2
              {[getTagKey "users" := ofStrings ["user:0"]]} [])
    as (H1 & H2 & _).
  - vm_compute. lia.
  - split; [exact H1|exact H2].
Defined.

End AddKeyToTag.

(** * All tags *)

Section GetAllTags.

Import KeyvTagManager.

Lemma stripPrefix_Some (p s r : string) :
  stripPrefix p s = Some r <-> s = p +:+ r.
Proof.
  revert s. induction p as [|a p IH]; intros s.
  - simpl. change (EmptyString +:+ r) with r. split; congruence.
  - change (String a p +:+ r) with (String a (p +:+ r)).
    destruct s as [|b s]; simpl; [split; discriminate|].
    destruct (Ascii.eqb_spec a b) as [->|Hne].
    + rewrite IH. split; congruence.
    + split; [discriminate|congruence].
Qed.

(** C8.  [getAllTags] of TaggedKeyv on the default tag manager.  The class
    [KeyvTagManager] defines no [getAllTags], so the call is rejected with
    [Failed to get all tags: this.tagManager.getAllTags is not a function]
    in every state of the store, and the store, the failures it has yet to
    report and the console are left as they were.  In particular, after
    [set("k", 1, ["a"])] on an empty store the tag [a] lists [k], and
    [getAllTags] still returns no list. *)
Theorem getAllTags_is_not_a_function :
  (forall w,
     run (TaggedKeyv.getAllTags new) w =
     (Rejected "Failed to get all tags: this.tagManager.getAllTags is not a function",
      w)) /\
  answer (TagManager.getKeysForTag new "a")
    (after (alone (TaggedKeyv.set new "k" (VNum 1) None (Some ["a"]))) emptyWorld)
  = Fulfilled ["k"] /\
  forall tags,
    answer (TaggedKeyv.getAllTags new)
      (after (alone (TaggedKeyv.set new "k" (VNum 1) None (Some ["a"]))) emptyWorld)
    ≠ Fulfilled tags.
Proof.
  split; [|split].
  - intros [s fs out]. reflexivity.
  - vm_compute. reflexivity.
  - intros tags. vm_compute. discriminate.
Qed.

End GetAllTags.

(** * The records stay free of duplicates *)

Section Invariant.

Import KeyvTagManager.

(** An invariant of the store that every write of the index keeps: a write
    of a list without duplicates under the key of a tag, a write of an
    acceptable tag list under the key of a key, a deletion. *)
Variable I : gmap string value -> Prop.
Variable okTags : list string -> Prop.
Hypothesis I_delete : forall s k, I s -> I (delete k s).
Hypothesis I_tagKey : forall s tag l,
  I s -> NoDup l -> I (<[getTagKey tag := ofStrings l]> s).
Hypothesis I_tagMapKey : forall s key l,
  I s -> okTags l -> I (<[getKeyTagMapKey key := ofStrings l]> s).
Hypothesis I_keys : forall s tag, I s -> NoDup (keysOf s tag).
Hypothesis I_tags : forall s key, I s -> okTags (tagsOf s key).
Hypothesis okTags_filter : forall (P : string -> Prop) `{!forall x, Decision (P x)} l,
  okTags l -> okTags (filter P l).
Hypothesis I_empty : I ∅.

Abbreviation keeps p := (hoare I p (fun _ s => I s)).

Lemma hoare_get_bind {B : Type} (k : string) (f : option value -> prog B) :
  (forall v, hoare (fun s => I s /\ v = s !! k) (f v) (fun _ s => I s)) ->
  keeps (let* v := Keyv.get k in f v).
Proof.
  intros Hf. apply hoare_bind with (R := fun v s => I s /\ v = s !! k); [|done].
  apply hoare_await. intros s Hs. simpl. auto.
Qed.

Lemma hoare_set (P : gmap string value -> Prop) (k : string) (v : value)
    (ttl : option Z) :
  (forall s, P s -> I s /\ I (<[k := v]> s)) ->
  hoare P (Keyv.set k v ttl) (fun _ s => I s).
Proof. intros H. apply hoare_await. intros s Hs. simpl. split; intros; by apply H. Qed.

Lemma hoare_delete (P : gmap string value -> Prop) (k : string) :
  (forall s, P s -> I s) ->
  hoare P (Keyv.delete k ;;; Ret tt) (fun _ s => I s).
Proof.
  intros H. apply hoare_bind with (R := fun _ s => I s).
  - apply hoare_await. intros s Hs. simpl. split; intros; auto.
  - intros _. by apply hoare_Ret.
Qed.

Lemma keeps_seq {A B : Type} (p : prog A) (q : prog B) :
  keeps p -> keeps q -> keeps (p ;;; q).
Proof.
  intros Hp Hq. apply hoare_bind with (R := fun _ s => I s); [|done].
  eapply hoare_weaken; [apply Hp|done|]. by intros [a|e] s.
Qed.

Lemma keeps_addKeyToTag (key tag : string) : keeps (addKeyToTag key tag).
Proof.
  unfold addKeyToTag. apply hoare_get_bind. intros existing.
  case_bool_decide as Hin.
  - apply hoare_Ret. by intros s [Hs _].
  - apply hoare_set. intros s [Hs ->]. split; [done|].
    apply I_tagKey; [done|]. fold (keysOf s tag) in *.
    apply NoDup_app. split; [by apply I_keys|]. split; [|apply NoDup_singleton].
    intros x Hx ->%list_elem_of_singleton. done.
Qed.

Lemma keeps_removeKeyFromTag (key tag : string) : keeps (removeKeyFromTag key tag).
Proof.
  unfold removeKeyFromTag. apply hoare_get_bind. intros existing.
  destruct (isStringArray existing) as [arr|] eqn:E.
  - case_bool_decide.
    + apply hoare_set. intros s [Hs ->]. split; [done|].
      apply I_tagKey; [done|]. apply NoDup_filter.
      specialize (I_keys s tag Hs). unfold keysOf in I_keys. by rewrite E in I_keys.
    + apply hoare_delete. by intros s [Hs _].
  - apply hoare_Ret. by intros s [Hs _].
Qed.

Lemma keeps_getKeysForTag (tag : string) : keeps (getKeysForTag tag).
Proof.
  unfold getKeysForTag. apply hoare_get_bind. intros keys.
  destruct (isStringArray keys); apply hoare_Ret; by intros s [Hs _].
Qed.

Lemma keeps_deleteKeyFromAllTags (key : string) : keeps (deleteKeyFromAllTags key).
Proof.
  unfold deleteKeyFromAllTags. apply hoare_get_bind. intros tags.
  destruct (isStringArray tags) as [l|].
  - apply hoare_weaken with (P := I) (Q := fun _ s => I s); [|by intros s [? _]|done].
    apply keeps_seq; [|by apply hoare_delete].
    apply hoare_forEach. intros tag _. apply keeps_removeKeyFromTag.
  - apply hoare_Ret. by intros s [Hs _].
Qed.

Lemma keeps_setTagsForKey (key : string) (tags : list string) :
  okTags tags -> keeps (setTagsForKey key tags).
Proof.
  intros Hok. unfold setTagsForKey.
  apply keeps_seq; [apply keeps_deleteKeyFromAllTags|].
  case_bool_decide.
  - apply keeps_seq.
    + apply hoare_set. intros s Hs. split; [done|]. by apply I_tagMapKey.
    + apply hoare_forEach. intros tag _. apply keeps_addKeyToTag.
  - by apply hoare_delete.
Qed.

Lemma keeps_deleteTag (tag : string) : keeps (deleteTag tag).
Proof.
  unfold deleteTag. apply hoare_get_bind. intros keys.
  apply hoare_weaken with (P := I) (Q := fun _ s => I s); [|by intros s [? _]|done].
  apply keeps_seq; [|by apply hoare_delete].
  destruct (isStringArray keys) as [l|]; [|by apply hoare_Ret].
  apply hoare_forEach. intros key _. unfold getTagsForKey.
  apply hoare_bind with (R := fun keyTags s => I s /\ okTags keyTags).
  - apply hoare_bind
      with (R := fun v s => I s /\ v = s !! getKeyTagMapKey key).
    + apply hoare_await. intros s Hs. simpl. auto.
    + intros v. destruct (isStringArray v) as [ts|] eqn:E;
        apply hoare_Ret; intros s [Hs ->]; (split; [done|]);
        specialize (I_tags s key Hs); unfold tagsOf in I_tags;
        by rewrite E in I_tags.
  - intros keyTags. case_bool_decide.
    + apply hoare_set. intros s [Hs Hok]. split; [done|].
      apply I_tagMapKey; [done|]. by apply okTags_filter.
    + apply hoare_delete. by intros s [Hs _].
Qed.

Lemma keeps_clear : keeps clear.
Proof. apply hoare_await. intros s Hs. simpl. auto. Qed.

Lemma hoare_compactLoop (l : list string) (seen : gset string)
    (validKeys : list string) :
  NoDup validKeys -> (forall x, x ∈ validKeys -> x ∈ seen) ->
  hoare I (compactLoop l seen validKeys)
    (fun r s => I s /\ match r with Fulfilled keys => NoDup keys | Rejected _ => True end).
Proof.
  revert seen validKeys. induction l as [|key l IH]; intros seen validKeys Hnd Hseen.
  - apply hoare_Ret. auto.
  - cbn [compactLoop]. case_bool_decide as Hin; [by apply IH|].
    apply hoare_bind with (R := fun _ s => I s).
    + apply hoare_await. intros s Hs. simpl. auto.
    + intros [v|]; apply IH.
      * apply NoDup_app. split; [done|]. split; [|apply NoDup_singleton].
        intros x Hx ->%list_elem_of_singleton. by apply Hin, Hseen.
      * intros x [Hx| ->%list_elem_of_singleton]%elem_of_app; set_solver.
      * done.
      * set_solver.
Qed.

Lemma keeps_compactTag (tag : string) : keeps (compactTag tag).
Proof.
  unfold compactTag. apply hoare_get_bind. intros existing.
  destruct (isStringArray existing) as [l|].
  - apply hoare_bind with (R := fun keys s => I s /\ NoDup keys).
    + eapply hoare_weaken;
        [apply (hoare_compactLoop l ∅ []); [constructor|set_solver]
        |by intros s [? _]|].
      intros [keys|e] s; tauto.
    + intros validKeys. case_bool_decide.
      * case_bool_decide.
        -- apply hoare_set. intros s [Hs Hnd]. split; [done|]. by apply I_tagKey.
        -- apply hoare_delete. by intros s [Hs _].
      * apply hoare_Ret. by intros s [Hs _].
  - apply hoare_Ret. by intros s [Hs _].
Qed.

Lemma keeps_indexProg (c : indexCall) :
  match c with CallSetTagsForKey _ tags => okTags tags | _ => True end ->
  keeps (indexProg c).
Proof.
  destruct c as [key tag|key tag|tag|key|key tags|tag|key| |[l|]| ]; intros Hc;
    cbn [indexProg compact].
  - apply keeps_addKeyToTag.
  - apply keeps_removeKeyFromTag.
  - apply keeps_seq; [apply keeps_getKeysForTag|by apply hoare_Ret].
  - apply keeps_seq; [|by apply hoare_Ret].
    unfold getTagsForKey. apply hoare_get_bind. intros v.
    destruct (isStringArray v); apply hoare_Ret; by intros s [Hs _].
  - by apply keeps_setTagsForKey.
  - apply keeps_deleteTag.
  - apply keeps_deleteKeyFromAllTags.
  - apply keeps_clear.
  - apply hoare_forEach. intros tag _. apply keeps_compactTag.
  - intros w Hw. simpl. done.
  - intros w Hw. simpl. done.
Qed.

End Invariant.

Section DuplicateFree.

Import KeyvTagManager.

Lemma keysOf_delete (s : gmap string value) (k tag : string) :
  keysOf (delete k s) tag = if decide (k = getTagKey tag) then [] else keysOf s tag.
Proof.
  unfold keysOf. case_decide as H.
  - subst k. by rewrite lookup_delete_eq.
  - by rewrite lookup_delete_ne.
Qed.

Lemma tagsOf_delete (s : gmap string value) (k key : string) :
  tagsOf (delete k s) key
  = if decide (k = getKeyTagMapKey key) then [] else tagsOf s key.
Proof.
  unfold tagsOf. case_decide as H.
  - subst k. by rewrite lookup_delete_eq.
  - by rewrite lookup_delete_ne.
Qed.

Lemma keysOf_insert_tagMapKey (s : gmap string value) (key tag : string) (v : value) :
  keysOf (<[getKeyTagMapKey key := v]> s) tag = keysOf s tag.
Proof.
  unfold keysOf. rewrite lookup_insert_ne; [done|].
  intros H. symmetry in H. by apply getTagKey_getKeyTagMapKey in H.
Qed.

Lemma tagsOf_insert_tagKey (s : gmap string value) (key tag : string) (v : value) :
  tagsOf (<[getTagKey tag := v]> s) key = tagsOf s key.
Proof.
  unfold tagsOf. rewrite lookup_insert_ne; [done|]. apply getTagKey_getKeyTagMapKey.
Qed.

Lemma keysDuplicateFree_delete (s : gmap string value) (k : string) :
  keysDuplicateFree s -> keysDuplicateFree (delete k s).
Proof.
  intros H tag. rewrite keysOf_delete. case_decide; [constructor|apply H].
Qed.

Lemma tagsDuplicateFree_delete (s : gmap string value) (k : string) :
  tagsDuplicateFree s -> tagsDuplicateFree (delete k s).
Proof.
  intros H key. rewrite tagsOf_delete. case_decide; [constructor|apply H].
Qed.

Lemma keysDuplicateFree_tagKey (s : gmap string value) (tag : string)
    (l : list string) :
  keysDuplicateFree s -> NoDup l ->
  keysDuplicateFree (<[getTagKey tag := ofStrings l]> s).
Proof.
  intros H Hl tag'. rewrite keysOf_insert_tagKey. case_decide; [done|apply H].
Qed.

Lemma tagsDuplicateFree_tagMapKey (s : gmap string value) (key : string)
    (l : list string) :
  tagsDuplicateFree s -> NoDup l ->
  tagsDuplicateFree (<[getKeyTagMapKey key := ofStrings l]> s).
Proof.
  intros H Hl key'. rewrite tagsOf_insert_tagMapKey. case_decide; [done|apply H].
Qed.

Lemma duplicateFree_empty : duplicateFree ∅.
Proof. split; intros x; constructor. Qed.

(** The TagKeysRecords stay free of duplicates under every call. *)
Lemma keeps_keysDuplicateFree (c : indexCall) :
  hoare keysDuplicateFree (indexProg c) (fun _ s => keysDuplicateFree s).
Proof.
  apply (keeps_indexProg keysDuplicateFree (fun _ => True)).
  - apply keysDuplicateFree_delete.
  - apply keysDuplicateFree_tagKey.
  - intros s key l H _ tag. rewrite keysOf_insert_tagMapKey. apply H.
  - intros s tag H. apply H.
  - done.
  - done.
  - apply duplicateFree_empty.
  - by destruct c.
Qed.

(** Both families of records stay free of duplicates under every call that
    hands no duplicate tag to [setTagsForKey]. *)
Lemma keeps_duplicateFree (c : indexCall) :
  distinctTags c ->
  hoare duplicateFree (indexProg c) (fun _ s => duplicateFree s).
Proof.
  intros Hc. apply (keeps_indexProg duplicateFree (fun l => NoDup l)).
  - intros s k [Hk Ht]. split;
      [by apply keysDuplicateFree_delete|by apply tagsDuplicateFree_delete].
  - intros s tag l [Hk Ht] Hl. split; [by apply keysDuplicateFree_tagKey|].
    intros key. rewrite tagsOf_insert_tagKey. apply Ht.
  - intros s key l [Hk Ht] Hl. split; [|by apply tagsDuplicateFree_tagMapKey].
    intros tag. rewrite keysOf_insert_tagMapKey. apply Hk.
  - intros s tag [Hk _]. apply Hk.
  - intros s key [_ Ht]. apply Ht.
  - intros P ? l. apply NoDup_filter.
  - apply duplicateFree_empty.
  - by destruct c.
Qed.

(** C7, as stated, fails for a tag list with a duplicate: [setTagsForKey]
    stores the list it is given, and the tag stands twice in the
    KeyTagsRecord. *)
Lemma setTagsForKey_keeps_duplicate_tags :
  let r := run (setTagsForKey "k" ["a"; "a"]) emptyWorld in
  r.1 = Fulfilled tt /\
  answer (TaggedKeyv.getTagsForKey new "k") r.2 = Fulfilled ["a"; "a"] /\
  answer (TagManager.getKeysForTag new "a") r.2 = Fulfilled ["k"].
Proof. vm_compute. repeat split. Qed.

(** C7, amended.  From a store whose records hold no duplicate, every
    operation of the tag index, whatever its arguments and whether the store
    fails on the way or not, leaves a store where no key stands more than
    once in any TagKeysRecord; and, unless it is a [setTagsForKey] given a
    tag list with a duplicate (the list is stored as given), a store where
    no tag stands more than once in any KeyTagsRecord either. *)
Theorem index_keeps_records_duplicate_free (c : indexCall) (w : World) :
  duplicateFree (store w) ->
  keysDuplicateFree (store (after (indexProg c) w)) /\
  (distinctTags c -> duplicateFree (store (after (indexProg c) w))).
Proof.
  intros [Hk Ht]. split.
  - apply (keeps_keysDuplicateFree c w Hk).
  - intros Hc. by apply (keeps_duplicateFree c Hc w).
Qed.

Lemma index_keeps_records_duplicate_free_witness :
  keysDuplicateFree
    (store (after (indexProg (CallSetTagsForKey "k" ["a"; "a"])) emptyWorld)) /\
  duplicateFree
    (store (after (indexProg (CallSetTagsForKey "k" ["a"; "b"])) emptyWorld)).
Proof.
  split.
  - exact (proj1 (index_keeps_records_duplicate_free
                    (CallSetTagsForKey "k" ["a"; "a"]) emptyWorld
                    duplicateFree_empty)).
  - apply (proj2 (index_keeps_records_duplicate_free
                    (CallSetTagsForKey "k" ["a"; "b"]) emptyWorld
                    duplicateFree_empty)).
    simpl. apply (bool_decide_unpack _). vm_compute. exact I.
Defined.

End DuplicateFree.

(** * Retagging and deletion *)

Section Replace.

Import KeyvTagManager.

Lemma keysOf_removedFrom (key tag t : string) (s : gmap string value) :
  keysOf (removedFrom key tag s) t =
  if decide (tag = t) then filter (fun k => k ≠ key) (keysOf s t) else keysOf s t.
Proof.
  unfold removedFrom. case_decide as Ht.
  - subst t. unfold keysOf at 2.
    destruct (isStringArray (s !! getTagKey tag)) as [arr|] eqn:E.
    + simpl. destruct (filter (fun k => k ≠ key) arr) as [|x l] eqn:F.
      * rewrite keysOf_delete_tagKey. by rewrite decide_True.
      * rewrite keysOf_insert_tagKey. by rewrite decide_True.
    + simpl. unfold keysOf. by rewrite E.
  - destruct (isStringArray (s !! getTagKey tag)) as [arr|]; [|done].
    destruct (filter (fun k => k ≠ key) arr) as [|x l].
    + rewrite keysOf_delete_tagKey. by rewrite decide_False.
    + rewrite keysOf_insert_tagKey. by rewrite decide_False.
Qed.

Lemma elem_of_keysOf_foldl_removedFrom (key x t : string) (l : list string)
    (s : gmap string value) :
  x ∈ keysOf (foldl (fun s' tag => removedFrom key tag s') s l) t <->
  x ∈ keysOf s t /\ (t ∈ l -> x ≠ key).
Proof.
  revert s. induction l as [|tag l IH]; intros s; simpl.
  - split; [|tauto]. intros H. split; [done|]. by intros ?%elem_of_nil.
  - rewrite IH, keysOf_removedFrom, elem_of_cons. case_decide as Ht.
    + subst t. rewrite list_elem_of_filter. tauto.
    + split; [|tauto]. intros [H1 H2]. split; [done|]. intros [?|?]; [congruence|auto].
Qed.

Lemma elem_of_keysOf_untagged (key x t : string) (s : gmap string value) :
  x ∈ keysOf (untagged key s) t <->
  x ∈ keysOf s t /\ (t ∈ tagsOf s key -> x ≠ key).
Proof.
  unfold untagged, tagsOf.
  destruct (isStringArray (s !! getKeyTagMapKey key)) as [l|]; simpl.
  - rewrite keysOf_delete, decide_False by apply not_eq_sym, getTagKey_getKeyTagMapKey.
    apply elem_of_keysOf_foldl_removedFrom.
  - split; [|tauto]. intros H. split; [done|]. by intros ?%elem_of_nil.
Qed.

Lemma elem_of_keysOf_addedTo (key tag x t : string) (s : gmap string value) :
  x ∈ keysOf (addedTo key tag s) t <-> x ∈ keysOf s t \/ (x = key /\ t = tag).
Proof.
  destruct (decide (t = tag)) as [->|Ht].
  - rewrite keysOf_addedTo. case_decide as Hin.
    + split; [tauto|]. intros [?|[-> _]]; done.
    + rewrite elem_of_app, list_elem_of_singleton. tauto.
  - unfold keysOf at 1. rewrite addedTo_other.
    + fold (keysOf s t). tauto.
    + intros H%getTagKey_inj. done.
Qed.

Lemma elem_of_keysOf_foldl_addedTo (key x t : string) (l : list string)
    (s : gmap string value) :
  x ∈ keysOf (foldl (fun s' tag => addedTo key tag s') s l) t <->
  x ∈ keysOf s t \/ (x = key /\ t ∈ l).
Proof.
  revert s. induction l as [|tag l IH]; intros s; simpl.
  - split; [tauto|]. intros [?|[_ ?%elem_of_nil]]; done.
  - rewrite IH, elem_of_keysOf_addedTo, elem_of_cons. tauto.
Qed.

Lemma elem_of_keysOf_retagged (key x t : string) (tags : list string)
    (s : gmap string value) :
  x ∈ keysOf (retagged key tags s) t <->
  (x ∈ keysOf s t /\ (t ∈ tagsOf s key -> x ≠ key)) \/ (x = key /\ t ∈ tags).
Proof.
  unfold retagged. destruct tags as [|t0 tags].
  - rewrite keysOf_delete, decide_False by apply not_eq_sym, getTagKey_getKeyTagMapKey.
    rewrite elem_of_keysOf_untagged. split; [tauto|].
    intros [?|[_ ?%elem_of_nil]]; done.
  - rewrite elem_of_keysOf_foldl_addedTo, keysOf_insert_tagMapKey,
      elem_of_keysOf_untagged. tauto.
Qed.

(** X1.  Replacing the tags of a key is exclusive.  For a key that is not
    the index key of a tag and that is listed under no tag but those recorded
    for it, after a fulfilled [set(K, V, {tags: T})] with tags, K is listed
    under a tag exactly when the tag is in T, and the other keys are listed
    as before. *)
Theorem set_replaces_tags (key : string) (v : value) (tags : list string)
    (arg3 : option TaggedKeyv.ttlOrOptions) (tagsArg : option (list string))
    (ttl : option Z) (w w' : World) :
  TaggedKeyv.parseArgs arg3 tagsArg = (ttl, tags) ->
  tags ≠ [] ->
  (forall tag, key ≠ getTagKey tag) ->
  (forall tag, key ∈ keysOf (store w) tag -> tag ∈ tagsOf (store w) key) ->
  run (alone (TaggedKeyv.set new key v arg3 tagsArg)) w = (Fulfilled tt, w') ->
  forall tag keys,
    answer (TagManager.getKeysForTag new tag) w' = Fulfilled keys ->
    (key ∈ keys <-> tag ∈ tags) /\
    (forall k, k ≠ key -> k ∈ keys <-> k ∈ keysOf (store w) tag).
Proof.
  intros Hargs Hne Hkey Hcons Hrun tag keys Hkeys.
  apply set_fulfilled_store in Hrun. rewrite Hargs in Hrun. simpl in Hrun.
  rewrite answer_getKeysForTag in Hkeys. injection Hkeys as <-.
  rewrite Hrun. unfold afterSet. destruct tags as [|t0 tags]; [done|].
  assert (forall t, keysOf (<[key := v]> (store w)) t = keysOf (store w) t) as Hk.
  { intros t. unfold keysOf. by rewrite lookup_insert_ne. }
  assert (tagsOf (<[key := v]> (store w)) key = tagsOf (store w) key) as Ht.
  { unfold tagsOf. rewrite lookup_insert_ne; [done|].
    intros H. symmetry in H. by apply getKeyTagMapKey_fresh in H. }
  split.
  - rewrite elem_of_keysOf_retagged, Hk, Ht. split; [|tauto].
    intros [[Hin Hx]|[_ H]]; [|done]. exfalso. by apply Hx; [apply Hcons|].
  - intros k Hkne. rewrite elem_of_keysOf_retagged, Hk, Ht. tauto.
Qed.

Lemma set_replaces_tags_witness :
  ("user:1" ∈ ([] : list string) <-> "guests" ∈ ["users"; "active"]) /\
  ("user:1" ∈ ["user:1"] <-> "users" ∈ ["users"; "active"]).
Proof.
  assert (forall tag,
            "user:1" ∈ keysOf (store taggedOnceWorld) tag ->
            tag ∈ tagsOf (store taggedOnceWorld) "user:1") as Hcons.
  { intros tag. destruct (decide (tag = "users")) as [->|Hne].
    - intros _. vm_compute. apply list_elem_of_here.
    - assert (store taggedOnceWorld
              = <[getTagKey "users" := ofStrings ["user:1"]]>
                  (<[getKeyTagMapKey "user:1" := ofStrings ["users"]]>
                     (<["user:1" := VNum 1]> ∅))) as -> by (vm_compute; reflexivity).
      rewrite keysOf_insert_tagKey, decide_False by congruence.
      rewrite keysOf_insert_tagMapKey. unfold keysOf.
      rewrite lookup_insert_ne
        by (cbv [getTagKey TAG_PREFIX String.append]; discriminate).
      rewrite lookup_empty. simpl. by intros ?%elem_of_nil. }
  assert (forall tag, "user:1" ≠ getTagKey tag) as Hkey.
  { intros tag H. cbv [getTagKey TAG_PREFIX String.append] in H. discriminate H. }
  split.
  - apply (set_replaces_tags "user:1" (VNum 2) ["users"; "active"]
             (Some (TaggedKeyv.Options None (Some ["users"; "active"]))) None None
             taggedOnceWorld
             (after (alone (TaggedKeyv.set new "user:1" (VNum 2)
                       (Some (TaggedKeyv.Options None (Some ["users"; "active"])))
                       None)) taggedOnceWorld)
             eq_refl) with (tag := "guests");
      [discriminate|exact Hkey|exact Hcons|vm_compute; reflexivity
      |vm_compute; reflexivity].
  - apply (set_replaces_tags "user:1" (VNum 2) ["users"; "active"]
             (Some (TaggedKeyv.Options None (Some ["users"; "active"]))) None None
             taggedOnceWorld
             (after (alone (TaggedKeyv.set new "user:1" (VNum 2)
                       (Some (TaggedKeyv.Options None (Some ["users"; "active"])))
                       None)) taggedOnceWorld)
             eq_refl) with (tag := "users");
      [discriminate|exact Hkey|exact Hcons|vm_compute; reflexivity
      |vm_compute; reflexivity].
Defined.

Lemma exec_delete_operation (key : string) (s : gmap string value) :
  exec (alone (TaggedKeyv.delete new key)) s
  = (Fulfilled (bool_decide (is_Some (untagged key s !! key))),
     delete key (untagged key s)).
Proof.
  unfold alone, TaggedKeyv.delete, TaggedKeyv.withLock. cbn [operation].
  cbn [new TagManager.deleteKeyFromAllTags].
  rewrite exec_tryCatch, exec_bind, exec_tryCatch, exec_deleteKeyFromAllTags.
  cbn [fst snd]. by rewrite exec_bind, exec_delete.
Qed.

(** X2.  On a store that reports no failure, [delete(K)] is fulfilled and
    leaves K without payload and without tags, and listed under none of the
    tags that were recorded for it. *)
Theorem delete_removes_key (key : string) (s : gmap string value)
    (c : list string) :
  exists deleted w',
    run (alone (TaggedKeyv.delete new key)) (mkWorld s [] c) = (Fulfilled deleted, w') /\
    answer (TaggedKeyv.get key) w' = Fulfilled None /\
    answer (TaggedKeyv.getTagsForKey new key) w' = Fulfilled [] /\
    forall tag, tag ∈ tagsOf s key ->
      exists keys,
        answer (TagManager.getKeysForTag new tag) w' = Fulfilled keys /\ key ∉ keys.
Proof.
  destruct (run_calm (alone (TaggedKeyv.delete new key)) (mkWorld s [] c) eq_refl)
    as [c' ->].
  cbn [store]. rewrite exec_delete_operation. cbn [fst snd].
  eexists _, _. split; [reflexivity|].
  rewrite answer_get, answer_getTagsForKey. cbn [store]. split; [|split].
  - by rewrite lookup_delete_eq.
  - rewrite tagsOf_delete, decide_False by apply not_eq_sym, getKeyTagMapKey_fresh.
    by rewrite tagsOf_untagged.
  - intros tag Htag. eexists. rewrite answer_getKeysForTag. split; [reflexivity|].
    cbn [store]. rewrite keysOf_delete. case_decide; [apply not_elem_of_nil|].
    rewrite elem_of_keysOf_untagged. intros [_ Hself]. by apply Hself.
Qed.

End Replace.

(** * Cleanup after a failed tag update *)

Section Cleanup.

Import KeyvTagManager.
















End Cleanup.

(** * Calls in flight at the same time *)

Section Scheduling.

Import KeyvTagManager.

(** A running task, given turn after turn, ends as the run of its operation
    without failures does, and frees the slot. *)
Lemma advance_to_the_end (i : nat) (slot : string) (rest : prog unit)
    (σ : system) :
  i < length (tasks σ) ->
  exists n,
    let σ' := schedule (replicate n i) (advance i slot rest σ) in
    entries σ' = (exec rest (entries σ)).2 /\
    tasks σ' = <[i := Done (exec rest (entries σ)).1]> (tasks σ) /\
    locks σ' = delete slot (locks σ).
Proof.
  revert σ. induction rest as [[]|e|msg k IH|X o k IH]; intros σ Hi.
  - by exists 0.
  - by exists 0.
  - destruct (IH (mkSystem (entries σ) (locks σ) (tasks σ) (errors σ ++ [msg])) Hi)
      as [n Hn]. by exists n.
  - cbn [advance exec]. destruct (perform o (entries σ)) as [x s] eqn:E.
    set (σ1 := mkSystem s (locks σ)
                 (<[i := Running slot (k (Fulfilled x))]> (tasks σ)) (errors σ)).
    destruct (IH (Fulfilled x) σ1) as [n Hn].
    { simpl. by rewrite length_insert. }
    exists (S n). cbn [replicate schedule foldl].
    assert (step i σ1 = advance i slot (k (Fulfilled x)) σ1) as ->.
    { unfold step. simpl. by rewrite list_lookup_insert_eq. }
    cbv zeta in Hn. unfold schedule in Hn. destruct Hn as (He & Ht & Hl).
    split; [done|]. split; [|done].
    rewrite Ht. simpl. by rewrite list_insert_insert_eq.
Qed.

(** X3.  A call made while no other is in flight goes as [alone] says: the
    scheduler, given enough turns, leaves the store and the outcome of the
    run of the operation, and an empty map of slots, whether the operation
    is fulfilled or rejected. *)
Lemma lone_call (c : call unit) (s : gmap string value) :
  exists n,
    let σ := schedule (replicate n 0) (issue s [c]) in
    entries σ = (exec (alone c) s).2 /\
    outcomes σ = [Some (exec (alone c) s).1] /\
    locks σ = ∅.
Proof.
  set (σ1 := enter 0 c (issue s [c])).
  destruct (advance_to_the_end 0 (lockKey c) (operation c) σ1)
    as [n Hn]; [simpl; lia|].
  exists (S (S n)). cbv zeta in *.
  assert (schedule (replicate (S (S n)) 0) (issue s [c])
          = schedule (replicate n 0)
              (advance 0 (lockKey c) (operation c) σ1)) as ->
    by reflexivity.
  destruct Hn as (He & Ht & Hl). split; [done|]. split.
  - unfold outcomes. by rewrite Ht.
  - rewrite Hl. simpl. by rewrite delete_insert_eq, delete_empty.
Qed.

Lemma advance_cases (i : nat) (k : string) (rest : prog unit) (σ : system) :
  (exists rest' s e,
     advance i k rest σ
     = mkSystem s (locks σ) (<[i := Running k rest']> (tasks σ)) e) \/
  (exists r e,
     advance i k rest σ
     = mkSystem (entries σ) (delete k (locks σ)) (<[i := Done r]> (tasks σ)) e).
Proof.
  revert σ. induction rest as [[]|e|msg p IH|X o p IH]; intros σ.
  - right. by eexists _, _.
  - right. by eexists _, _.
  - apply (IH (mkSystem (entries σ) (locks σ) (tasks σ) (errors σ ++ [msg]))).
  - left. cbn [advance]. destruct (perform o (entries σ)) as [x s]. by eexists _, _, _.
Qed.

Ltac turns_tac :=
  repeat match goal with
  | H : _ /\ _ |- _ => destruct H
  | H : False |- _ => destruct H
  end; subst; simpl in *;
  repeat match goal with
  | H : lockKey ?c = _ |- context [lockKey ?c] => rewrite H
  end;
  repeat match goal with
  | H : ?l !! ?k = _ |- context [?l !! ?k] => rewrite H
  end;
  unfold enter; simpl;
  repeat match goal with
  | H : lockKey ?c = _ |- context [lockKey ?c] => rewrite H
  end;
  rewrite ?lookup_insert_eq, ?lookup_delete_eq; repeat split; auto.

Lemma takingTurns_step (k : string) (i : nat) (σ : system) :
  takingTurns k σ -> takingTurns k (step i σ).
Proof.
  unfold takingTurns. destruct σ as [s l ts e]. cbn [tasks locks].
  destruct ts as [|a [|b [|c ts]]]; try done.
  destruct i as [|[|i]]; [| |by destruct a, b].
  - unfold step. cbn [tasks locks lookup list_lookup].
    destruct a as [ca|h ca|ka pa|ra].
    + destruct b as [cb|h cb|kb pb|rb]; intros H; turns_tac.
    + destruct b as [cb|h' cb|kb pb|[rb|rb]]; intros H; turns_tac.
    + match goal with
      | |- _ -> match tasks (advance ?i ?k' ?p ?σ) with _ => _ end =>
          destruct (advance_cases i k' p σ)
            as [(p' & s' & e' & ->)|(r & e' & ->)]
      end; destruct b as [cb|h' cb|kb pb|rb]; intros H; turns_tac.
    + destruct b; intros H; turns_tac.
  - unfold step. cbn [tasks locks lookup list_lookup].
    destruct b as [cb|h cb|kb pb|rb].
    + destruct a as [ca|h ca|ka pa|ra]; intros H; turns_tac.
    + destruct a as [ca|h' ca|ka pa|[ra|ra]]; intros H; turns_tac.
    + match goal with
      | |- _ -> match tasks (advance ?i ?k' ?p ?σ) with _ => _ end =>
          destruct (advance_cases i k' p σ)
            as [(p' & s' & e' & ->)|(r & e' & ->)]
      end; destruct a as [ca|h' ca|ka pa|ra]; intros H; turns_tac.
    + destruct a; intros H; turns_tac.
Qed.

Lemma takingTurns_schedule (k : string) (turns : list nat) (σ : system) :
  takingTurns k σ -> takingTurns k (schedule turns σ).
Proof.
  revert σ. induction turns as [|i turns IH]; intros σ H; [done|].
  apply IH. by apply takingTurns_step.
Qed.

Lemma takingTurns_holders (k : string) (σ : system) :
  takingTurns k σ -> length (holders k σ) ≤ 1.
Proof.
  unfold takingTurns, holders. destruct (tasks σ) as [|a [|b [|c ts]]]; try done.
  destruct a, b; simpl; try done; repeat case_decide; simpl; lia.
Qed.

(** X4.  Two calls on one key never run their operations at the same time,
    whatever the order of the turns. *)
Lemma two_calls_take_turns (c0 c1 : call unit) (s : gmap string value)
    (turns : list nat) :
  lockKey c0 = lockKey c1 ->
  length (holders (lockKey c0) (schedule turns (issue s [c0; c1]))) ≤ 1.
Proof.
  intros Hk. apply takingTurns_holders, takingTurns_schedule.
  unfold takingTurns. simpl. auto.
Qed.

Lemma two_calls_take_turns_witness :
  length (holders "lock:k" (schedule [0; 1; 0; 0; 1; 1] (issue ∅ [plainSet; deletion]))) ≤ 1.
Proof.
  apply (two_calls_take_turns plainSet deletion ∅ [0; 1; 0; 0; 1; 1]).
  reflexivity.
Defined.

(** C9.  The slot does not serialize three calls on one key.  The second
    and the third call both find the promise of the first in the slot and
    both await it; when it is fulfilled, each goes past the wait without a
    second look at the slot, so both are running at once.  With the turns
    taken one after the other, a [set] with a tag and a [delete] of the same
    key leave the key without payload and still tagged: the state of neither
    order of the two calls.  And when the first call fails, a second call
    waiting for it is rejected with the error of the first and never runs. *)
Theorem withLock_does_not_serialize :
  (let σ := schedule [0; 1; 2; 0; 0; 1; 2] (issue ∅ [plainSet; taggedSet; deletion]) in
   holders "lock:k" σ = [1; 2] /\
   let σ' := schedule [1; 2; 1; 2; 1; 2; 1; 1; 1] σ in
   outcomes σ' = [Some (Fulfilled tt); Some (Fulfilled tt); Some (Fulfilled tt)] /\
   entries σ' !! "k" = None /\
   tagsOf (entries σ') "k" = ["a"] /\
   keysOf (entries σ') "a" = ["k"] /\
   inTurn [plainSet; taggedSet; deletion] ∅ = ∅ /\
   inTurn [plainSet; deletion; taggedSet] ∅ !! "k" = Some (VNum 2)) /\
  (let σ := schedule [0; 1; 0; 0; 0; 1] (issue ∅ [failingSet; plainSet]) in
   outcomes σ = [Some (Rejected (tagFailure "k" "Tag manager error"));
                 Some (Rejected (tagFailure "k" "Tag manager error"))] /\
   entries σ !! "k" = None /\
   inTurn [plainSet] (inTurn [failingSet] ∅) !! "k" = Some (VNum 1)).
Proof. vm_compute. repeat split. Qed.

End Scheduling.

(** * Two calls on one key *)

Section Serial.

Import KeyvTagManager.

Lemma advance_exec (i : nat) (k : string) (rest : prog unit) (σ : system) :
  (exists rest' s' e,
     advance i k rest σ
     = mkSystem s' (locks σ) (<[i := Running k rest']> (tasks σ)) e /\
     exec rest' s' = exec rest (entries σ)) \/
  (exists r e,
     advance i k rest σ
     = mkSystem (entries σ) (delete k (locks σ)) (<[i := Done r]> (tasks σ)) e /\
     exec rest (entries σ) = (r, entries σ)).
Proof.
  revert σ. induction rest as [[]|e|msg p IH|X o p IH]; intros σ.
  - right. by eexists _, _.
  - right. by eexists _, _.
  - apply (IH (mkSystem (entries σ) (locks σ) (tasks σ) (errors σ ++ [msg]))).
  - left. cbn [advance exec]. destruct (perform o (entries σ)) as [x s].
    by eexists _, _, _.
Qed.

Ltac serial_tac :=
  repeat match goal with
  | H : _ /\ _ |- _ => destruct H
  | H : exists _, _ |- _ => destruct H
  | H : False |- _ => destruct H
  end; subst; simpl in *;
  repeat match goal with
  | H : lockKey ?c = _ |- context [lockKey ?c] => rewrite H
  end;
  repeat match goal with
  | H : ?l !! ?k = _ |- context [?l !! ?k] => rewrite H
  end;
  unfold enter; simpl;
  try solve
    [ repeat split; (done || congruence)
    | eexists; split; [eassumption|congruence]
    | left; unfold inOrder; eexists; (split; [eassumption|]);
      first [left; congruence|right; eexists; repeat split; congruence]
    | right; unfold inOrder; eexists; (split; [eassumption|]);
      first [left; congruence|right; eexists; repeat split; congruence] ].

Lemma serial_step (c0 c1 : call unit) (s : gmap string value) (k : string)
    (i : nat) (σ : system) :
  takingTurns k σ -> serial c0 c1 s σ -> serial c0 c1 s (step i σ).
Proof.
  unfold takingTurns, serial. destruct σ as [st l ts e]. cbn [tasks locks entries].
  destruct ts as [|a [|b [|c ts]]]; try done.
  destruct i as [|[|i]]; [| |by destruct a, b].
  - unfold step. cbn [tasks locks lookup list_lookup].
    destruct a as [ca|h ca|ka pa|ra].
    + destruct b as [cb|h cb|kb pb|rb]; intros Ht H; serial_tac.
    + destruct b as [cb|h' cb|kb pb|[rb|rb]]; intros Ht H; serial_tac.
    + match goal with
      | |- _ -> _ -> match tasks (advance ?i ?k' ?p ?σ) with _ => _ end =>
          destruct (advance_exec i k' p σ)
            as [(p' & s' & e' & -> & Hex)|(r & e' & -> & Hex)]
      end; destruct b as [cb|h' cb|kb pb|rb]; intros Ht H; serial_tac.
    + destruct b; intros Ht H; serial_tac.
  - unfold step. cbn [tasks locks lookup list_lookup].
    destruct b as [cb|h cb|kb pb|rb].
    + destruct a as [ca|h ca|ka pa|ra]; intros Ht H; serial_tac.
    + destruct a as [ca|h' ca|ka pa|[ra|ra]]; intros Ht H; serial_tac.
    + match goal with
      | |- _ -> _ -> match tasks (advance ?i ?k' ?p ?σ) with _ => _ end =>
          destruct (advance_exec i k' p σ)
            as [(p' & s' & e' & -> & Hex)|(r & e' & -> & Hex)]
      end; destruct a as [ca|h' ca|ka pa|ra]; intros Ht H; serial_tac.
    + destruct a; intros Ht H; serial_tac.
Qed.

Lemma serial_schedule (c0 c1 : call unit) (s : gmap string value) (k : string)
    (turns : list nat) (σ : system) :
  takingTurns k σ -> serial c0 c1 s σ ->
  takingTurns k (schedule turns σ) /\ serial c0 c1 s (schedule turns σ).
Proof.
  revert σ. induction turns as [|i turns IH]; intros σ Ht Hs; [done|].
  apply IH; [by apply takingTurns_step|by apply (serial_step _ _ _ k)].
Qed.

(** X5.  Two calls on one key are serialized, whatever the order of the
    turns, on a store that reports no failure: once both are settled, their
    outcomes and the store are those of the two operations run one after
    the other, in one order or the other; but a call that waited for a call
    that was rejected is rejected with the same error and has not run. *)
Theorem two_calls_are_serial (c0 c1 : call unit) (s : gmap string value)
    (turns : list nat) (r0 r1 : outcome unit) :
  lockKey c0 = lockKey c1 ->
  outcomes (schedule turns (issue s [c0; c1])) = [Some r0; Some r1] ->
  inOrder c0 c1 s r0 r1 (entries (schedule turns (issue s [c0; c1]))) \/
  inOrder c1 c0 s r1 r0 (entries (schedule turns (issue s [c0; c1]))).
Proof.
  intros Hk Hout.
  destruct (serial_schedule c0 c1 s (lockKey c0) turns (issue s [c0; c1]))
    as [_ Hs].
  - unfold takingTurns. simpl. auto.
  - unfold serial. simpl. auto.
  - unfold serial in Hs. unfold outcomes in Hout.
    destruct (tasks (schedule turns (issue s [c0; c1]))) as [|a [|b [|c ts]]];
      try done.
    destruct a, b; try done. simpl in Hout. by injection Hout as -> ->.
Qed.

Lemma two_calls_are_serial_witness :
  inOrder plainSet deletion ∅ (Fulfilled tt) (Fulfilled tt)
    (entries (schedule [0; 1; 0; 0; 1; 1; 1; 1] (issue ∅ [plainSet; deletion]))) \/
  inOrder deletion plainSet ∅ (Fulfilled tt) (Fulfilled tt)
    (entries (schedule [0; 1; 0; 0; 1; 1; 1; 1] (issue ∅ [plainSet; deletion]))).
Proof.
  apply (two_calls_are_serial plainSet deletion ∅ [0; 1; 0; 0; 1; 1; 1; 1]).
  - reflexivity.
  - vm_compute. reflexivity.
Defined.

End Serial.

(** * Failures of the store *)

Section Failures.

Import KeyvTagManager.

Lemma run_deleteLoop (tag : string) (keys errors : list string) (w : World) :
  run (TaggedKeyv.deleteLoop tag keys errors) w =
  (Fulfilled (errors ++ (deletions tag keys w).1), (deletions tag keys w).2).
Proof.
  revert errors w. induction keys as [|key keys IH]; intros errors w.
  - simpl. by rewrite app_nil_r.
  - cbn [TaggedKeyv.deleteLoop deletions].
    rewrite run_bind, run_tryCatch, run_bind.
    destruct (run (Keyv.delete key) w) as [[deleted|e] w1];
      cbn [run]; rewrite IH;
      destruct (deletions tag keys w1) as [errs w2];
      cbn [fst snd]; [done|]. by rewrite <- app_assoc.
Qed.

(** X6.  [invalidateTag], with any tag manager and whatever the store
    reports, is rejected only when the key list of the tag cannot be read,
    and then nothing else is done.  Otherwise it is fulfilled: with an empty
    list nothing is done; with keys, the payload of every key is deleted in
    turn, whether the deletions before failed or not, then [deleteTag] is
    called, and the failures, those of the keys in order and then that of
    the records of the tag, are written to the console in one line, when
    there are any. *)
Theorem invalidateTag_fails_only_on_read (tm : TagManager.t) (tag : string)
    (w : World) :
  run (TaggedKeyv.invalidateTag tm tag) w =
  match run (TagManager.getKeysForTag tm tag) w with
  | (Rejected e, w1) => (Rejected (invalidateFailure tag e), w1)
  | (Fulfilled [], w1) => (Fulfilled tt, w1)
  | (Fulfilled keys, w1) =>
      let '(keyErrors, w2) := deletions tag keys w1 in
      let '(r, w3) := run (TagManager.deleteTag tm tag) w2 in
      let errors :=
        keyErrors ++ match r with
                     | Fulfilled _ => []
                     | Rejected e => [metadataFailure tag e]
                     end in
      (Fulfilled tt,
       match errors with
       | [] => w3
       | _ => logged (("Errors during invalidation of tag " +:+ quote +:+ tag
                       +:+ quote +:+ ":") +:+ " " +:+ join "," errors) w3
       end)
  end.
Proof.
  unfold TaggedKeyv.invalidateTag. rewrite run_tryCatch, run_bind.
  destruct (run (TagManager.getKeysForTag tm tag) w) as [[keys|e] w1]; [|done].
  destruct keys as [|key keys]; [done|].
  rewrite bool_decide_false by done.
  rewrite run_bind, run_deleteLoop. cbn [app].
  destruct (deletions tag (key :: keys) w1) as [keyErrors w2]. cbn [fst snd].
  rewrite run_bind, run_tryCatch, run_bind.
  destruct (run (TagManager.deleteTag tm tag) w2) as [[[]|e] w3]; cbn [run].
  - rewrite app_nil_r. destruct keyErrors as [|x l]; [done|].
    rewrite bool_decide_true by (simpl; lia). reflexivity.
  - rewrite bool_decide_true by (rewrite length_app; simpl; lia).
    fold (metadataFailure tag e).
    destruct (keyErrors ++ [metadataFailure tag e]) eqn:E; [|reflexivity].
    by apply app_eq_nil in E as [_ ?].
Qed.

Lemma run_fetchLoop (tag : string) (keys : list string)
    (results : list (string * value)) (errors : list string) (deadKeys : nat)
    (w : World) :
  run (TaggedKeyv.fetchLoop tag keys results errors deadKeys) w =
  let '(found, failures, dead, w') := fetches tag keys w in
  (Fulfilled (results ++ found, errors ++ failures, deadKeys + dead), w').
Proof.
  revert results errors deadKeys w.
  induction keys as [|key keys IH]; intros results errors deadKeys w.
  - simpl. by rewrite !app_nil_r, Nat.add_0_r.
  - cbn [TaggedKeyv.fetchLoop fetches].
    rewrite run_bind, run_tryCatch, run_bind.
    destruct (run (Keyv.get key) w) as [[[val|]|e] w1];
      cbn [run]; rewrite IH;
      destruct (fetches tag keys w1) as [[[found failures] dead] w2].
    + by rewrite <- app_assoc.
    + by rewrite Nat.add_succ_r.
    + by rewrite <- app_assoc.
Qed.

(** X7.  [getByTag], with any tag manager and whatever the store reports, is
    rejected only when the key list of the tag cannot be read.  Otherwise it
    is fulfilled: with an empty page it returns no entry and does nothing;
    else every key of the page is read in turn, the result holds the keys
    that have a value, in order, a key that cannot be read is left out and
    its failure collected, the tag is compacted when a key held nothing, a
    failure of the compaction is written to the console, and so are the
    collected failures, in one line, when there are any. *)
Theorem getByTag_fails_only_on_read (tm : TagManager.t) (tag : string)
    (options : option TaggedKeyv.pageOptions) (w : World) :
  run (TaggedKeyv.getByTag tm tag options) w =
  match run (TagManager.getKeysForTag tm tag) w with
  | (Rejected e, w1) =>
      (Rejected ("Failed to get entries for tag " +:+ quote +:+ tag +:+ quote
                 +:+ ": " +:+ e), w1)
  | (Fulfilled allKeys, w1) =>
      match slice allKeys (offsetOf options)
              (offsetOf options + limitOf options) with
      | [] => (Fulfilled [], w1)
      | keysToFetch =>
          let '(results, errors, deadKeys, w2) := fetches tag keysToFetch w1 in
          let w3 :=
            match deadKeys with
            | 0 => w2
            | S _ =>
                match run (TagManager.compact tm (Some [tag])) w2 with
                | (Fulfilled _, w3) => w3
                | (Rejected e, w3) =>
                    logged (("Failed to compact tag array for " +:+ quote +:+ tag
                             +:+ quote +:+ ":") +:+ " " +:+ e) w3
                end
            end in
          (Fulfilled results,
           match errors with
           | [] => w3
           | _ => logged (("Errors during getByTag for tag " +:+ quote +:+ tag
                           +:+ quote +:+ ":") +:+ " " +:+ join "," errors) w3
           end)
      end
  end.
Proof.
  unfold TaggedKeyv.getByTag. rewrite run_tryCatch, run_bind.
  destruct (run (TagManager.getKeysForTag tm tag) w) as [[allKeys|e] w1]; [|done].
  case_bool_decide as Hall.
  { apply length_zero_iff_nil in Hall. subst allKeys. by rewrite slice_nil. }
  cbv zeta.
  replace (slice allKeys _ _)
    with (slice allKeys (offsetOf options) (offsetOf options + limitOf options))
    by by destruct options as [[p l]|].
  destruct (slice allKeys (offsetOf options) (offsetOf options + limitOf options))
    as [|key keys]; [done|].
  rewrite bool_decide_false by done.
  rewrite run_bind, run_fetchLoop.
  destruct (fetches tag (key :: keys) w1) as [[[results errors] deadKeys] w2].
  cbn [app Nat.add]. rewrite !run_bind.
  destruct deadKeys as [|n].
  - rewrite bool_decide_false by lia. cbn [run].
    destruct errors as [|x l]; [done|].
    rewrite bool_decide_true by (simpl; lia). reflexivity.
  - rewrite bool_decide_true by lia. rewrite run_tryCatch.
    destruct (run (TagManager.compact tm (Some [tag])) w2) as [[[]|e] w3];
      cbn [run]; (destruct errors as [|x l];
                  [done|rewrite bool_decide_true by (simpl; lia); reflexivity]).
Qed.

Lemma run_invalidateLoop (tm : TagManager.t) (tags : list string)
    (errors : list string) (w : World) :
  run (TaggedKeyv.invalidateLoop tm tags errors) w =
  (Fulfilled (errors ++ (attempts (TaggedKeyv.invalidateTag tm <$> tags) w).1),
   (attempts (TaggedKeyv.invalidateTag tm <$> tags) w).2).
Proof.
  revert errors w. induction tags as [|tag tags IH]; intros errors w.
  - simpl. by rewrite app_nil_r.
  - cbn [TaggedKeyv.invalidateLoop fmap list_fmap attempts].
    rewrite run_bind, run_tryCatch, run_bind.
    destruct (run (TaggedKeyv.invalidateTag tm tag) w) as [[[]|e] w1];
      cbn [run]; rewrite IH;
      destruct (attempts (TaggedKeyv.invalidateTag tm <$> tags) w1) as [errs w2];
      cbn [fst snd]; [done|]. by rewrite <- app_assoc.
Qed.

(** X8.  [invalidateTags] tries every tag of its list, in order, whether the
    tags before failed or not; it is fulfilled when none failed, and
    otherwise rejected with the messages of the failures, joined. *)
Theorem invalidateTags_tries_every_tag (tm : TagManager.t) (tags : list string)
    (w : World) :
  run (TaggedKeyv.invalidateTags tm tags) w =
  (match (attempts (TaggedKeyv.invalidateTag tm <$> tags) w).1 with
   | [] => Fulfilled tt
   | errors => Rejected ("Failed to invalidate some tags: " +:+ join ", " errors)
   end,
   (attempts (TaggedKeyv.invalidateTag tm <$> tags) w).2).
Proof.
  unfold TaggedKeyv.invalidateTags. rewrite run_bind, run_invalidateLoop.
  cbn [app]. by destruct (attempts _ w) as [[|e errs] w2].
Qed.

Lemma run_setLoop (tm : TagManager.t)
    (entries : list (string * value * option (list string)))
    (errors : list string) (w : World) :
  run (TaggedKeyv.setLoop tm entries errors) w =
  (Fulfilled (errors ++ (attempts (setCall tm <$> entries) w).1),
   (attempts (setCall tm <$> entries) w).2).
Proof.
  revert errors w. induction entries as [|[[key v] tags] entries IH]; intros errors w.
  - simpl. by rewrite app_nil_r.
  - cbn [TaggedKeyv.setLoop fmap list_fmap attempts].
    rewrite run_bind, run_tryCatch, run_bind. unfold setCall at 1 3. cbn [fst snd].
    destruct (run (alone (TaggedKeyv.set tm key v None tags)) w) as [[[]|e] w1];
      cbn [run]; rewrite IH;
      destruct (attempts (setCall tm <$> entries) w1) as [errs w2];
      cbn [fst snd]; [done|]. by rewrite <- app_assoc.
Qed.

(** X9.  [setMany] tries every entry of its list, in order, whether the
    entries before failed or not; it is fulfilled when none failed, and
    otherwise rejected with the messages of the failures, joined. *)
Theorem setMany_tries_every_entry (tm : TagManager.t)
    (entries : list (string * value * option (list string))) (w : World) :
  run (TaggedKeyv.setMany tm entries) w =
  (match (attempts (setCall tm <$> entries) w).1 with
   | [] => Fulfilled tt
   | errors => Rejected ("Failed to set some entries: " +:+ join ", " errors)
   end,
   (attempts (setCall tm <$> entries) w).2).
Proof.
  unfold TaggedKeyv.setMany. rewrite run_bind, run_setLoop.
  cbn [app]. by destruct (attempts _ w) as [[|e errs] w2].
Qed.

(** X10.  A fulfilled [delete] leaves the key without payload, whatever the
    tag manager and whatever the store reported on the way: [get] returns
    nothing and [has] answers false. *)
Theorem delete_leaves_no_payload (tm : TagManager.t) (key : string)
    (w w' : World) (deleted : bool) :
  run (alone (TaggedKeyv.delete tm key)) w = (Fulfilled deleted, w') ->
  answer (TaggedKeyv.get key) w' = Fulfilled None /\
  answer (TaggedKeyv.has key) w' = Fulfilled false.
Proof.
  unfold alone, TaggedKeyv.delete, TaggedKeyv.withLock. cbn [operation].
  rewrite run_tryCatch, run_bind, run_tryCatch.
  assert (forall w1 : World,
            run (let* deleted := Keyv.delete key in Ret deleted) w1 = (Fulfilled deleted, w') ->
            store w' !! key = None) as Hdel.
  { intros [s1 f1 c1]. unfold Keyv.delete, await. simpl.
    destruct f1 as [|[e|] f1]; simpl; intros [= _ <-]; simpl;
      apply lookup_delete_eq. }
  intros H.
  assert (store w' !! key = None) as Hnone.
  { destruct (run (TagManager.deleteKeyFromAllTags tm key) w) as [[[]|e] w1].
    - destruct (run _ w1) as [[d|e] w2] eqn:E; [|done].
      injection H as -> ->. by apply (Hdel w1).
    - cbn [run consoleError] in H.
      destruct (run _ (mkWorld _ _ _)) as [[d|e'] w2] eqn:E; [|done].
      injection H as -> ->. by apply (Hdel _ E). }
  split.
  - by rewrite answer_get, Hnone.
  - rewrite answer_exec. unfold TaggedKeyv.has.
    rewrite exec_tryCatch, exec_bind, exec_get. cbn [exec fst]. by rewrite Hnone.
Qed.

Lemma delete_leaves_no_payload_witness :
  answer (TaggedKeyv.get "user:1")
    (after (alone (TaggedKeyv.delete new "user:1")) failingOnceWorld) = Fulfilled None /\
  answer (TaggedKeyv.has "user:1")
    (after (alone (TaggedKeyv.delete new "user:1")) failingOnceWorld) = Fulfilled false.
Proof.
  apply (delete_leaves_no_payload new "user:1" failingOnceWorld
           (after (alone (TaggedKeyv.delete new "user:1")) failingOnceWorld) true).
  vm_compute. reflexivity.
Defined.

(** X11.  A failure of the tag cleanup does not fail [delete]: it is logged,
    and the payload is deleted all the same. *)
Theorem delete_survives_cleanup_failure (tm : TagManager.t) (key : string)
    (w w1 : World) (e : string) (deleted : bool) :
  run (TagManager.deleteKeyFromAllTags tm key) w = (Rejected e, w1) ->
  (run (Keyv.delete key) w1).1 = Fulfilled deleted ->
  (run (alone (TaggedKeyv.delete tm key)) w).1 = Fulfilled deleted /\
  store (after (alone (TaggedKeyv.delete tm key)) w) = delete key (store w1) /\
  console (after (alone (TaggedKeyv.delete tm key)) w)
  = console w1 ++ ["Error during tag cleanup for key deletion: " +:+ e].
Proof.
  intros Hclean Hdel.
  unfold after, alone, TaggedKeyv.delete, TaggedKeyv.withLock. cbn [operation].
  rewrite run_tryCatch, run_bind, run_tryCatch, Hclean.
  cbn [run consoleError]. rewrite run_bind.
  destruct w1 as [s1 f1 c1]. unfold Keyv.delete, await in *. simpl in *.
  destruct f1 as [|[e'|] f1]; simpl in *; try discriminate Hdel;
    injection Hdel as <-; done.
Qed.

Lemma delete_survives_cleanup_failure_witness :
  (run (alone (TaggedKeyv.delete new "user:1")) failingOnceWorld).1 = Fulfilled true /\
  store (after (alone (TaggedKeyv.delete new "user:1")) failingOnceWorld)
  = delete "user:1" (store taggedOnceWorld) /\
  console (after (alone (TaggedKeyv.delete new "user:1")) failingOnceWorld)
  = ["Error during tag cleanup for key deletion: store down"].
Proof.
  apply (delete_survives_cleanup_failure new "user:1" failingOnceWorld
           (mkWorld (store taggedOnceWorld) [] []) "store down" true).
  - vm_compute. reflexivity.
  - vm_compute. reflexivity.
Defined.

(** X12.  The payload write of [set] comes first: when it fails, [set] is
    rejected with the message of the failed write, and nothing else was
    asked of the store or of the tag manager. *)
Theorem set_fails_before_index (tm : TagManager.t) (key : string) (v : value)
    (arg3 : option TaggedKeyv.ttlOrOptions) (tagsArg : option (list string))
    (w : World) (e : string) (fs : list (option string)) :
  faults w = Some e :: fs ->
  run (alone (TaggedKeyv.set tm key v arg3 tagsArg)) w
  = (Rejected ("Failed to set key " +:+ quote +:+ key +:+ quote +:+ ": " +:+ e),
     mkWorld (store w) fs (console w)) /\
  writes (alone (TaggedKeyv.set tm key v arg3 tagsArg)) w = [key].
Proof.
  intros Hf. unfold alone, TaggedKeyv.set, TaggedKeyv.withLock. cbn [operation].
  destruct (TaggedKeyv.parseArgs arg3 tagsArg) as [ttl finalTags].
  unfold Keyv.set, await. cbn [tryCatch bind run writes target]. by rewrite Hf.
Qed.

Lemma set_fails_before_index_witness :
  run (alone (TaggedKeyv.set new "user:1" (VNum 2) None (Some ["admins"])))
    failingOnceWorld
  = (Rejected ("Failed to set key " +:+ quote +:+ "user:1" +:+ quote +:+ ": "
               +:+ "store down"),
     mkWorld (store failingOnceWorld) [] (console failingOnceWorld)) /\
  writes (alone (TaggedKeyv.set new "user:1" (VNum 2) None (Some ["admins"])))
    failingOnceWorld = ["user:1"].
Proof.
  apply (set_fails_before_index new "user:1" (VNum 2) None (Some ["admins"])
           failingOnceWorld "store down" []).
  reflexivity.
Defined.

(** X13.  A fulfilled [clear] leaves an empty store: no payload, no tag. *)
Theorem clear_empties (w w' : World) :
  run (TaggedKeyv.clear new) w = (Fulfilled tt, w') ->
  (forall key, answer (TaggedKeyv.get key) w' = Fulfilled None) /\
  (forall key, answer (TaggedKeyv.getTagsForKey new key) w' = Fulfilled []) /\
  (forall tag, answer (TagManager.getKeysForTag new tag) w' = Fulfilled []).
Proof.
  intros H.
  assert (store w' = ∅) as Hempty.
  { unfold TaggedKeyv.clear in H. rewrite run_tryCatch, run_bind in H.
    cbn [new TagManager.clear] in H. unfold clear, Keyv.clear, await in H.
    destruct w as [s f c]. simpl in H.
    destruct f as [|[e|] [|[e'|] f]]; simpl in H; try discriminate H;
      by injection H as <-. }
  split; [|split].
  - intros key. by rewrite answer_get, Hempty, lookup_empty.
  - intros key. rewrite answer_getTagsForKey, Hempty. unfold tagsOf.
    by rewrite lookup_empty.
  - intros tag. rewrite answer_getKeysForTag, Hempty. unfold keysOf.
    by rewrite lookup_empty.
Qed.

Lemma clear_empties_witness :
  answer (TaggedKeyv.get "user:1")
    (after (TaggedKeyv.clear new) taggedOnceWorld) = Fulfilled None /\
  answer (TaggedKeyv.getTagsForKey new "user:1")
    (after (TaggedKeyv.clear new) taggedOnceWorld) = Fulfilled [] /\
  answer (TagManager.getKeysForTag new "users")
    (after (TaggedKeyv.clear new) taggedOnceWorld) = Fulfilled [].
Proof.
  destruct (clear_empties taggedOnceWorld
              (after (TaggedKeyv.clear new) taggedOnceWorld)) as (Hget & Htags & Hkeys).
  - vm_compute. reflexivity.
  - split; [apply Hget|]. split; [apply Htags|apply Hkeys].
Defined.

End Failures.

(** * Deleting and invalidating a tag *)

Section DeleteTag.

Import KeyvTagManager.

Lemma plain_tagKey (key tag : string) : plain key -> key ≠ getTagKey tag.
Proof.
  intros [H _] ->. unfold getTagKey in H.
  assert (stripPrefix TAG_PREFIX (TAG_PREFIX +:+ tag) = Some tag) as H'
    by by apply stripPrefix_Some.
  congruence.
Qed.

Lemma plain_tagMapKey (key k : string) : plain key -> key ≠ getKeyTagMapKey k.
Proof.
  intros [_ H] ->. unfold getKeyTagMapKey in H.
  assert (stripPrefix KEY_TAGS_PREFIX (KEY_TAGS_PREFIX +:+ k) = Some k) as H'
    by by apply stripPrefix_Some.
  congruence.
Qed.

Lemma exec_detag (tag key : string) (s : gmap string value) :
  exec (let* keyTags := getTagsForKey key in
        let updatedTags := filter (fun t => t ≠ tag) keyTags in
        if bool_decide (0 < length updatedTags)
        then Keyv.set (getKeyTagMapKey key) (ofStrings updatedTags) None
        else Keyv.delete (getKeyTagMapKey key) ;;; Ret tt) s
  = (Fulfilled tt, detagged tag key s).
Proof.
  rewrite exec_bind, exec_getTagsForKey. unfold detagged. cbv zeta.
  destruct (filter (fun t => t ≠ tag) (tagsOf s key)) as [|t l]; simpl; done.
Qed.

Lemma exec_deleteTag (tag : string) (s : gmap string value) :
  exec (deleteTag tag) s = (Fulfilled tt, tagDeleted tag s).
Proof.
  unfold deleteTag, tagDeleted, keysOf. rewrite exec_bind, exec_get.
  rewrite exec_bind.
  destruct (isStringArray (s !! getTagKey tag)) as [l|]; simpl default.
  - rewrite (exec_forEach _ _ (fun key s' => detagged tag key s'))
      by (intros; apply exec_detag). by rewrite exec_bind, exec_delete.
  - cbn [exec foldl]. by rewrite exec_bind, exec_delete.
Qed.

Lemma keysOf_detagged (tag key t : string) (s : gmap string value) :
  keysOf (detagged tag key s) t = keysOf s t.
Proof.
  unfold detagged. destruct (filter _ _).
  - rewrite keysOf_delete. by rewrite decide_False
      by apply not_eq_sym, getTagKey_getKeyTagMapKey.
  - apply keysOf_insert_tagMapKey.
Qed.

Lemma tagsOf_detagged (tag key k : string) (s : gmap string value) :
  tagsOf (detagged tag key s) k =
  if decide (key = k) then filter (fun t => t ≠ tag) (tagsOf s k) else tagsOf s k.
Proof.
  unfold detagged. case_decide as Hk.
  - subst k. destruct (filter _ _) as [|t l] eqn:E.
    + rewrite tagsOf_delete_tagMapKey. by rewrite decide_True.
    + rewrite tagsOf_insert_tagMapKey. by rewrite decide_True.
  - destruct (filter _ _) as [|t l].
    + rewrite tagsOf_delete_tagMapKey. by rewrite decide_False.
    + rewrite tagsOf_insert_tagMapKey. by rewrite decide_False.
Qed.

Lemma detagged_other (tag key k : string) (s : gmap string value) :
  k ≠ getKeyTagMapKey key -> detagged tag key s !! k = s !! k.
Proof.
  intros Hk. unfold detagged. destruct (filter _ _).
  - by rewrite lookup_delete_ne.
  - by rewrite lookup_insert_ne.
Qed.

Lemma keysOf_foldl_detagged (tag t : string) (l : list string)
    (s : gmap string value) :
  keysOf (foldl (fun s' key => detagged tag key s') s l) t = keysOf s t.
Proof.
  revert s. induction l as [|key l IH]; intros s; simpl; [done|].
  by rewrite IH, keysOf_detagged.
Qed.

Lemma tagsOf_foldl_detagged (tag k : string) (l : list string)
    (s : gmap string value) :
  tagsOf (foldl (fun s' key => detagged tag key s') s l) k =
  if decide (k ∈ l) then filter (fun t => t ≠ tag) (tagsOf s k) else tagsOf s k.
Proof.
  revert s. induction l as [|key l IH]; intros s; cbn [foldl].
  - by rewrite decide_False by apply not_elem_of_nil.
  - rewrite IH, tagsOf_detagged.
    destruct (decide (key = k)) as [->|Hne].
    + rewrite (decide_True (P := k ∈ k :: l)) by apply list_elem_of_here.
      case_decide; [|done]. rewrite list_filter_filter.
      apply list_filter_iff. tauto.
    + destruct (decide (k ∈ l)) as [Hin|Hnin].
      * by rewrite decide_True by by apply list_elem_of_further.
      * rewrite decide_False; [done|].
        intros [?|?]%elem_of_cons; [congruence|done].
Qed.

Lemma foldl_detagged_other (tag k : string) (l : list string)
    (s : gmap string value) :
  (forall key, k ≠ getKeyTagMapKey key) ->
  foldl (fun s' key => detagged tag key s') s l !! k = s !! k.
Proof.
  intros Hk. revert s. induction l as [|key l IH]; intros s; simpl; [done|].
  by rewrite IH, detagged_other.
Qed.

Lemma keysOf_tagDeleted (tag t : string) (s : gmap string value) :
  keysOf (tagDeleted tag s) t = if decide (tag = t) then [] else keysOf s t.
Proof.
  unfold tagDeleted. rewrite keysOf_delete_tagKey.
  case_decide; [done|]. apply keysOf_foldl_detagged.
Qed.

Lemma tagsOf_tagDeleted (tag k : string) (s : gmap string value) :
  tagsOf (tagDeleted tag s) k =
  if decide (k ∈ keysOf s tag) then filter (fun t => t ≠ tag) (tagsOf s k)
  else tagsOf s k.
Proof.
  unfold tagDeleted. rewrite tagsOf_delete.
  rewrite decide_False by apply getTagKey_getKeyTagMapKey.
  apply tagsOf_foldl_detagged.
Qed.

Lemma tagDeleted_plain (tag k : string) (s : gmap string value) :
  plain k -> tagDeleted tag s !! k = s !! k.
Proof.
  intros Hk. unfold tagDeleted.
  rewrite lookup_delete_ne by (apply not_eq_sym; by apply plain_tagKey).
  apply foldl_detagged_other. intros key. by apply plain_tagMapKey.
Qed.

(** X14.  [deleteTag], on a store that reports no failure, takes the tag off
    every key listed under it and deletes its record; the other tags keep
    their keys, and the payloads stay. *)
Theorem deleteTag_detags (tag : string) (s : gmap string value) (c : list string) :
  (run (deleteTag tag) (mkWorld s [] c)).1 = Fulfilled tt /\
  answer (TagManager.getKeysForTag new tag) (after (deleteTag tag) (mkWorld s [] c))
  = Fulfilled [] /\
  (forall key,
     answer (TaggedKeyv.getTagsForKey new key) (after (deleteTag tag) (mkWorld s [] c))
     = Fulfilled (if decide (key ∈ keysOf s tag)
                  then filter (fun t => t ≠ tag) (tagsOf s key)
                  else tagsOf s key)) /\
  (forall t, t ≠ tag ->
     answer (TagManager.getKeysForTag new t) (after (deleteTag tag) (mkWorld s [] c))
     = Fulfilled (keysOf s t)) /\
  (forall key, plain key ->
     answer (TaggedKeyv.get key) (after (deleteTag tag) (mkWorld s [] c))
     = Fulfilled (s !! key)).
Proof.
  unfold after.
  destruct (run_calm (deleteTag tag) (mkWorld s [] c) eq_refl) as [c' ->].
  cbn [store]. rewrite exec_deleteTag. cbn [fst snd].
  split; [done|]. split; [|split; [|split]].
  - rewrite answer_getKeysForTag. cbn [store]. rewrite keysOf_tagDeleted.
    by rewrite decide_True.
  - intros key. rewrite answer_getTagsForKey. cbn [store].
    by rewrite tagsOf_tagDeleted.
  - intros t Ht. rewrite answer_getKeysForTag. cbn [store].
    rewrite keysOf_tagDeleted. by rewrite decide_False.
  - intros key Hkey. rewrite answer_get. cbn [store]. by rewrite tagDeleted_plain.
Qed.

Lemma exec_deleteLoop (tag : string) (keys errors : list string)
    (s : gmap string value) :
  exec (TaggedKeyv.deleteLoop tag keys errors) s
  = (Fulfilled errors, foldl (fun s' key => delete key s') s keys).
Proof.
  revert s. induction keys as [|key keys IH]; intros s; [done|].
  cbn [TaggedKeyv.deleteLoop foldl].
  rewrite exec_bind, exec_tryCatch, exec_bind, exec_delete. apply IH.
Qed.

Lemma exec_invalidateTag (tag : string) (s : gmap string value) :
  exec (TaggedKeyv.invalidateTag new tag) s = (Fulfilled tt, invalidated tag s).
Proof.
  unfold TaggedKeyv.invalidateTag, invalidated.
  cbn [new TagManager.getKeysForTag TagManager.deleteTag].
  rewrite exec_tryCatch, exec_bind, exec_getKeysForTag.
  destruct (keysOf s tag) as [|key keys]; [done|].
  rewrite bool_decide_false by done.
  rewrite exec_bind, exec_deleteLoop, exec_bind, exec_tryCatch, exec_bind,
    exec_deleteTag. done.
Qed.

Lemma keysOf_foldl_delete (keys : list string) (t : string)
    (s : gmap string value) :
  Forall plain keys ->
  keysOf (foldl (fun s' key => delete key s') s keys) t = keysOf s t.
Proof.
  intros H. revert s. induction H as [|key keys Hk _ IH]; intros s; simpl; [done|].
  rewrite IH, keysOf_delete. by rewrite decide_False by by apply plain_tagKey.
Qed.

Lemma tagsOf_foldl_delete (keys : list string) (k : string)
    (s : gmap string value) :
  Forall plain keys ->
  tagsOf (foldl (fun s' key => delete key s') s keys) k = tagsOf s k.
Proof.
  intros H. revert s. induction H as [|key keys Hk _ IH]; intros s; simpl; [done|].
  rewrite IH, tagsOf_delete. by rewrite decide_False by by apply plain_tagMapKey.
Qed.

Lemma lookup_foldl_delete (keys : list string) (k : string)
    (s : gmap string value) :
  foldl (fun s' key => delete key s') s keys !! k
  = if decide (k ∈ keys) then None else s !! k.
Proof.
  revert s. induction keys as [|key keys IH]; intros s; cbn [foldl].
  - by rewrite decide_False by apply not_elem_of_nil.
  - rewrite IH. destruct (decide (k ∈ keys)) as [Hin|Hnin].
    + by rewrite decide_True by by apply list_elem_of_further.
    + destruct (decide (key = k)) as [->|Hne].
      * rewrite decide_True by apply list_elem_of_here. apply lookup_delete_eq.
      * rewrite decide_False by (intros [?|?]%elem_of_cons; [congruence|done]).
        by apply lookup_delete_ne.
Qed.

Lemma keysOf_invalidated (tag t : string) (s : gmap string value) :
  Forall plain (keysOf s tag) ->
  keysOf (invalidated tag s) t = if decide (tag = t) then [] else keysOf s t.
Proof.
  intros Hp. unfold invalidated. destruct (keysOf s tag) as [|key keys] eqn:E.
  - case_decide; [by subst|done].
  - by rewrite keysOf_tagDeleted, keysOf_foldl_delete.
Qed.

Lemma tagsOf_invalidated (tag k : string) (s : gmap string value) :
  Forall plain (keysOf s tag) ->
  tagsOf (invalidated tag s) k =
  if decide (k ∈ keysOf s tag) then filter (fun t => t ≠ tag) (tagsOf s k)
  else tagsOf s k.
Proof.
  intros Hp. unfold invalidated. destruct (keysOf s tag) as [|key keys] eqn:E.
  - by rewrite decide_False by apply not_elem_of_nil.
  - by rewrite tagsOf_tagDeleted, keysOf_foldl_delete, tagsOf_foldl_delete, E.
Qed.

Lemma lookup_invalidated (tag k : string) (s : gmap string value) :
  plain k ->
  invalidated tag s !! k = if decide (k ∈ keysOf s tag) then None else s !! k.
Proof.
  intros Hk. unfold invalidated. destruct (keysOf s tag) as [|key keys] eqn:E.
  - by rewrite decide_False by apply not_elem_of_nil.
  - by rewrite tagDeleted_plain, lookup_foldl_delete.
Qed.

(** X15.  Invalidation is complete.  When the keys listed under a tag are
    outside the namespaces of the index, [invalidateTag], on a store that
    reports no failure, leaves each of them without payload and without the
    tag, and the tag without keys: [getByTag] returns nothing.  The key
    lists of the other tags are as before: a deleted key stays listed there. *)
Theorem invalidateTag_complete (tag : string) (s : gmap string value)
    (c : list string) :
  Forall plain (keysOf s tag) ->
  (run (TaggedKeyv.invalidateTag new tag) (mkWorld s [] c)).1 = Fulfilled tt /\
  (forall options,
     answer (TaggedKeyv.getByTag new tag options)
       (after (TaggedKeyv.invalidateTag new tag) (mkWorld s [] c)) = Fulfilled []) /\
  (forall key, key ∈ keysOf s tag ->
     answer (TaggedKeyv.get key)
       (after (TaggedKeyv.invalidateTag new tag) (mkWorld s [] c)) = Fulfilled None /\
     answer (TaggedKeyv.getTagsForKey new key)
       (after (TaggedKeyv.invalidateTag new tag) (mkWorld s [] c))
     = Fulfilled (filter (fun t => t ≠ tag) (tagsOf s key))) /\
  (forall t, t ≠ tag ->
     answer (TagManager.getKeysForTag new t)
       (after (TaggedKeyv.invalidateTag new tag) (mkWorld s [] c))
     = Fulfilled (keysOf s t)).
Proof.
  intros Hp. unfold after.
  destruct (run_calm (TaggedKeyv.invalidateTag new tag) (mkWorld s [] c) eq_refl)
    as [c' ->].
  cbn [store]. rewrite exec_invalidateTag. cbn [fst snd].
  split; [done|]. split; [|split].
  - intros options. rewrite getByTag_slice. cbn [store].
    rewrite keysOf_invalidated by done. rewrite decide_True by done.
    by rewrite slice_nil.
  - intros key Hkey. rewrite answer_get, answer_getTagsForKey. cbn [store].
    rewrite lookup_invalidated
      by (rewrite Forall_forall in Hp; by apply Hp).
    rewrite tagsOf_invalidated by done. by rewrite !decide_True.
  - intros t Ht. rewrite answer_getKeysForTag. cbn [store].
    rewrite keysOf_invalidated by done. by rewrite decide_False.
Qed.

Lemma invalidateTag_complete_witness :
  answer (TaggedKeyv.get "u2")
    (after (TaggedKeyv.invalidateTag new "users") (mkWorld (store twoUsersWorld) [] []))
  = Fulfilled None /\
  answer (TaggedKeyv.getTagsForKey new "u2")
    (after (TaggedKeyv.invalidateTag new "users") (mkWorld (store twoUsersWorld) [] []))
  = Fulfilled ["admins"] /\
  answer (TagManager.getKeysForTag new "admins")
    (after (TaggedKeyv.invalidateTag new "users") (mkWorld (store twoUsersWorld) [] []))
  = Fulfilled ["u2"].
Proof.
  destruct (invalidateTag_complete "users" (store twoUsersWorld) [])
    as (_ & _ & Hkeys & Hothers).
  - assert (keysOf (store twoUsersWorld) "users" = ["u1"; "u2"]) as ->
      by (vm_compute; reflexivity).
    repeat constructor.
  - destruct (Hkeys "u2") as [Hget Htags].
    + assert (keysOf (store twoUsersWorld) "users" = ["u1"; "u2"]) as ->
        by (vm_compute; reflexivity).
      apply list_elem_of_further, list_elem_of_here.
    + split; [exact Hget|]. split.
      * rewrite Htags. vm_compute. reflexivity.
      * rewrite (Hothers "admins") by discriminate. vm_compute. reflexivity.
Defined.

End DeleteTag.

(** * What [getByTag] writes *)

Section Page.

Import KeyvTagManager.

Lemma exec_getByTag (tag : string) (options : option TaggedKeyv.pageOptions)
    (s : gmap string value) :
  let page := slice (keysOf s tag) (offsetOf options)
                (offsetOf options + limitOf options) in
  exec (TaggedKeyv.getByTag new tag options) s =
  (Fulfilled (entriesOf s page),
   if decide (Forall (fun key => is_Some (s !! key)) page) then s
   else compacted tag s).
Proof.
  cbv zeta. unfold TaggedKeyv.getByTag.
  cbn [new TagManager.getKeysForTag TagManager.compact].
  rewrite exec_tryCatch, exec_bind, exec_getKeysForTag.
  assert (default 1%Z (TaggedKeyv.page (default (TaggedKeyv.mkPageOptions None None) options))
          = default 1%Z (options ≫= TaggedKeyv.page)) as -> by by destruct options.
  assert (default 50%Z (TaggedKeyv.limit (default (TaggedKeyv.mkPageOptions None None) options))
          = default 50%Z (options ≫= TaggedKeyv.limit)) as -> by by destruct options.
  fold (pageOf options). fold (limitOf options). fold (offsetOf options).
  set (keys := keysOf s tag).
  case_bool_decide as Hk.
  { apply nil_length_inv in Hk. rewrite Hk, slice_nil.
    by rewrite decide_True by constructor. }
  cbv zeta. set (page := slice keys _ _).
  case_bool_decide as Hp.
  { apply nil_length_inv in Hp. rewrite Hp. by rewrite decide_True by constructor. }
  rewrite exec_bind, exec_fetchLoop. cbv beta iota. rewrite exec_bind.
  cbn [app Nat.add].
  assert (Forall (fun key => is_Some (s !! key)) page
          <-> length (filter (fun key => s !! key = None) page) = 0) as Hdead.
  { rewrite Forall_forall. split.
    - intros H. destruct (filter _ page) as [|x l] eqn:E; [done|].
      assert (x ∈ filter (fun key => s !! key = None) page) as Hx
        by (rewrite E; apply list_elem_of_here).
      apply list_elem_of_filter in Hx as [Hnone Hin].
      destruct (H x Hin) as [v Hv]. congruence.
    - intros H x Hx. apply nil_length_inv in H.
      destruct (s !! x) as [v|] eqn:E; [by eexists|].
      assert (x ∈ filter (fun key => s !! key = None) page) as Hx'
        by by apply list_elem_of_filter.
      rewrite H in Hx'. by apply elem_of_nil in Hx'. }
  case_bool_decide as Hd; case_decide as Hall.
  - apply Hdead in Hall. lia.
  - rewrite exec_tryCatch, exec_compact. cbn [foldl]. by rewrite exec_bind.
  - cbn [exec]. by rewrite exec_bind.
  - exfalso. apply Hall, Hdead. lia.
Qed.

Lemma keysOf_compacted (tag : string) (s : gmap string value) :
  keysOf (compacted tag s) tag = liveKeys s (keysOf s tag).
Proof.
  unfold compacted. unfold keysOf at 2.
  destruct (isStringArray (s !! getTagKey tag)) as [l|] eqn:E; simpl default.
  - cbv zeta. case_decide as Hsame; [|case_decide as Hnil].
    + unfold keysOf. rewrite E. by rewrite Hsame.
    + rewrite keysOf_delete_tagKey. by rewrite decide_True.
    + rewrite keysOf_insert_tagKey. by rewrite decide_True.
  - unfold keysOf. by rewrite E.
Qed.

Lemma compacted_other (tag k : string) (s : gmap string value) :
  k ≠ getTagKey tag -> compacted tag s !! k = s !! k.
Proof.
  intros Hk. unfold compacted.
  destruct (isStringArray (s !! getTagKey tag)) as [l|]; [|done].
  cbv zeta. case_decide; [done|]. case_decide.
  - by rewrite lookup_delete_ne.
  - by rewrite lookup_insert_ne.
Qed.

Lemma elem_of_liveKeys (s : gmap string value) (l : list string) (key : string) :
  key ∈ liveKeys s l <-> key ∈ l /\ is_Some (s !! key).
Proof.
  unfold liveKeys. rewrite list_elem_of_filter, dedupFirst_elem_of. tauto.
Qed.

(** X16.  [getByTag] reads.  On a store that reports no failure it leaves
    the store as it is when every key of the page holds a value; when one
    does not, it leaves the record of the tag compacted (no duplicate, no
    key without a value), and nothing else changed. *)
Theorem getByTag_compacts_on_dead_keys (tag : string)
    (options : option TaggedKeyv.pageOptions) (s : gmap string value)
    (c : list string) :
  let page := slice (keysOf s tag) (offsetOf options)
                (offsetOf options + limitOf options) in
  let s' := store (after (TaggedKeyv.getByTag new tag options) (mkWorld s [] c)) in
  (Forall (fun key => is_Some (s !! key)) page -> s' = s) /\
  (Exists (fun key => s !! key = None) page ->
   (forall k, k ≠ getTagKey tag -> s' !! k = s !! k) /\
   NoDup (keysOf s' tag) /\
   forall key, key ∈ keysOf s' tag <-> key ∈ keysOf s tag /\ is_Some (s !! key)).
Proof.
  cbv zeta. unfold after.
  destruct (run_calm (TaggedKeyv.getByTag new tag options) (mkWorld s [] c) eq_refl)
    as [c' ->].
  cbn [store snd]. pose proof (exec_getByTag tag options s) as H. cbv zeta in H.
  rewrite H. cbn [snd]. split.
  - intros Hall. by rewrite decide_True.
  - intros Hdead. rewrite decide_False; last first.
    { intros Hall. apply Exists_exists in Hdead as (x & Hx & Hnone).
      rewrite Forall_forall in Hall. destruct (Hall x Hx) as [v Hv]. congruence. }
    split; [intros k Hk; by apply compacted_other|].
    rewrite keysOf_compacted. split.
    + apply NoDup_filter, dedupFirst_NoDup.
    + intros key. apply elem_of_liveKeys.
Qed.

End Page.

(** * Soundness of the index *)

Section Sound.

Import KeyvTagManager.

Lemma tagsOf_foldl_removedFrom (key k : string) (l : list string)
    (s : gmap string value) :
  tagsOf (foldl (fun s' tag => removedFrom key tag s') s l) k = tagsOf s k.
Proof.
  revert s. induction l as [|t l IH]; intros s; simpl; [done|].
  by rewrite IH, tagsOf_removedFrom.
Qed.

Lemma tagsOf_untagged_other (key k : string) (s : gmap string value) :
  tagsOf (untagged key s) k = if decide (key = k) then [] else tagsOf s k.
Proof.
  case_decide as Hk; [subst; apply tagsOf_untagged|].
  unfold untagged.
  destruct (isStringArray (s !! getKeyTagMapKey key)) as [l|]; [|done].
  rewrite tagsOf_delete_tagMapKey, decide_False by done.
  apply tagsOf_foldl_removedFrom.
Qed.

Lemma tagsOf_retagged_other (key k : string) (tags : list string)
    (s : gmap string value) :
  tagsOf (retagged key tags s) k = if decide (key = k) then tags else tagsOf s k.
Proof.
  case_decide as Hk; [subst; apply tagsOf_retagged|].
  unfold retagged. destruct tags as [|t tags].
  - rewrite tagsOf_delete_tagMapKey, decide_False by done.
    rewrite tagsOf_untagged_other. by rewrite decide_False.
  - rewrite tagsOf_foldl_addedTo, tagsOf_insert_tagMapKey, decide_False by done.
    rewrite tagsOf_untagged_other. by rewrite decide_False.
Qed.

Lemma keysOf_insert_plain (key t : string) (v : value) (s : gmap string value) :
  plain key -> keysOf (<[key := v]> s) t = keysOf s t.
Proof.
  intros Hk. unfold keysOf. rewrite lookup_insert_ne; [done|]. by apply plain_tagKey.
Qed.

Lemma tagsOf_insert_plain (key k : string) (v : value) (s : gmap string value) :
  plain key -> tagsOf (<[key := v]> s) k = tagsOf s k.
Proof.
  intros Hk. unfold tagsOf. rewrite lookup_insert_ne; [done|].
  by apply plain_tagMapKey.
Qed.

Lemma elem_of_keysOf_afterSet (key x t : string) (v : value) (tags : list string)
    (s : gmap string value) :
  plain key ->
  x ∈ keysOf (afterSet key v tags s) t <->
  match tags with
  | [] => x ∈ keysOf s t
  | _ => (x ∈ keysOf s t /\ (t ∈ tagsOf s key -> x ≠ key)) \/ (x = key /\ t ∈ tags)
  end.
Proof.
  intros Hk. unfold afterSet. destruct tags as [|t0 tags].
  - by rewrite keysOf_insert_plain.
  - by rewrite elem_of_keysOf_retagged, keysOf_insert_plain, tagsOf_insert_plain.
Qed.

Lemma tagsOf_afterSet (key k : string) (v : value) (tags : list string)
    (s : gmap string value) :
  plain key ->
  tagsOf (afterSet key v tags s) k =
  match tags with
  | [] => tagsOf s k
  | _ => if decide (key = k) then tags else tagsOf s k
  end.
Proof.
  intros Hk. unfold afterSet. destruct tags as [|t0 tags].
  - by rewrite tagsOf_insert_plain.
  - by rewrite tagsOf_retagged_other, tagsOf_insert_plain.
Qed.

Lemma listedAreRecorded_afterSet (key : string) (v : value) (tags : list string)
    (s : gmap string value) :
  plain key -> listedAreRecorded s -> listedAreRecorded (afterSet key v tags s).
Proof.
  intros Hk Hs x t. rewrite elem_of_keysOf_afterSet, tagsOf_afterSet by done.
  destruct tags as [|t0 tags]; [apply Hs|].
  intros [[Hin Hx]|[-> Ht]].
  - destruct (Hs x t Hin) as [Hrec Hplain]. split; [|done].
    case_decide as Heq; [|done]. subst x. by destruct Hx.
  - by rewrite decide_True.
Qed.

Lemma recordedAreListed_afterSet (key : string) (v : value) (tags : list string)
    (s : gmap string value) :
  plain key -> recordedAreListed s -> recordedAreListed (afterSet key v tags s).
Proof.
  intros Hk Hs x t. rewrite elem_of_keysOf_afterSet, tagsOf_afterSet by done.
  destruct tags as [|t0 tags]; [apply Hs|].
  case_decide as Heq.
  - subst x. auto.
  - intros Ht. left. split; [by apply Hs|]. intros _ ?. by subst.
Qed.

Lemma listedAreRecorded_plain (s : gmap string value) (tag : string) :
  listedAreRecorded s -> Forall plain (keysOf s tag).
Proof. intros Hs. apply Forall_forall. intros key Hkey. by apply (Hs key tag). Qed.

Lemma listedAreRecorded_deleted (key : string) (s : gmap string value) :
  plain key -> listedAreRecorded s ->
  listedAreRecorded (delete key (untagged key s)).
Proof.
  intros Hk Hs x t. rewrite keysOf_delete, tagsOf_delete.
  rewrite !decide_False by (by apply plain_tagKey || by apply plain_tagMapKey).
  rewrite elem_of_keysOf_untagged, tagsOf_untagged_other.
  intros [Hin Hx]. destruct (Hs x t Hin) as [Hrec Hplain]. split; [|done].
  case_decide as Heq; [|done]. subst x. by destruct Hx.
Qed.

Lemma recordedAreListed_deleted (key : string) (s : gmap string value) :
  plain key -> recordedAreListed s ->
  recordedAreListed (delete key (untagged key s)).
Proof.
  intros Hk Hs x t. rewrite keysOf_delete, tagsOf_delete.
  rewrite !decide_False by (by apply plain_tagKey || by apply plain_tagMapKey).
  rewrite elem_of_keysOf_untagged, tagsOf_untagged_other.
  case_decide as Heq; [by intros ?%elem_of_nil|].
  intros Ht. split; [by apply Hs|]. intros _ ?. by subst.
Qed.

Lemma listedAreRecorded_invalidated (tag : string) (s : gmap string value) :
  listedAreRecorded s -> listedAreRecorded (invalidated tag s).
Proof.
  intros Hs x t. pose proof (listedAreRecorded_plain s tag Hs) as Hp.
  rewrite keysOf_invalidated, tagsOf_invalidated by done.
  case_decide as Ht; [by intros ?%elem_of_nil|].
  intros Hin. destruct (Hs x t Hin) as [Hrec Hplain]. split; [|done].
  case_decide; [|done]. apply list_elem_of_filter. split; [congruence|done].
Qed.

Lemma recordedAreListed_invalidated (tag : string) (s : gmap string value) :
  listedAreRecorded s -> recordedAreListed s ->
  recordedAreListed (invalidated tag s).
Proof.
  intros Hl Hs x t. pose proof (listedAreRecorded_plain s tag Hl) as Hp.
  rewrite keysOf_invalidated, tagsOf_invalidated by done.
  case_decide as Hx.
  - intros [Hne Ht]%list_elem_of_filter. rewrite decide_False by congruence.
    by apply Hs.
  - intros Ht. case_decide as Heq; [|by apply Hs].
    subst t. destruct Hx. by apply Hs.
Qed.

Lemma tagsOf_compacted (tag k : string) (s : gmap string value) :
  tagsOf (compacted tag s) k = tagsOf s k.
Proof.
  unfold tagsOf. rewrite compacted_other; [done|].
  apply not_eq_sym, getTagKey_getKeyTagMapKey.
Qed.

Lemma elem_of_keysOf_compacted (tag t x : string) (s : gmap string value) :
  x ∈ keysOf (compacted tag s) t -> x ∈ keysOf s t.
Proof.
  destruct (decide (t = tag)) as [->|Hne].
  - rewrite keysOf_compacted, elem_of_liveKeys. tauto.
  - unfold keysOf. rewrite compacted_other; [done|].
    intros H%getTagKey_inj. done.
Qed.

Lemma listedAreRecorded_compacted (tags : list string) (s : gmap string value) :
  listedAreRecorded s ->
  listedAreRecorded (foldl (fun s' tag => compacted tag s') s tags).
Proof.
  revert s. induction tags as [|tag tags IH]; intros s Hs; [done|].
  apply IH. intros x t Hx%elem_of_keysOf_compacted.
  rewrite tagsOf_compacted. by apply Hs.
Qed.

Lemma exec_setLoop (entries : list (string * value * option (list string)))
    (errors : list string) (s : gmap string value) :
  exec (TaggedKeyv.setLoop new entries errors) s
  = (Fulfilled errors, afterSetMany entries s).
Proof.
  revert s. induction entries as [|[[key v] tags] entries IH]; intros s; [done|].
  cbn [TaggedKeyv.setLoop]. unfold afterSetMany. cbn [foldl fst snd].
  rewrite exec_bind, exec_tryCatch, exec_bind, exec_set_operation.
  cbn [TaggedKeyv.parseArgs snd exec]. apply IH.
Qed.

Lemma exec_setMany (entries : list (string * value * option (list string)))
    (s : gmap string value) :
  exec (TaggedKeyv.setMany new entries) s = (Fulfilled tt, afterSetMany entries s).
Proof. unfold TaggedKeyv.setMany. by rewrite exec_bind, exec_setLoop. Qed.

Lemma exec_invalidateLoop (tags errors : list string) (s : gmap string value) :
  exec (TaggedKeyv.invalidateLoop new tags errors) s
  = (Fulfilled errors, foldl (fun s' tag => invalidated tag s') s tags).
Proof.
  revert s. induction tags as [|tag tags IH]; intros s; [done|].
  cbn [TaggedKeyv.invalidateLoop foldl].
  rewrite exec_bind, exec_tryCatch, exec_bind, exec_invalidateTag.
  cbn [exec]. apply IH.
Qed.

Lemma exec_invalidateTags (tags : list string) (s : gmap string value) :
  exec (TaggedKeyv.invalidateTags new tags) s
  = (Fulfilled tt, foldl (fun s' tag => invalidated tag s') s tags).
Proof. unfold TaggedKeyv.invalidateTags. by rewrite exec_bind, exec_invalidateLoop. Qed.

Lemma exec_clear (s : gmap string value) :
  exec (TaggedKeyv.clear new) s = (Fulfilled tt, ∅).
Proof. reflexivity. Qed.

(** The store a call leaves, when the store reports no failure. *)
Lemma exec_cacheProg (c : cacheCall) (s : gmap string value) :
  (exec (cacheProg c) s).2 =
  match c with
  | CacheSet key v arg3 tags =>
      afterSet key v (TaggedKeyv.parseArgs arg3 tags).2 s
  | CacheSetMany entries => afterSetMany entries s
  | CacheDelete key => delete key (untagged key s)
  | CacheInvalidateTag tag => invalidated tag s
  | CacheInvalidateTags tags => foldl (fun s' tag => invalidated tag s') s tags
  | CacheClear => ∅
  | CacheGetByTag tag options =>
      if decide (Forall (fun key => is_Some (s !! key))
                   (slice (keysOf s tag) (offsetOf options)
                      (offsetOf options + limitOf options)))
      then s else compacted tag s
  | CacheCompactTags (Some tags) => foldl (fun s' tag => compacted tag s') s tags
  | CacheCompactTags None => s
  end.
Proof.
  destruct c as [key v arg3 tags|entries|key|tag|tags| |tag options|[tags|]];
    cbn [cacheProg].
  - by rewrite exec_set_operation.
  - by rewrite exec_setMany.
  - by rewrite exec_bind, exec_delete_operation.
  - by rewrite exec_invalidateTag.
  - by rewrite exec_invalidateTags.
  - done.
  - rewrite exec_bind. pose proof (exec_getByTag tag options s) as H.
    cbv zeta in H. by rewrite H.
  - unfold TaggedKeyv.compactTags. cbn [new TagManager.compact].
    by rewrite exec_tryCatch, exec_compact.
  - done.
Qed.

(** X17.  The index stays sound.  From a store where every key listed under
    a tag records the tag and is outside the namespaces of the index, every
    call of the cache that sets or deletes only such keys leaves, on a store
    that reports no failure, a store of the same kind.  When moreover every
    tag a key records lists the key, this holds afterwards too, unless the
    call compacts. *)
Theorem cache_keeps_index_sound (c : cacheCall) (s : gmap string value)
    (console : list string) :
  listedAreRecorded s ->
  plainCall c ->
  listedAreRecorded (store (after (cacheProg c) (mkWorld s [] console))) /\
  (recordedAreListed s -> ~ compacts c ->
   recordedAreListed (store (after (cacheProg c) (mkWorld s [] console)))).
Proof.
  intros Hl Hc. unfold after.
  destruct (run_calm (cacheProg c) (mkWorld s [] console) eq_refl) as [c' ->].
  cbn [store snd]. rewrite exec_cacheProg.
  destruct c as [key v arg3 tags|entries|key|tag|tags| |tag options|[tags|]];
    cbn [plainCall compacts] in *.
  - split; [by apply listedAreRecorded_afterSet|].
    intros Hr _. by apply recordedAreListed_afterSet.
  - revert s Hl. unfold afterSetMany.
    induction Hc as [|[[key v] tags] entries Hk _ IH]; intros s Hl; [done|].
    cbn [foldl fst snd].
    destruct (IH (afterSet key v (default [] tags) s)) as [IH1 IH2];
      [by apply listedAreRecorded_afterSet|].
    split; [done|]. intros Hr Hnc. apply IH2; [|done].
    by apply recordedAreListed_afterSet.
  - split; [by apply listedAreRecorded_deleted|].
    intros Hr _. by apply recordedAreListed_deleted.
  - split; [by apply listedAreRecorded_invalidated|].
    intros Hr _. by apply recordedAreListed_invalidated.
  - revert s Hl. induction tags as [|tag tags IH]; intros s Hl; [done|].
    cbn [foldl].
    destruct (IH (invalidated tag s)) as [IH1 IH2];
      [by apply listedAreRecorded_invalidated|].
    split; [done|]. intros Hr Hnc. apply IH2; [|done].
    by apply recordedAreListed_invalidated.
  - split; [|intros _ _]; intros x t; unfold keysOf, tagsOf;
      rewrite !lookup_empty; by intros ?%elem_of_nil.
  - split; [|by intros _ []]. case_decide; [done|].
    by apply (listedAreRecorded_compacted [tag]).
  - split; [|by intros _ []]. by apply listedAreRecorded_compacted.
  - split; [done|]. by intros _ [].
Qed.

Lemma listedAreRecorded_empty : listedAreRecorded ∅.
Proof.
  intros key tag. unfold keysOf. rewrite lookup_empty. by intros ?%elem_of_nil.
Qed.

Lemma recordedAreListed_empty : recordedAreListed ∅.
Proof.
  intros key tag. unfold tagsOf. rewrite lookup_empty. by intros ?%elem_of_nil.
Qed.

Lemma cache_keeps_index_sound_witness :
  listedAreRecorded (store taggedOnceWorld) /\ recordedAreListed (store taggedOnceWorld).
Proof.
  destruct (cache_keeps_index_sound
              (CacheSet "user:1" (VNum 1) None (Some ["users"])) ∅ [])
    as [Hl Hr].
  - apply listedAreRecorded_empty.
  - split; reflexivity.
  - split; [exact Hl|]. apply Hr; [apply recordedAreListed_empty|].
    intros H. exact H.
Defined.

End Sound.

(** * Bulk invalidation and retagging *)

Section Bulk.

Import KeyvTagManager.

Lemma keysOf_foldl_invalidated_nil (tags : list string) (tag : string)
    (s : gmap string value) :
  listedAreRecorded s -> keysOf s tag = [] ->
  keysOf (foldl (fun s' t => invalidated t s') s tags) tag = [].
Proof.
  revert s. induction tags as [|t tags IH]; intros s Hs Hnil; [done|].
  cbn [foldl]. apply IH; [by apply listedAreRecorded_invalidated|].
  rewrite keysOf_invalidated by by apply listedAreRecorded_plain.
  by case_decide.
Qed.

Lemma lookup_foldl_invalidated_None (tags : list string) (k : string)
    (s : gmap string value) :
  plain k -> s !! k = None ->
  foldl (fun s' t => invalidated t s') s tags !! k = None.
Proof.
  intros Hk. revert s. induction tags as [|t tags IH]; intros s Hnone; [done|].
  cbn [foldl]. apply IH. rewrite lookup_invalidated by done. by case_decide.
Qed.

(** X18.  After [invalidateTags], on a store that reports no failure and
    where every listed key records its tag and is outside the namespaces of
    the index, every tag of the list is without keys, and every key that was
    listed under one of them is without payload. *)
Theorem invalidateTags_complete (tags : list string) (s : gmap string value)
    (c : list string) :
  listedAreRecorded s ->
  (run (TaggedKeyv.invalidateTags new tags) (mkWorld s [] c)).1 = Fulfilled tt /\
  forall tag, tag ∈ tags ->
    answer (TagManager.getKeysForTag new tag)
      (after (TaggedKeyv.invalidateTags new tags) (mkWorld s [] c)) = Fulfilled [] /\
    forall key, key ∈ keysOf s tag ->
      answer (TaggedKeyv.get key)
        (after (TaggedKeyv.invalidateTags new tags) (mkWorld s [] c)) = Fulfilled None.
Proof.
  intros Hs. unfold after.
  destruct (run_calm (TaggedKeyv.invalidateTags new tags) (mkWorld s [] c) eq_refl)
    as [c' ->].
  rewrite exec_invalidateTags. cbn [fst snd]. split; [done|].
  intros tag Htag. rewrite answer_getKeysForTag.
  setoid_rewrite answer_get. cbn [store].
  assert (keysOf (foldl (fun s' t => invalidated t s') s tags) tag = [] /\
          forall key, key ∈ keysOf s tag ->
            foldl (fun s' t => invalidated t s') s tags !! key = None) as [-> H];
    [|split; [done|intros key Hkey; by rewrite H]].
  revert s Hs. induction tags as [|t tags IH]; intros s Hs;
    [by apply elem_of_nil in Htag|].
  cbn [foldl]. pose proof (listedAreRecorded_invalidated t s Hs) as Hs1.
  pose proof (listedAreRecorded_plain s t Hs) as Hp.
  destruct (decide (tag = t)) as [->|Hne].
  - split.
    + apply keysOf_foldl_invalidated_nil; [done|].
      rewrite keysOf_invalidated by done. by rewrite decide_True.
    + intros key Hkey. destruct (Hs key t Hkey) as [_ Hplain].
      apply lookup_foldl_invalidated_None; [done|].
      rewrite lookup_invalidated by done. by rewrite decide_True.
  - apply elem_of_cons in Htag as [?|Htag]; [done|].
    destruct (IH Htag (invalidated t s) Hs1) as [Hnil Hkeys]. split; [done|].
    intros key Hkey. apply Hkeys.
    rewrite keysOf_invalidated by done. by rewrite decide_False.
Qed.

Lemma listedAreRecorded_twoUsersWorld : listedAreRecorded (store twoUsersWorld).
Proof.
  assert (store twoUsersWorld
          = afterSet "u2" (VNum 2) ["users"; "admins"]
              (afterSet "u1" (VNum 1) ["users"] ∅)) as ->
    by (vm_compute; reflexivity).
  apply listedAreRecorded_afterSet; [split; reflexivity|].
  apply listedAreRecorded_afterSet; [split; reflexivity|].
  apply listedAreRecorded_empty.
Qed.

Lemma invalidateTags_complete_witness :
  answer (TagManager.getKeysForTag new "admins")
    (after (TaggedKeyv.invalidateTags new ["users"; "admins"])
       (mkWorld (store twoUsersWorld) [] [])) = Fulfilled [] /\
  answer (TaggedKeyv.get "u2")
    (after (TaggedKeyv.invalidateTags new ["users"; "admins"])
       (mkWorld (store twoUsersWorld) [] [])) = Fulfilled None.
Proof.
  destruct (invalidateTags_complete ["users"; "admins"] (store twoUsersWorld) []
              listedAreRecorded_twoUsersWorld) as [_ H].
  destruct (H "admins") as [Hkeys Hget].
  - apply list_elem_of_further, list_elem_of_here.
  - split; [exact Hkeys|]. apply Hget.
    assert (keysOf (store twoUsersWorld) "admins" = ["u2"]) as ->
      by (vm_compute; reflexivity).
    apply list_elem_of_here.
Defined.

(** X19.  [setTagsForKey] replaces the tags of a key: on a store that
    reports no failure, the key has the tags given, as given (its record is
    deleted when none is given); it is listed under each of them, and no
    longer under the tags that were recorded for it; the other keys are
    listed as before, and no payload is touched. *)
Theorem setTagsForKey_replaces (key : string) (tags : list string)
    (s : gmap string value) (c : list string) :
  let s' := store (after (setTagsForKey key tags) (mkWorld s [] c)) in
  (run (setTagsForKey key tags) (mkWorld s [] c)).1 = Fulfilled tt /\
  tagsOf s' key = tags /\
  (tags = [] -> s' !! getKeyTagMapKey key = None) /\
  (forall x t,
     x ∈ keysOf s' t <->
     (x ∈ keysOf s t /\ (t ∈ tagsOf s key -> x ≠ key)) \/ (x = key /\ t ∈ tags)) /\
  (forall k, plain k -> s' !! k = s !! k).
Proof.
  cbv zeta. unfold after.
  destruct (run_calm (setTagsForKey key tags) (mkWorld s [] c) eq_refl) as [c' ->].
  rewrite exec_setTagsForKey. cbn [fst snd store].
  split; [done|]. split; [apply tagsOf_retagged|]. split; [|split].
  - intros ->. unfold retagged. apply lookup_delete_eq.
  - intros x t. apply elem_of_keysOf_retagged.
  - intros k Hk. apply retagged_other;
      [intros tag; by apply plain_tagKey|by apply plain_tagMapKey].
Qed.

End Bulk.

(** * Records, compaction and bulk sets *)

Section More.

Import KeyvTagManager.

Lemma filter_Forall_id {A : Type} (P : A -> Prop) `{!forall x, Decision (P x)}
    (l : list A) :
  Forall P l -> filter P l = l.
Proof.
  induction 1 as [|x l Hx _ IH]; [done|].
  rewrite filter_cons_True by done. by rewrite IH.
Qed.

(** X20.  [removeKeyFromTag] takes every occurrence of the key out of the
    key list of the tag and keeps the other keys in their order; the record
    is deleted, not left empty, when no key remains; a record that is absent
    or is not a list of strings is left as it is; nothing else changes. *)
Theorem removeKeyFromTag_removes (key tag : string) (s : gmap string value)
    (c : list string) :
  let s' := store (after (removeKeyFromTag key tag) (mkWorld s [] c)) in
  (run (removeKeyFromTag key tag) (mkWorld s [] c)).1 = Fulfilled tt /\
  keysOf s' tag = filter (fun k => k ≠ key) (keysOf s tag) /\
  (keysOf s' tag = [] -> isStringArray (s !! getTagKey tag) ≠ None ->
   s' !! getTagKey tag = None) /\
  (isStringArray (s !! getTagKey tag) = None -> s' = s) /\
  (forall k, k ≠ getTagKey tag -> s' !! k = s !! k).
Proof.
  cbv zeta. unfold after.
  destruct (run_calm (removeKeyFromTag key tag) (mkWorld s [] c) eq_refl) as [c' ->].
  rewrite exec_removeKeyFromTag. cbn [fst snd store].
  split; [done|]. split; [|split; [|split]].
  - rewrite keysOf_removedFrom. by rewrite decide_True.
  - rewrite keysOf_removedFrom, decide_True by done. unfold removedFrom, keysOf.
    destruct (isStringArray (s !! getTagKey tag)) as [arr|]; [|done].
    simpl. intros -> _. apply lookup_delete_eq.
  - unfold removedFrom. by intros ->.
  - intros k Hk. by apply removedFrom_other.
Qed.

(** X21.  Adding a key to a tag that does not list it and removing it again
    gives back the key list of the tag, and touches no other record. *)
Theorem addKeyToTag_removeKeyFromTag (key tag : string) (s : gmap string value)
    (c : list string) :
  key ∉ keysOf s tag ->
  let s' := store (after (addKeyToTag key tag ;;; removeKeyFromTag key tag)
                     (mkWorld s [] c)) in
  keysOf s' tag = keysOf s tag /\
  (forall k, k ≠ getTagKey tag -> s' !! k = s !! k).
Proof.
  intros Hkey. cbv zeta. unfold after.
  destruct (run_calm (addKeyToTag key tag ;;; removeKeyFromTag key tag)
              (mkWorld s [] c) eq_refl) as [c' ->].
  rewrite exec_bind, exec_addKeyToTag, exec_removeKeyFromTag.
  cbn [fst snd store]. split.
  - rewrite keysOf_removedFrom, decide_True by done.
    rewrite keysOf_addedTo, decide_False by done.
    rewrite filter_app, filter_cons_False, filter_nil, app_nil_r by (by intros H).
    apply filter_Forall_id, Forall_forall. intros x Hx ->. done.
  - intros k Hk. by rewrite removedFrom_other, addedTo_other.
Qed.

Lemma addKeyToTag_removeKeyFromTag_witness :
  keysOf (store (after (addKeyToTag "user:2" "users" ;;;
                        removeKeyFromTag "user:2" "users")
                   (mkWorld (store taggedOnceWorld) [] []))) "users"
  = keysOf (store taggedOnceWorld) "users".
Proof.
  apply (addKeyToTag_removeKeyFromTag "user:2" "users" (store taggedOnceWorld) []).
  assert (keysOf (store taggedOnceWorld) "users" = ["user:1"]) as ->
    by (vm_compute; reflexivity).
  intros [H|H]%elem_of_cons; [discriminate H|by apply elem_of_nil in H].
Defined.

Lemma dedupFirst_NoDup_id (l : list string) : NoDup l -> dedupFirst l = l.
Proof.
  induction 1 as [|x l Hx _ IH]; [done|]. simpl. rewrite IH. f_equal.
  apply filter_Forall_id, Forall_forall. intros y Hy ->. done.
Qed.

Lemma compacted_idempotent (tag : string) (s : gmap string value) :
  compacted tag (compacted tag s) = compacted tag s.
Proof.
  unfold compacted at 2 3.
  destruct (isStringArray (s !! getTagKey tag)) as [l|] eqn:E.
  - cbv zeta. case_decide as Hsame; [|case_decide as Hnil].
    + unfold compacted. rewrite E. cbv zeta. by rewrite decide_True.
    + unfold compacted. by rewrite lookup_delete_eq.
    + unfold compacted.
      rewrite lookup_insert_eq, isStringArray_ofStrings. cbv zeta.
      rewrite decide_True; [done|].
      unfold liveKeys at 1.
      rewrite dedupFirst_NoDup_id by apply NoDup_filter, dedupFirst_NoDup.
      apply filter_Forall_id, Forall_forall. intros k [_ Hk]%elem_of_liveKeys.
      destruct (decide (k = getTagKey tag)) as [->|Hne].
      * rewrite lookup_insert_eq. by eexists.
      * by rewrite lookup_insert_ne.
  - unfold compacted. by rewrite E.
Qed.

(** X22.  Compaction restores the record of a tag: after
    [compactTags([tag])], on a store that reports no failure, the tag lists
    each of its keys once, every key it lists holds a value, and compacting
    again changes nothing. *)
Theorem compactTags_restores (tag : string) (s : gmap string value)
    (c : list string) :
  let w' := after (TaggedKeyv.compactTags new (Some [tag])) (mkWorld s [] c) in
  (run (TaggedKeyv.compactTags new (Some [tag])) (mkWorld s [] c)).1 = Fulfilled tt /\
  NoDup (keysOf (store w') tag) /\
  (forall key, key ∈ keysOf (store w') tag -> is_Some (store w' !! key)) /\
  store (after (TaggedKeyv.compactTags new (Some [tag])) w') = store w'.
Proof.
  cbv zeta. unfold after.
  destruct (run_calm (TaggedKeyv.compactTags new (Some [tag])) (mkWorld s [] c) eq_refl)
    as [c' ->].
  assert (forall s0, exec (TaggedKeyv.compactTags new (Some [tag])) s0
                     = (Fulfilled tt, compacted tag s0)) as Hexec.
  { intros s0. unfold TaggedKeyv.compactTags. cbn [new TagManager.compact].
    by rewrite exec_tryCatch, exec_compact. }
  rewrite Hexec. cbn [fst snd store].
  destruct (run_calm (TaggedKeyv.compactTags new (Some [tag]))
              (mkWorld (compacted tag s) [] c') eq_refl) as [c'' ->].
  rewrite Hexec. cbn [fst snd store].
  split; [done|]. rewrite keysOf_compacted. split; [|split].
  - apply NoDup_filter, dedupFirst_NoDup.
  - intros key [Hin Hlive]%elem_of_liveKeys.
    destruct (decide (key = getTagKey tag)) as [->|Hne];
      [|by rewrite compacted_other].
    unfold compacted. unfold keysOf in Hin.
    destruct (isStringArray (s !! getTagKey tag)) as [l|] eqn:E;
      [|simpl in Hin; by apply elem_of_nil in Hin].
    simpl in Hin. cbv zeta. case_decide as Hsame; [done|].
    case_decide as Hnil.
    + assert (getTagKey tag ∈ liveKeys s l) as H by by apply elem_of_liveKeys.
      rewrite Hnil in H. by apply elem_of_nil in H.
    + rewrite lookup_insert_eq. by eexists.
  - apply compacted_idempotent.
Qed.

Lemma last_cons_or {A : Type} (x : A) (l : list A) :
  last (x :: l) = match last l with Some y => Some y | None => Some x end.
Proof.
  destruct l as [|y l]; [done|].
  change (last (x :: y :: l)) with (last (y :: l)).
  destruct (last (y :: l)) eqn:E; [done|]. by apply last_None in E.
Qed.

Lemma lookup_afterSet_plain (key k : string) (v : value) (tags : list string)
    (s : gmap string value) :
  plain k ->
  afterSet key v tags s !! k = if decide (key = k) then Some v else s !! k.
Proof.
  intros Hk. unfold afterSet.
  assert (<[key := v]> s !! k = if decide (key = k) then Some v else s !! k) as Hi.
  { case_decide; [subst; apply lookup_insert_eq|by apply lookup_insert_ne]. }
  destruct tags as [|t tags]; [done|].
  rewrite retagged_other; [done|intros tag; by apply plain_tagKey|by apply plain_tagMapKey].
Qed.

Lemma lookup_afterSetMany (k : string)
    (entries : list (string * value * option (list string)))
    (s : gmap string value) :
  plain k ->
  afterSetMany entries s !! k =
  match lastValue k entries with Some v => Some v | None => s !! k end.
Proof.
  intros Hk. revert s. unfold afterSetMany, lastValue.
  induction entries as [|[[key v] tags] entries IH]; intros s; [done|].
  cbn [foldl omap list_omap fst snd]. rewrite IH, lookup_afterSet_plain by done.
  case_decide as Heq.
  - cbn [option_bind mbind]. simpl. rewrite last_cons_or.
    by destruct (last _).
  - simpl. by destruct (last _).
Qed.

(** X23.  After [setMany], on a store that reports no failure, a key outside
    the namespaces of the index holds the value of its last entry, and the
    value it had when it has no entry. *)
Theorem setMany_last_entry_wins (key : string)
    (entries : list (string * value * option (list string)))
    (s : gmap string value) (c : list string) :
  plain key ->
  (run (TaggedKeyv.setMany new entries) (mkWorld s [] c)).1 = Fulfilled tt /\
  answer (TaggedKeyv.get key) (after (TaggedKeyv.setMany new entries) (mkWorld s [] c))
  = Fulfilled (match lastValue key entries with
               | Some v => Some v
               | None => s !! key
               end).
Proof.
  intros Hk. unfold after.
  destruct (run_calm (TaggedKeyv.setMany new entries) (mkWorld s [] c) eq_refl)
    as [c' ->].
  rewrite exec_setMany. cbn [fst snd]. split; [done|].
  rewrite answer_get. cbn [store]. by rewrite lookup_afterSetMany.
Qed.

Lemma setMany_last_entry_wins_witness :
  answer (TaggedKeyv.get "a")
    (after (TaggedKeyv.setMany new
              [("a", VNum 1, Some ["t"]); ("b", VNum 2, None); ("a", VNum 3, None)])
       (mkWorld ∅ [] []))
  = Fulfilled (Some (VNum 3)).
Proof.
  apply (setMany_last_entry_wins "a"
           [("a", VNum 1, Some ["t"]); ("b", VNum 2, None); ("a", VNum 3, None)] ∅ []).
  split; reflexivity.
Defined.

(** X24.  The guard [isStringArray] accepts exactly the values the index
    writes: a value reads back as the list [l] if and only if it is the
    array of the strings of [l]. *)
Theorem isStringArray_accepts (v : option value) (l : list string) :
  isStringArray v = Some l <-> v = Some (ofStrings l).
Proof.
  split; [|intros ->; apply isStringArray_ofStrings].
  destruct v as [[| | | |items|]|]; try discriminate. simpl.
  intros H. unfold ofStrings. do 2 f_equal. revert l H.
  induction items as [|[| | |x| |] items IH]; intros l; simpl; try discriminate.
  - by intros [= <-].
  - destruct (everyString items) as [l'|]; [|discriminate].
    intros [= <-]. rewrite fmap_cons. f_equal. by apply IH.
Qed.

End More.

(** * The keys written *)

Section Writes.

Import KeyvTagManager.

Lemma writes_tryCatch {A : Type} (p : prog A) (h : string -> prog A) (w : World) :
  writes (tryCatch p h) w =
  writes p w ++ match run p w with
                | (Fulfilled _, _) => []
                | (Rejected e, w') => writes (h e) w'
                end.
Proof.
  revert w. induction p as [a|e|msg k IH|X o k IH]; intros w; simpl.
  - done.
  - done.
  - apply IH.
  - rewrite <- app_assoc. f_equal.
    destruct (faults w) as [|[e|] fs]; [|apply IH|];
      destruct (perform o (store w)); apply IH.
Qed.

Lemma writesOnly_Ret {A : Type} (P : string -> Prop) (a : A) : writesOnly P (Ret a).
Proof. intros w. constructor. Qed.

Lemma writesOnly_Throw {A : Type} (P : string -> Prop) (e : string) :
  writesOnly P (@Throw A e).
Proof. intros w. constructor. Qed.

Lemma writesOnly_bind {A B : Type} (P : string -> Prop) (p : prog A)
    (f : A -> prog B) :
  writesOnly P p -> (forall a, writesOnly P (f a)) -> writesOnly P (bind p f).
Proof.
  intros Hp Hf w. rewrite writes_bind. apply Forall_app. split; [apply Hp|].
  destruct (run p w) as [[a|e] w']; [apply Hf|constructor].
Qed.

Lemma writesOnly_tryCatch {A : Type} (P : string -> Prop) (p : prog A)
    (h : string -> prog A) :
  writesOnly P p -> (forall e, writesOnly P (h e)) -> writesOnly P (tryCatch p h).
Proof.
  intros Hp Hh w. rewrite writes_tryCatch. apply Forall_app. split; [apply Hp|].
  destruct (run p w) as [[a|e] w']; [constructor|apply Hh].
Qed.

Lemma writesOnly_consoleError {P : string -> Prop} (label e : string) :
  writesOnly P (consoleError label e).
Proof. intros w. constructor. Qed.

Lemma writesOnly_get (P : string -> Prop) (key : string) :
  writesOnly P (Keyv.get key).
Proof. intros w. rewrite writes_get. constructor. Qed.

Lemma writesOnly_set (P : string -> Prop) (key : string) (v : value)
    (ttl : option Z) :
  P key -> writesOnly P (Keyv.set key v ttl).
Proof.
  intros Hk w. unfold Keyv.set, await. simpl.
  destruct (faults w) as [|[e|] fs]; simpl; by repeat constructor.
Qed.

Lemma writesOnly_delete (P : string -> Prop) (key : string) :
  P key -> writesOnly P (Keyv.delete key).
Proof.
  intros Hk w. unfold Keyv.delete, await. simpl.
  destruct (faults w) as [|[e|] fs]; simpl; by repeat constructor.
Qed.

Lemma writesOnly_forEach {A : Type} (P : string -> Prop) (l : list A)
    (body : A -> prog unit) :
  (forall x, writesOnly P (body x)) -> writesOnly P (forEach l body).
Proof.
  intros Hb. induction l as [|x l IH]; simpl; [apply writesOnly_Ret|].
  apply writesOnly_bind; auto.
Qed.

Lemma writesOnly_weaken {A : Type} (P Q : string -> Prop) (p : prog A) :
  (forall k, P k -> Q k) -> writesOnly P p -> writesOnly Q p.
Proof. intros H Hp w. eapply Forall_impl; [apply Hp|done]. Qed.

Lemma tagKey_not_plain (tag : string) : ~ plain (getTagKey tag).
Proof. intros H. by apply (plain_tagKey _ tag H). Qed.

Lemma tagMapKey_not_plain (key : string) : ~ plain (getKeyTagMapKey key).
Proof. intros H. by apply (plain_tagMapKey _ key H). Qed.

Ltac writes_tac :=
  repeat first
    [ apply writesOnly_Ret
    | apply writesOnly_Throw
    | apply writesOnly_consoleError
    | apply writesOnly_get
    | apply writesOnly_set; first [apply tagKey_not_plain|apply tagMapKey_not_plain]
    | apply writesOnly_delete; first [apply tagKey_not_plain|apply tagMapKey_not_plain]
    | apply writesOnly_bind; [|intros ?]
    | apply writesOnly_tryCatch; [|intros ?]
    | apply writesOnly_forEach; intros ?
    | case_bool_decide
    | match goal with
      | |- writesOnly _ (match ?x with _ => _ end) => destruct x
      end ].

Lemma writesOnly_addKeyToTag (key tag : string) :
  writesOnly (fun k => ~ plain k) (addKeyToTag key tag).
Proof. unfold addKeyToTag. writes_tac. Qed.

Lemma writesOnly_removeKeyFromTag (key tag : string) :
  writesOnly (fun k => ~ plain k) (removeKeyFromTag key tag).
Proof. unfold removeKeyFromTag. writes_tac. Qed.

Lemma writesOnly_deleteKeyFromAllTags (key : string) :
  writesOnly (fun k => ~ plain k) (deleteKeyFromAllTags key).
Proof.
  unfold deleteKeyFromAllTags.
  apply writesOnly_bind; [apply writesOnly_get|intros tags].
  destruct (isStringArray tags) as [l|]; [|apply writesOnly_Ret].
  apply writesOnly_bind.
  - apply writesOnly_forEach. intros tag. apply writesOnly_removeKeyFromTag.
  - intros _. writes_tac.
Qed.

Lemma writesOnly_setTagsForKey (key : string) (tags : list string) :
  writesOnly (fun k => ~ plain k) (setTagsForKey key tags).
Proof.
  unfold setTagsForKey.
  apply writesOnly_bind; [apply writesOnly_deleteKeyFromAllTags|intros _].
  case_bool_decide; [|writes_tac].
  apply writesOnly_bind; [writes_tac|intros _].
  apply writesOnly_forEach. intros tag. apply writesOnly_addKeyToTag.
Qed.

Lemma writesOnly_deleteTag (tag : string) :
  writesOnly (fun k => ~ plain k) (deleteTag tag).
Proof.
  unfold deleteTag.
  apply writesOnly_bind; [apply writesOnly_get|intros keys].
  apply writesOnly_bind; [|intros _; writes_tac].
  destruct (isStringArray keys) as [l|]; [|apply writesOnly_Ret].
  apply writesOnly_forEach. intros key. unfold getTagsForKey. writes_tac.
Qed.

Lemma writesOnly_compactLoop (P : string -> Prop) (l : list string)
    (seen : gset string) (validKeys : list string) :
  writesOnly P (compactLoop l seen validKeys).
Proof. intros w. rewrite writes_compactLoop. constructor. Qed.

Lemma writesOnly_compact (tags : option (list string)) :
  writesOnly (fun k => ~ plain k) (compact tags).
Proof.
  destruct tags as [l|]; cbn [compact]; [|apply writesOnly_Throw].
  apply writesOnly_forEach. intros tag. unfold compactTag.
  apply writesOnly_bind; [apply writesOnly_get|intros existing].
  destruct (isStringArray existing); [|apply writesOnly_Ret].
  apply writesOnly_bind; [apply writesOnly_compactLoop|intros validKeys].
  writes_tac.
Qed.

(** X25.  The tag index keeps to its namespaces: whatever the store reports,
    every operation that deletes or replaces records one by one writes only
    to keys under the two prefixes of the index, never to a payload. *)
Theorem index_writes_index_keys (c : indexCall) (w : World) :
  recordwise c -> Forall (fun k => ~ plain k) (writes (indexProg c) w).
Proof.
  destruct c as [key tag|key tag|tag|key|key tags|tag|key| |tags| ]; intros Hc;
    try done; cbn [indexProg].
  - apply writesOnly_addKeyToTag.
  - apply writesOnly_removeKeyFromTag.
  - unfold getKeysForTag. revert w. writes_tac.
  - unfold getTagsForKey. revert w. writes_tac.
  - apply writesOnly_setTagsForKey.
  - apply writesOnly_deleteTag.
  - apply writesOnly_deleteKeyFromAllTags.
  - apply writesOnly_compact.
Qed.

Lemma index_writes_index_keys_witness :
  Forall (fun k => ~ plain k)
    (writes (indexProg (CallSetTagsForKey "user:1" ["admins"]))
       (mkWorld (store taggedOnceWorld) [] [])).
Proof.
  apply (index_writes_index_keys (CallSetTagsForKey "user:1" ["admins"])).
  exact I.
Defined.

Lemma writesOnly_fetchLoop (P : string -> Prop) (tag : string)
    (keys : list string) (results : list (string * value))
    (errors : list string) (deadKeys : nat) :
  writesOnly P (TaggedKeyv.fetchLoop tag keys results errors deadKeys).
Proof.
  revert results errors deadKeys.
  induction keys as [|key keys IH]; intros results errors deadKeys;
    cbn [TaggedKeyv.fetchLoop]; [apply writesOnly_Ret|].
  apply writesOnly_bind.
  - writes_tac.
  - intros [err|[v|]]; apply IH.
Qed.

(** X26.  The cache spares the other payloads: whatever the store reports,
    [set] and [delete] of a key write to no key outside the namespaces of
    the index but that key, and [getByTag] and [compactTags] to none at all. *)
Theorem cache_writes_spare_payloads (key : string) (w : World) :
  (forall v arg3 tags,
     Forall (fun k => plain k -> k = key)
       (writes (alone (TaggedKeyv.set new key v arg3 tags)) w)) /\
  Forall (fun k => plain k -> k = key)
    (writes (alone (TaggedKeyv.delete new key)) w) /\
  (forall tag options,
     Forall (fun k => ~ plain k) (writes (TaggedKeyv.getByTag new tag options) w)) /\
  (forall tags,
     Forall (fun k => ~ plain k) (writes (TaggedKeyv.compactTags new tags) w)).
Proof.
  assert (forall A (p : prog A),
            writesOnly (fun k => ~ plain k) p ->
            writesOnly (fun k => plain k -> k = key) p) as Hweak.
  { intros A p. apply writesOnly_weaken. tauto. }
  split; [|split; [|split]].
  - intros v arg3 tags. revert w.
    unfold alone, TaggedKeyv.set, TaggedKeyv.withLock. cbn [operation].
    destruct (TaggedKeyv.parseArgs arg3 tags) as [ttl finalTags].
    apply writesOnly_bind.
    + apply writesOnly_tryCatch; [by apply writesOnly_set|intros e].
      apply writesOnly_Throw.
    + intros _. case_bool_decide; [|apply writesOnly_Ret].
      cbn [new TagManager.setTagsForKey TagManager.deleteKeyFromAllTags].
      apply writesOnly_tryCatch; [apply Hweak, writesOnly_setTagsForKey|intros e].
      apply writesOnly_bind; [|intros _; apply writesOnly_Throw].
      unfold TaggedKeyv.cleanupFailedSet.
      cbn [new TagManager.deleteKeyFromAllTags].
      apply writesOnly_tryCatch; [|intros ce; apply writesOnly_consoleError].
      apply writesOnly_bind; [by apply writesOnly_delete|intros _].
      apply Hweak, writesOnly_deleteKeyFromAllTags.
  - revert w. unfold alone, TaggedKeyv.delete, TaggedKeyv.withLock.
    cbn [operation new TagManager.deleteKeyFromAllTags].
    apply writesOnly_tryCatch; [|intros e; apply writesOnly_Throw].
    apply writesOnly_bind.
    + apply writesOnly_tryCatch;
        [apply Hweak, writesOnly_deleteKeyFromAllTags
        |intros e; apply writesOnly_consoleError].
    + intros _. apply writesOnly_bind; [by apply writesOnly_delete|intros d].
      apply writesOnly_Ret.
  - intros tag options. revert w. unfold TaggedKeyv.getByTag.
    cbn [new TagManager.getKeysForTag TagManager.compact].
    apply writesOnly_tryCatch; [|intros e; apply writesOnly_Throw].
    apply writesOnly_bind; [unfold getKeysForTag; writes_tac|intros allKeys].
    case_bool_decide; [apply writesOnly_Ret|]. cbv zeta.
    case_bool_decide; [apply writesOnly_Ret|].
    apply writesOnly_bind; [apply writesOnly_fetchLoop|].
    intros [[results errors] deadKeys].
    apply writesOnly_bind.
    + case_bool_decide; [|apply writesOnly_Ret].
      apply writesOnly_tryCatch;
        [apply writesOnly_compact|intros e; apply writesOnly_consoleError].
    + intros _. apply writesOnly_bind; [|intros _; apply writesOnly_Ret].
      case_bool_decide; [apply writesOnly_consoleError|apply writesOnly_Ret].
  - intros tags. revert w. unfold TaggedKeyv.compactTags.
    cbn [new TagManager.compact].
    apply writesOnly_tryCatch; [apply writesOnly_compact|intros e].
    apply writesOnly_Throw.
Qed.

End Writes.
